(** * firestore-orm: change-tracking documents, collections and the async queue

    A shallow embedding of
      - [shared/async-queue.ts]   (class [AsyncQueue]),
      - [shared/utils.ts]         ([deepEqual], [parseKey]),
      - [admin/document.ts]       (class [FirestoreDocument], for the Admin SDK),
      - [web/collection.ts]       ([watch] and [unwatch] of [FirestoreCollection];
                                   the collection of the Admin variant reads the same),
    followed by the properties of the specification that concern them.  The
    constructor, [setKey] and [buildPath], [toObject] and the [snapshot]
    generators are not part of the embedding.

    Conventions of the embedding.
      - A JavaScript value is a term of [value].  Numbers are kept as integers
        ([Object.is] on them is equality); plain objects are association lists
        in insertion order with unique keys; a [Date] is its millisecond time;
        the SDK's [Timestamp] and the [DELETE_FIELD] sentinel are class
        instances with their own constructor.
      - Values carry no reference identity.  Wherever the source compares two
        objects it compares a freshly built one ([structuredClone], the result
        of [unserialize]) with the stored one, so the identity shortcut of
        [Object.is] only ever fires on primitives; [deepEqual_refl] shows that
        firing it on objects would not change an answer.
      - The object is threaded explicitly: a method is a function of the
        document state.  An [async] method is a [task]: it runs up to a call
        of the store, and goes on from the store's reply. *)

From Stdlib Require Import List String Ascii DecimalString ZArith Bool Permutation.
From Stdlib Require Import Arith Lia.
Import ListNotations.
Local Open Scope string_scope.
Local Open Scope Z_scope.

Set Implicit Arguments.
Set Warnings "-register-all".

(** ** JavaScript values *)

Module Js.

Inductive value : Type :=
| VUndefined
| VNull
| VBool (b : bool)
| VNum (n : Z)
| VStr (s : string)
| VDate (ms : Z)                          (* new Date(ms) *)
| VTimestamp (seconds nanoseconds : Z)    (* firebase-admin Timestamp *)
| VDelete                                 (* FieldValue.delete(), i.e. DELETE_FIELD *)
| VArr (items : list value)
| VObj (props : list (string * value)).   (* value.constructor === Object *)

(** [FirestoreObject = Record<string, FirestoreValue>] *)
Definition object : Type := list (string * value).

Definition is_undefined (v : value) : bool :=
  match v with VUndefined => true | _ => false end.

(** [obj[key]] *)
Fixpoint get (o : object) (key : string) : value :=
  match o with
  | [] => VUndefined
  | (k, v) :: rest => if String.eqb k key then v else get rest key
  end.

(** [key in obj] *)
Fixpoint has (o : object) (key : string) : bool :=
  match o with
  | [] => false
  | (k, _) :: rest => if String.eqb k key then true else has rest key
  end.

(** [obj[key] = v]: an existing property keeps its place, a new one goes last. *)
Fixpoint set (o : object) (key : string) (v : value) : object :=
  match o with
  | [] => [(key, v)]
  | (k, w) :: rest =>
      if String.eqb k key then (k, v) :: rest else (k, w) :: set rest key v
  end.

(** [delete obj[key]] *)
Fixpoint remove (o : object) (key : string) : object :=
  match o with
  | [] => []
  | (k, w) :: rest =>
      if String.eqb k key then remove rest key else (k, w) :: remove rest key
  end.

(** [Object.keys(obj)], also the order of [for (const key in obj)]. *)
Definition keys (o : object) : list string := map fst o.

(** [Object.assign(target, source)] *)
Definition assign (target source : object) : object :=
  fold_left (fun acc kv => set acc (fst kv) (snd kv)) source target.

(** [DELETE_FIELD.isEqual(v)]: the sentinel is a singleton compared by identity. *)
Definition isDeleteField (v : value) : bool :=
  match v with VDelete => true | _ => false end.

(** [Timestamp.fromDate(date)] and [timestamp.toDate()] of the Admin SDK. *)
Definition fromDate (ms : Z) : value :=
  VTimestamp (ms / 1000) ((ms mod 1000) * 1000000).

Definition toDate (seconds nanoseconds : Z) : value :=
  VDate (seconds * 1000 + (nanoseconds + 500000) / 1000000).

(** [Object.is(a, b)], on primitives. *)
Definition object_is (a b : value) : bool :=
  match a, b with
  | VUndefined, VUndefined => true
  | VNull, VNull => true
  | VBool x, VBool y => Bool.eqb x y
  | VNum x, VNum y => Z.eqb x y
  | VStr x, VStr y => String.eqb x y
  | _, _ => false
  end.

(** [v == null] *)
Definition nullish (v : value) : bool :=
  match v with VUndefined | VNull => true | _ => false end.

(** [typeof v === 'object'] (for a [v] that is not [null]) *)
Definition is_object (v : value) : bool :=
  match v with
  | VDate _ | VTimestamp _ _ | VDelete | VArr _ | VObj _ => true
  | _ => false
  end.

(** The own enumerable properties of an object: what [Object.keys] and
    [obj[key]] see.  A [Date] and the sentinel have none, a [Timestamp] has
    its two numbers, an array its indices (never asked for: both array cases
    of [deepEqual] return earlier). *)
Definition own_props (v : value) : object :=
  match v with
  | VObj props => props
  | VTimestamp s n => [("_seconds", VNum s); ("_nanoseconds", VNum n)]
  | _ => []
  end.

End Js.

Import Js.

(** ** [shared/utils.ts] *)

(** [deepEqual(a, b)].  The array case pairs [val] with [b[i]]; the object
    case looks every key of [a] up in [b]. *)
Fixpoint deepEqual (a b : value) {struct a} : bool :=
  if object_is a b then true
  else if nullish a || nullish b then false
  else if negb (is_object a) || negb (is_object b) then false
  else
    match a, b with
    | VDate x, VDate y => Z.eqb x y
    | VArr xs, VArr ys =>
        if negb (Nat.eqb (List.length xs) (List.length ys)) then false
        else
          (fix every (xs ys : list value) {struct xs} : bool :=
             match xs with
             | [] => true
             | x :: xs' =>
                 deepEqual x (hd VUndefined ys) && every xs' (tl ys)
             end) xs ys
    | VArr _, _ => false
    | _, VArr _ => false
    | VObj props, _ =>
        if negb (Nat.eqb (List.length (keys props)) (List.length (keys (own_props b))))
        then false
        else forallb (fun kv => deepEqual (snd kv) (get (own_props b) (fst kv))) props
    | _, _ =>
        if negb (Nat.eqb (List.length (keys (own_props a))) (List.length (keys (own_props b))))
        then false
        else forallb (fun kv => object_is (snd kv) (get (own_props b) (fst kv)))
                     (own_props a)
    end.

(** [path.split('/')] *)
Fixpoint split_slash (s : string) : list string :=
  match s with
  | EmptyString => [EmptyString]
  | String c rest =>
      if Ascii.eqb c "/"%char then EmptyString :: split_slash rest
      else match split_slash rest with
           | seg :: segs => String c seg :: segs
           | [] => [String c EmptyString]
           end
  end.

(** [path.split('/').filter((p) => p)]: the empty string is the falsy one. *)
Definition path_parts (path : string) : list string :=
  filter (fun p => negb (String.eqb p "")) (split_slash path).

Definition startsWith (c : Ascii.ascii) (s : string) : bool :=
  match s with
  | String c' _ => Ascii.eqb c' c
  | EmptyString => false
  end.

Fixpoint endsWith (c : Ascii.ascii) (s : string) : bool :=
  match s with
  | EmptyString => false
  | String c' EmptyString => Ascii.eqb c' c
  | String _ rest => endsWith c rest
  end.

(** [template.slice(1, -1)] *)
Definition slice_1_m1 (s : string) : string :=
  String.substring 1 (String.length s - 2)%nat s.

Inductive Error : Type :=
| FirestoreDocumentError (message : string)   (* the library's own error class *)
| Thrown (message : string).                  (* any other error: a hook's, the transport's *)

(** A document key: an object of named fields, or the raw path segments. *)
Inductive Key : Type :=
| KeyFields (fields : object)
| KeySegments (segments : list string).

Definition decimal (i : nat) : string :=
  DecimalString.NilZero.string_of_uint (Nat.to_uint i).

(** The text of the two errors of [parseKey]: the path and the template are
    shown between double quotes (character 34). *)
Definition quoted (s : string) : string :=
  String (ascii_of_nat 34) s ++ String (ascii_of_nat 34) EmptyString.

Definition mismatch (path pathTemplate detail : string) : string :=
  "Path " ++ quoted path ++ " does not match template " ++ quoted pathTemplate
  ++ ": " ++ detail.

(** The body of the [for] loop of [parseKey], from position [i] on. *)
Fixpoint parseKey_loop (path pathTemplate : string) (i : nat)
         (templateParts pathParts : list string) (key : object) : Error + object :=
  match templateParts with
  | [] => inr key
  | template :: templateParts' =>
      let part := hd "" pathParts in
      if startsWith "{"%char template && endsWith "}"%char template then
        parseKey_loop path pathTemplate (S i) templateParts' (tl pathParts)
                      (set key (slice_1_m1 template) (VStr part))
      else if negb (String.eqb template part) then
        inl (FirestoreDocumentError
               (mismatch path pathTemplate
                         ("segment mismatch at position " ++ decimal i)))
      else
        parseKey_loop path pathTemplate (S i) templateParts' (tl pathParts) key
  end.

(** [parseKey(path, pathTemplate)]; the empty template is the falsy one. *)
Definition parseKey (path pathTemplate : string) : Error + Key :=
  let pathParts := path_parts path in
  if String.eqb pathTemplate "" then inr (KeySegments pathParts)
  else
    let templateParts := path_parts pathTemplate in
    if negb (Nat.eqb (List.length templateParts) (List.length pathParts)) then
      inl (FirestoreDocumentError
             (mismatch path pathTemplate "length mismatch"))
    else
      match parseKey_loop path pathTemplate 0 templateParts pathParts [] with
      | inl e => inl e
      | inr key => inr (KeyFields key)
      end.

(** ** [shared/async-queue.ts] *)

Module AsyncQueue.
Section Queue.

(** [T]: the items.  [P]: the promises that [dequeue] hands out while the
    queue is empty; a resolver is named by the promise it resolves. *)
Variables T P : Type.

Record t : Type := { queue : list T; resolvers : list P }.

(** [new AsyncQueue<T>()] *)
Definition new : t := {| queue := []; resolvers := [] |}.

(** What a call of [dequeue] returns: [Promise.resolve(item)], or a promise
    that some later [enqueue] resolves. *)
Inductive promise : Type :=
| Resolved (item : T)
| Pending (p : P).

(** [enqueue(item)]; the second component is the waiter resolved, if any,
    with the item it is resolved with. *)
Definition enqueue (item : T) (q : t) : t * option (P * T) :=
  match resolvers q with
  | resolve :: rest =>
      ({| queue := queue q; resolvers := rest |}, Some (resolve, item))
  | [] =>
      ({| queue := queue q ++ [item]; resolvers := resolvers q |}, None)
  end.

(** [dequeue()]; [p] names the promise created when nothing is buffered. *)
Definition dequeue (p : P) (q : t) : t * promise :=
  match queue q with
  | item :: rest =>
      ({| queue := rest; resolvers := resolvers q |}, Resolved item)
  | [] =>
      ({| queue := queue q; resolvers := resolvers q ++ [p] |}, Pending p)
  end.

(** [get length()] *)
Definition length (q : t) : nat := List.length (queue q).

(** [clear()] *)
Definition clear (q : t) : t := {| queue := []; resolvers := [] |}.

(** Sequential calls: [enqueue] of each item in turn, collecting the
    resolutions; [dequeue] once per promise name, collecting the results. *)
Fixpoint enqueue_all (items : list T) (q : t) : t * list (P * T) :=
  match items with
  | [] => (q, [])
  | item :: items' =>
      let (q1, r) := enqueue item q in
      let (q2, rs) := enqueue_all items' q1 in
      (q2, match r with Some x => x :: rs | None => rs end)
  end.

Fixpoint dequeue_all (ps : list P) (q : t) : t * list promise :=
  match ps with
  | [] => (q, [])
  | p :: ps' =>
      let (q1, r) := dequeue p q in
      let (q2, rs) := dequeue_all ps' q1 in
      (q2, r :: rs)
  end.

End Queue.
End AsyncQueue.

(** ** [admin/document.ts] *)

(** A [DocumentReference] is known by its path; its [id] is the last segment. *)
Record DocumentReference : Type := { path : string }.

Definition ref_id (r : DocumentReference) : string :=
  last (path_parts (path r)) "".

(** A [DocumentSnapshot]: [exists] and [data()] go together, [data()] is
    [undefined] exactly for a document that was not found. *)
Record DocumentSnapshot : Type := {
  snapshot_ref : DocumentReference;
  snapshot_data : option object
}.

Definition snapshot_exists (s : DocumentSnapshot) : bool :=
  match snapshot_data s with Some _ => true | None => false end.

(** The listener registered by [reference.onSnapshot]; it is named by the
    caller's callback (a number, when one was given). *)
Record Listener : Type := {
  listens_to : DocumentReference;
  callback : option nat
}.

(** The fields of a [FirestoreDocument] instance. *)
Record Document : Type := {
  reference : option DocumentReference;
  _key : option Key;
  _data : object;
  _exist : bool;
  _isLoaded : bool;
  _updated : object;            (* Map<string, FirestoreValue>, in insertion order *)
  _updatedAll : bool;
  _snapshotQueues : list (AsyncQueue.t unit nat);
  _unwatch : option Listener
}.

Definition with_reference (r : option DocumentReference) (d : Document) : Document :=
  {| reference := r; _key := _key d; _data := _data d; _exist := _exist d;
     _isLoaded := _isLoaded d; _updated := _updated d; _updatedAll := _updatedAll d;
     _snapshotQueues := _snapshotQueues d; _unwatch := _unwatch d |}.

Definition with_key (k : option Key) (d : Document) : Document :=
  {| reference := reference d; _key := k; _data := _data d; _exist := _exist d;
     _isLoaded := _isLoaded d; _updated := _updated d; _updatedAll := _updatedAll d;
     _snapshotQueues := _snapshotQueues d; _unwatch := _unwatch d |}.

Definition with_data (o : object) (d : Document) : Document :=
  {| reference := reference d; _key := _key d; _data := o; _exist := _exist d;
     _isLoaded := _isLoaded d; _updated := _updated d; _updatedAll := _updatedAll d;
     _snapshotQueues := _snapshotQueues d; _unwatch := _unwatch d |}.

Definition with_exist (b : bool) (d : Document) : Document :=
  {| reference := reference d; _key := _key d; _data := _data d; _exist := b;
     _isLoaded := _isLoaded d; _updated := _updated d; _updatedAll := _updatedAll d;
     _snapshotQueues := _snapshotQueues d; _unwatch := _unwatch d |}.

Definition with_isLoaded (b : bool) (d : Document) : Document :=
  {| reference := reference d; _key := _key d; _data := _data d; _exist := _exist d;
     _isLoaded := b; _updated := _updated d; _updatedAll := _updatedAll d;
     _snapshotQueues := _snapshotQueues d; _unwatch := _unwatch d |}.

Definition with_updated (u : object) (d : Document) : Document :=
  {| reference := reference d; _key := _key d; _data := _data d; _exist := _exist d;
     _isLoaded := _isLoaded d; _updated := u; _updatedAll := _updatedAll d;
     _snapshotQueues := _snapshotQueues d; _unwatch := _unwatch d |}.

Definition with_updatedAll (b : bool) (d : Document) : Document :=
  {| reference := reference d; _key := _key d; _data := _data d; _exist := _exist d;
     _isLoaded := _isLoaded d; _updated := _updated d; _updatedAll := b;
     _snapshotQueues := _snapshotQueues d; _unwatch := _unwatch d |}.

Definition with_snapshotQueues (qs : list (AsyncQueue.t unit nat)) (d : Document) : Document :=
  {| reference := reference d; _key := _key d; _data := _data d; _exist := _exist d;
     _isLoaded := _isLoaded d; _updated := _updated d; _updatedAll := _updatedAll d;
     _snapshotQueues := qs; _unwatch := _unwatch d |}.

Definition with_unwatch (l : option Listener) (d : Document) : Document :=
  {| reference := reference d; _key := _key d; _data := _data d; _exist := _exist d;
     _isLoaded := _isLoaded d; _updated := _updated d; _updatedAll := _updatedAll d;
     _snapshotQueues := _snapshotQueues d; _unwatch := l |}.

(** How a synchronous method ends: normally with a value, or by throwing; in
    both cases the object is left in some state. *)
Inductive completion (A : Type) : Type :=
| Normal (d : Document) (a : A)
| Abrupt (d : Document) (e : Error).

Arguments Abrupt {A} d e.

(** The calls a document makes on the store.  A write goes to the reference
    itself and is awaited, or is recorded in the transaction or batch given. *)
Inductive channel : Type := Direct | InTransaction | InBatch.

Inductive write : Type :=
| StoreSet (r : DocumentReference) (saveData : object)
| StoreUpdate (r : DocumentReference) (saveData : object)
| StoreDelete (r : DocumentReference).

(** An [async] method: it returns, rejects, or has reached a call of the
    store in the state [d]; the continuation takes the store's reply and the
    state of the object at that moment. *)
Inductive task (A : Type) : Type :=
| Return (d : Document) (a : A)
| Raise (d : Document) (e : Error)
| Read (d : Document) (via : channel) (r : DocumentReference)
       (k : Error + DocumentSnapshot -> Document -> task A)
| Write (d : Document) (via : channel) (w : write)
        (k : option Error -> Document -> task A).

Arguments Raise {A} d e.
Arguments Read {A} d via r k.
Arguments Write {A} d via w k.

(** The optional [transaction] argument of the methods. *)
Inductive transaction : Type := ATransaction | AWriteBatch.

Definition channel_of (tx : option transaction) : channel :=
  match tx with
  | Some ATransaction => InTransaction
  | Some AWriteBatch => InBatch
  | None => Direct
  end.

(** What a subclass may override, as far as the methods below look at it:
    the static [pathTemplate] and [defaultData], and the [beforeSave] hook. *)
Record DocumentClass : Type := {
  pathTemplate : string;
  defaultData : object;
  beforeSave : Document -> completion unit
}.

(** [FirestoreDocument] itself. *)
Definition FirestoreDocument : DocumentClass :=
  {| pathTemplate := "";
     defaultData := [];
     beforeSave := fun d => Normal d tt |}.

(** [get isDirty()] *)
Definition isDirty (d : Document) : bool :=
  (0 <? List.length (_updated d))%nat || _updatedAll d.

(** [serializeValue] and, in its plain-object case, the loop of
    [serializeObject]. *)
Fixpoint serializeValue (v : value) : value :=
  match v with
  | VArr items => VArr (map serializeValue items)
  | VDate ms => fromDate ms
  | VObj props =>
      VObj ((fix each (props : list (string * value)) (serialized : object) : object :=
               match props with
               | [] => serialized
               | (key, x) :: props' =>
                   let value := serializeValue x in
                   each props' (if is_undefined value then serialized
                                else set serialized key value)
               end) props [])
  | _ => v
  end.

Definition serializeObject (obj : object) : object :=
  fold_left (fun serialized kv =>
               let value := serializeValue (snd kv) in
               if is_undefined value then serialized
               else set serialized (fst kv) value) obj [].

(** [unserializeValue] and the loop of [unserializeObject]. *)
Fixpoint unserializeValue (v : value) : value :=
  match v with
  | VArr items => VArr (map unserializeValue items)
  | VTimestamp s n => toDate s n
  | VObj props =>
      VObj ((fix each (props : list (string * value)) (unserialized : object) : object :=
               match props with
               | [] => unserialized
               | (key, x) :: props' =>
                   each props' (set unserialized key (unserializeValue x))
               end) props [])
  | _ => v
  end.

Definition unserializeObject (obj : object) : object :=
  fold_left (fun unserialized kv =>
               set unserialized (fst kv) (unserializeValue (snd kv))) obj [].

(** [serialize(data, updatedValues?)] *)
Definition serialize (data : object) (updatedValues : option object) : object :=
  match updatedValues with
  | Some updated =>
      fold_left (fun serializedData key =>
                   let value := serializeValue (get data key) in
                   if is_undefined value then serializedData
                   else set serializedData key value) (keys updated) []
  | None =>
      let rest := remove data "_id" in
      serializeObject rest
  end.

(** [unserialize(data)] *)
Definition unserialize (data : object) : object := unserializeObject data.

(** [afterSave()] *)
Definition afterSave (d : Document) : Document :=
  with_exist true (with_updatedAll false (with_updated [] d)).

(** [setValue(key, value)] *)
Definition setValue (key : string) (value : value) (d : Document) : Document :=
  let d1 :=
    if negb (has (_updated d) key) then
      let oldValue := get (_data d) key in
      if negb (isDeleteField oldValue)
      then with_updated (set (_updated d) key oldValue) d
      else with_updated (set (_updated d) key VUndefined) d
    else d in
  if is_undefined value then
    if has (_data d1) key then
      if _exist d1 then with_data (set (_data d1) key VDelete) d1
      else with_data (remove (_data d1) key) d1
    else d1
  else with_data (set (_data d1) key value) d1.


Definition data_set (prop : string) (value : value) (d : Document) : Document :=
  setValue prop value d.

Definition data_deleteProperty (prop : string) (d : Document) : Document :=
  setValue prop VUndefined d.

(** [structuredClone(data)]: a copy, which for values without identity is the
    value. *)
Definition structuredClone (data : object) : object := data.

(** The two loops of [setData]: a delete sentinel among the incoming fields
    becomes [undefined]; every field of [_data] but [_id] is deleted. *)
Definition undefine_deletes (data : object) : object :=
  fold_left (fun data key =>
               if isDeleteField (Js.get data key) then Js.set data key VUndefined
               else data) (keys data) data.

Definition clear_except_id (o : object) : object :=
  fold_left (fun o key =>
               if negb (String.eqb key "_id") then Js.remove o key else o)
            (keys o) o.

(** [setData(data, updatedAll = true)], the argument being an object or a
    snapshot; the result is the new state and the boolean returned. *)
Definition setData (arg : object + DocumentSnapshot) (updatedAll : bool)
           (d : Document) : Document * bool :=
  let incoming :=
    match arg with
    | inr snapshot =>
        match snapshot_data snapshot with
        | None => None
        | Some snapshotData => Some (unserialize snapshotData)
        end
    | inl data => Some (structuredClone data)
    end in
  match incoming with
  | None => (d, false)
  | Some data =>
      if deepEqual (VObj data) (VObj (_data d)) then
        (with_updatedAll updatedAll (with_updated [] d), false)
      else
        let data := undefine_deletes data in
        let cleared := clear_except_id (_data d) in
        (with_updatedAll updatedAll
           (with_updated [] (with_data (assign cleared data) d)), true)
  end.

Definition missing_reference : Error :=
  FirestoreDocumentError "Document reference is not set".

(** What the store is asked to do with its listeners. *)
Inductive subscription : Type :=
| Subscribe (l : Listener)
| Unsubscribe (l : Listener).

Section Methods.

Variable cls : DocumentClass.

(** [setReference(ref)]: the reference is stored before the key is parsed. *)
Definition setReference (ref : DocumentReference) (d : Document) : completion unit :=
  let d1 := with_reference (Some ref) d in
  match parseKey (path ref) (pathTemplate cls) with
  | inl e => Abrupt d1 e
  | inr key => Normal (with_key (Some key) d1) tt
  end.

(** [setDataFromSnapshot(snapshot)] *)
Definition setDataFromSnapshot (snapshot : DocumentSnapshot) (d : Document)
  : completion unit :=
  let d1 := with_exist (snapshot_exists snapshot) d in
  match snapshot_data snapshot with
  | None => Normal (fst (setData (inl (defaultData cls)) true d1)) tt
  | Some data =>
      match setReference (snapshot_ref snapshot) d1 with
      | Abrupt d2 e => Abrupt d2 e
      | Normal d2 _ => Normal (fst (setData (inl (unserialize data)) false d2)) tt
      end
  end.

(** [get(transaction?, cache = false)] *)
Definition get (tx : option transaction) (cache : bool) (d : Document) : task unit :=
  if cache && _isLoaded d then Return d tt
  else
    match reference d with
    | None => Raise d missing_reference
    | Some r =>
        Read d (channel_of tx) r
             (fun reply d1 =>
                match reply with
                | inl e => Raise d1 e
                | inr snapshot =>
                    match setDataFromSnapshot snapshot d1 with
                    | Abrupt d2 e => Raise d2 e
                    | Normal d2 _ => Return (with_isLoaded true d2) tt
                    end
                end)
    end.

(** The store call of [set] and [update] reads [this.reference] again; a
    hook that had cleared it would make that call a [TypeError]. *)
Definition issue (op : DocumentReference -> object -> write)
           (tx : option transaction) (saveData : object) (d : Document) : task unit :=
  match reference d with
  | None => Raise d (Thrown "TypeError")
  | Some r =>
      Write d (channel_of tx) (op r saveData)
            (fun reply d1 =>
               match reply with
               | Some e => Raise d1 e
               | None => Return (afterSave d1) tt
               end)
  end.

(** [set(data?, transaction?)] *)
Definition set (data : option object) (tx : option transaction) (d : Document)
  : task unit :=
  match reference d with
  | None => Raise d missing_reference
  | Some _ =>
      let d1 :=
        match data with
        | Some data => fst (setData (inl data) true d)
        | None => d
        end in
      match beforeSave cls d1 with
      | Abrupt d2 e => Raise d2 e
      | Normal d2 _ =>
          let saveData := serialize (_data d2) None in
          issue StoreSet tx saveData d2
      end
  end.

(** [update(transaction?)] *)
Definition update (tx : option transaction) (d : Document) : task unit :=
  match reference d with
  | None => Return d tt
  | Some _ =>
      if Nat.eqb (List.length (_updated d)) 0 then Return d tt
      else
        match beforeSave cls d with
        | Abrupt d2 e => Raise d2 e
        | Normal d2 _ =>
            let saveData := serialize (_data d2) (Some (_updated d2)) in
            issue StoreUpdate tx saveData d2
        end
  end.

(** [save(force = false, transaction?)] *)
Definition save (force : bool) (tx : option transaction) (d : Document) : task unit :=
  match reference d with
  | None => Raise d missing_reference
  | Some _ =>
      if _exist d && negb force && negb (_updatedAll d)
      then update tx d
      else set None tx d
  end.

(** [delete(transaction?)] *)
Definition delete (tx : option transaction) (d : Document) : task unit :=
  match reference d with
  | None => Raise d missing_reference
  | Some r =>
      if negb (_exist d) then Return d tt
      else
        let d1 := with_exist false d in
        Write d1 (channel_of tx) (StoreDelete r)
              (fun reply d2 =>
                 match reply with
                 | Some e => Raise d2 e
                 | None => Return d2 tt
                 end)
  end.

(** [unwatch()]; with the state, the calls made on the store. *)
Definition unwatch (d : Document) : Document * list subscription :=
  let (d1, log) :=
    match _unwatch d with
    | Some l => (with_unwatch None d, [Unsubscribe l])
    | None => (d, [])
    end in
  (with_snapshotQueues [] d1, log).

(** [watch(callback?)]; the value is the list of calls made on the store. *)
Definition watch (cb : option nat) (d : Document) : completion (list subscription) :=
  match reference d with
  | None => Abrupt d missing_reference
  | Some r =>
      let (d1, log) := unwatch d in
      let l := {| listens_to := r; callback := cb |} in
      Normal (with_unwatch (Some l) d1) (log ++ [Subscribe l])%list
  end.

End Methods.

(** ** Running a task against a store *)

(** The store, as far as a document sees it: what it answers to a read and
    to a write. *)
Record Store : Type := {
  on_read : channel -> DocumentReference -> Error + DocumentSnapshot;
  on_write : channel -> write -> option Error
}.

Inductive call : Type :=
| DidRead (via : channel) (r : DocumentReference)
| DidWrite (via : channel) (w : write).

(** The outcome of an [async] method that nobody interleaves with. *)
Record outcome (A : Type) : Type := {
  final : Document;
  result : Error + A;
  calls : list call
}.

Fixpoint run (A : Type) (store : Store) (t : task A) : outcome A :=
  match t with
  | Return d a => {| final := d; result := inr a; calls := [] |}
  | Raise d e => {| final := d; result := inl e; calls := [] |}
  | Read d via r k =>
      let o := run store (k (on_read store via r) d) in
      {| final := final o; result := result o; calls := DidRead via r :: calls o |}
  | Write d via w k =>
      let o := run store (k (on_write store via w) d) in
      {| final := final o; result := result o; calls := DidWrite via w :: calls o |}
  end.

(** ** [watch] and [unwatch] of [FirestoreCollection]
    ([web/collection.ts]; the Admin variant reads the same) *)

Module Collection.

(** The fields that [watch] and [unwatch] look at.  A query is known by a
    name; the listener by the caller's callback. *)
Record t : Type := {
  query : option string;
  _unwatch : option nat;
  _snapshotQueues : list (AsyncQueue.t unit nat)
}.

Inductive subscription : Type :=
| Subscribe (query : string) (callback : nat)
| Unsubscribe (callback : nat).

Inductive completion : Type :=
| Normal (c : t) (log : list subscription)
| Abrupt (c : t) (e : Error).

(** [watch(callback)] *)
Definition watch (callback : nat) (c : t) : completion :=
  match query c with
  | None => Normal c []
  | Some q =>
      match _unwatch c with
      | Some _ => Abrupt c (FirestoreDocumentError "watch is already called")
      | None =>
          Normal {| query := query c; _unwatch := Some callback;
                    _snapshotQueues := _snapshotQueues c |}
                 [Subscribe q callback]
      end
  end.

(** [unwatch()] *)
Definition unwatch (c : t) : t * list subscription :=
  match _unwatch c with
  | Some l =>
      ({| query := query c; _unwatch := None; _snapshotQueues := [] |},
       [Unsubscribe l])
  | None =>
      ({| query := query c; _unwatch := None; _snapshotQueues := [] |}, [])
  end.

End Collection.

(** ** The vocabulary of the statements *)

(** The value the ledger keeps for a field first written when [old] was stored. *)
Definition prior (old : value) : value :=
  if isDeleteField old then VUndefined else old.

(** A sequence of writes through the data accessor, in order. *)
Definition write_all (ws : list (string * value)) (d : Document) : Document :=
  fold_left (fun d w => data_set (fst w) (snd w) d) ws d.

(** One turn of the loop of [serialize(data, updatedValues)]. *)
Definition pick (data serializedData : object) (key : string) : object :=
  let value := serializeValue (Js.get data key) in
  if is_undefined value then serializedData else Js.set serializedData key value.

(** A class that keeps the [beforeSave] of [FirestoreDocument]. *)
Definition keeps_beforeSave (cls : DocumentClass) : Prop :=
  forall d, beforeSave cls d = Normal d tt.

(** The last value written to [k] in a sequence of writes, if any. *)
Definition last_written (ws : list (string * value)) (k : string) : option value :=
  fold_left (fun acc w => if String.eqb (fst w) k then Some (snd w) else acc) ws None.

(** A payload that holds exactly the fields written, one entry for each, with
    the serialization of the last value written to it. *)
Definition carries (saveData : object) (ws : list (string * value)) : Prop :=
  NoDup (keys saveData)
  /\ (forall k, In k (keys saveData) <-> In k (map fst ws))
  /\ List.length (keys saveData) = List.length (nodup string_dec (map fst ws))
  /\ (forall k v, last_written ws k = Some v ->
                  Js.get saveData k = serializeValue v).

(** The keys of an object are unique, as they are in JavaScript. *)
Fixpoint distinct (ks : list string) : bool :=
  match ks with
  | [] => true
  | k :: ks' => negb (existsb (String.eqb k) ks') && distinct ks'
  end.

(** [well_formed v]: that holds of [v], at every depth. *)
Fixpoint well_formed (v : value) : bool :=
  match v with
  | VArr items => forallb well_formed items
  | VObj props => distinct (keys props) && forallb (fun kv => well_formed (snd kv)) props
  | _ => true
  end.

(** The [every] of the array case of [deepEqual]. *)
Fixpoint every_pair (xs ys : list value) : bool :=
  match xs with
  | [] => true
  | x :: xs' => deepEqual x (hd VUndefined ys) && every_pair xs' (tl ys)
  end.

(** Induction on values that reaches the items of an array and the fields
    of an object. *)
Section ValueInduction.

Variable Q : value -> Prop.
Hypothesis Q_undefined : Q VUndefined.
Hypothesis Q_null : Q VNull.
Hypothesis Q_bool : forall b, Q (VBool b).
Hypothesis Q_num : forall n, Q (VNum n).
Hypothesis Q_str : forall s, Q (VStr s).
Hypothesis Q_date : forall ms, Q (VDate ms).
Hypothesis Q_timestamp : forall s n, Q (VTimestamp s n).
Hypothesis Q_delete : Q VDelete.
Hypothesis Q_arr : forall items, Forall Q items -> Q (VArr items).
Hypothesis Q_obj : forall props, Forall (fun kv => Q (snd kv)) props -> Q (VObj props).

Fixpoint value_nested_ind (v : value) : Q v :=
  match v with
  | VUndefined => Q_undefined
  | VNull => Q_null
  | VBool b => Q_bool b
  | VNum n => Q_num n
  | VStr s => Q_str s
  | VDate ms => Q_date ms
  | VTimestamp s n => Q_timestamp s n
  | VDelete => Q_delete
  | VArr items =>
      Q_arr ((fix all (l : list value) : Forall Q l :=
                match l with
                | [] => Forall_nil Q
                | x :: l' => Forall_cons x (value_nested_ind x) (all l')
                end) items)
  | VObj props =>
      Q_obj ((fix all (l : list (string * value)) : Forall (fun kv => Q (snd kv)) l :=
                match l with
                | [] => Forall_nil _
                | kv :: l' =>
                    @Forall_cons _ (fun kv => Q (snd kv)) kv l'
                                 (value_nested_ind (snd kv)) (all l')
                end) props)
  end.

End ValueInduction.

(** What [get] hands to [setData]: the deserialized remote fields, or the
    class's default data when the document was not found. *)
Definition incoming (cls : DocumentClass) (snapshot : DocumentSnapshot) : object :=
  match snapshot_data snapshot with
  | Some remote => unserialize remote
  | None => defaultData cls
  end.

(** ** Documents used as examples *)

Definition users_u1 : DocumentReference := {| path := "users/u1" |}.

(** A document bound to [users/u1], believed to exist, with nothing pending. *)
Definition existing (data : object) : Document :=
  {| reference := Some users_u1;
     _key := Some (KeySegments ["users"; "u1"]);
     _data := data;
     _exist := true;
     _isLoaded := true;
     _updated := [];
     _updatedAll := false;
     _snapshotQueues := [];
     _unwatch := None |}.

(** A document made with neither key nor reference: [new FirestoreDocument()]. *)
Definition unbound : Document :=
  {| reference := None;
     _key := None;
     _data := [];
     _exist := false;
     _isLoaded := false;
     _updated := [];
     _updatedAll := true;
     _snapshotQueues := [];
     _unwatch := None |}.

(** A store that accepts every write and finds no document. *)
Definition quiet_store : Store :=
  {| on_read := fun _ r => inr {| snapshot_ref := r; snapshot_data := None |};
     on_write := fun _ _ => None |}.

(** A store that accepts every write and finds the fields [remote]. *)
Definition found_store (remote : object) : Store :=
  {| on_read := fun _ r => inr {| snapshot_ref := r; snapshot_data := Some remote |};
     on_write := fun _ _ => None |}.

(** A store whose every call fails. *)
Definition failing_store (e : Error) : Store :=
  {| on_read := fun _ _ => inl e;
     on_write := fun _ _ => Some e |}.

(** A subclass whose [beforeSave] only validates, and refuses. *)
Definition Strict : DocumentClass :=
  {| pathTemplate := "";
     defaultData := [];
     beforeSave := fun d => Abrupt d (Thrown "Name is required") |}.

(** A document bound to [users/u1] that was never saved. *)
Definition brand_new (data : object) : Document :=
  with_updatedAll true (with_isLoaded false (with_exist false (existing data))).

(** A document that is being watched through callback 1. *)
Definition watched : Document :=
  with_unwatch (Some {| listens_to := users_u1; callback := Some 1%nat |})
               (existing [("name", VStr "A")]).

(** A collection on the query [users], being watched through callback 1. *)
Definition watched_users : Collection.t :=
  {| Collection.query := Some "users"; Collection._unwatch := Some 1%nat;
     Collection._snapshotQueues := [] |}.

(** A document with one tracked change to [name]. *)
Definition renamed : Document :=
  data_set "name" (VStr "B") (existing [("name", VStr "A")]).

(** ** More of the code

    The rest of the queue's use, of [shared/utils.ts] and of the document
    class, and the collection of the Admin variant. *)

(** *** Sequences of queue operations *)

Module QueueRun.
Section Ops.

Variables T P : Type.

(** A call on the queue: [enqueue(item)], [dequeue()] (the promise it
    returns being named [p]), or [clear()]. *)
Inductive op : Type :=
| Enqueue (item : T)
| Dequeue (p : P)
| Clear.

(** One call; with the new state, the promise that the call resolved (for
    [dequeue] on a backlog: the promise it returns, already resolved). *)
Definition step (o : op) (q : AsyncQueue.t T P) : AsyncQueue.t T P * list (P * T) :=
  match o with
  | Enqueue item =>
      let (q', r) := AsyncQueue.enqueue item q in
      (q', match r with Some delivery => [delivery] | None => [] end)
  | Dequeue p =>
      let (q', r) := AsyncQueue.dequeue p q in
      (q', match r with
           | AsyncQueue.Resolved _ item => [(p, item)]
           | AsyncQueue.Pending _ _ => []
           end)
  | Clear => (AsyncQueue.clear q, [])
  end.

(** The calls in order; the resolutions in the order they happen. *)
Fixpoint run_ops (ops : list op) (q : AsyncQueue.t T P)
  : AsyncQueue.t T P * list (P * T) :=
  match ops with
  | [] => (q, [])
  | o :: ops' =>
      let (q1, now) := step o q in
      let (q2, later) := run_ops ops' q1 in
      (q2, (now ++ later)%list)
  end.

(** The items enqueued and the promises handed out, in call order. *)
Definition items_of (ops : list op) : list T :=
  flat_map (fun o => match o with Enqueue item => [item] | _ => [] end) ops.

Definition promises_of (ops : list op) : list P :=
  flat_map (fun o => match o with Dequeue p => [p] | _ => [] end) ops.

Definition is_clear (o : op) : bool :=
  match o with Clear => true | _ => false end.

End Ops.
End QueueRun.

(** *** [shared/utils.ts]: building a path *)

(** [\w] of a JavaScript regular expression: a letter, a digit or [_]. *)
Definition is_word (c : ascii) : bool :=
  let n := nat_of_ascii c in
  ((48 <=? n) && (n <=? 57) || (65 <=? n) && (n <=? 90)
   || (97 <=? n) && (n <=? 122) || (n =? 95))%nat.

(** [template.replace(/\{(\w+)\}/g, (_, keyName) => subst keyName)], read
    from left to right.  [pending] is [Some name] after an opening brace
    followed by the word characters [name]: the brace matches if a closing
    brace comes next and [name] is not empty; if it does not, the text read
    is copied and the search goes on from the character that broke the
    match. *)
Fixpoint replace_placeholders (subst : string -> string) (pending : option string)
         (s : string) : string :=
  match s with
  | EmptyString =>
      match pending with
      | Some name => String "{"%char name
      | None => EmptyString
      end
  | String c rest =>
      match pending with
      | None =>
          if Ascii.eqb c "{"%char then replace_placeholders subst (Some EmptyString) rest
          else String c (replace_placeholders subst None rest)
      | Some name =>
          if is_word c then
            replace_placeholders subst (Some (name ++ String c EmptyString)) rest
          else if Ascii.eqb c "}"%char && negb (String.eqb name "") then
            subst name ++ replace_placeholders subst None rest
          else
            String "{"%char name
            ++ (if Ascii.eqb c "{"%char
                then replace_placeholders subst (Some EmptyString) rest
                else String c (replace_placeholders subst None rest))
      end
  end.

(** [String(value)] for the values a key may hold: strings and integers. *)
Definition string_of_Z (z : Z) : string :=
  if z <? 0 then String "-"%char (decimal (Z.to_nat (- z)))
  else decimal (Z.to_nat z).

Definition String_ (v : value) : string :=
  match v with
  | VStr s => s
  | VNum n => string_of_Z n
  | VBool true => "true"
  | VBool false => "false"
  | VNull => "null"
  | _ => ""
  end.

(** [segments.join('/')] *)
Fixpoint join (segments : list string) : string :=
  match segments with
  | [] => ""
  | [s] => s
  | s :: rest => s ++ "/" ++ join rest
  end.

(** [buildPath(key, pathTemplate)] *)
Definition buildPath (key : Key) (pathTemplate : string) : option string :=
  match key with
  | KeySegments segments => Some (join segments)
  | KeyFields fields =>
      if String.eqb pathTemplate "" then None
      else
        Some (replace_placeholders
                (fun keyName =>
                   let value := Js.get fields keyName in
                   if is_undefined value then "" else String_ value)
                None pathTemplate)
  end.

(** *** [batch.ts]: chunks *)

(** [array.slice(from, to)] for [from <= to] *)
Definition slice (A : Type) (from to : nat) (array : list A) : list A :=
  firstn (to - from) (skipn from array).

(** [chunk(array, size)], for a [size] that is not zero:
    [Math.ceil(array.length / size)] slices. *)
Definition chunk (A : Type) (array : list A) (size : nat) : list (list A) :=
  map (fun i => slice (i * size) ((i + 1) * size) array)
      (seq 0 (Nat.div (List.length array + size - 1) size)).

(** *** [admin/document.ts]: the rest of the class *)

(** [get id()] *)
Definition id (d : Document) : string :=
  match reference d with
  | Some r => ref_id r
  | None => ""
  end.

(** [get isNew()] *)
Definition isNew (d : Document) : bool := negb (_exist d).


(** [firestore().doc(path)]: the reference of that path (the SDK's own
    checks of the path are not part of the model). *)
Definition doc (p : string) : DocumentReference := {| path := p |}.

(** The object before the constructor body runs: the field initializers. *)
Definition blank : Document :=
  {| reference := None;
     _key := None;
     _data := [];
     _exist := false;
     _isLoaded := false;
     _updated := [];
     _updatedAll := false;
     _snapshotQueues := [];
     _unwatch := None |}.

Section Construction.

Variable cls : DocumentClass.

(** The static [defaultKey] of the class. *)
Variable defaultKey : option Key.

(** [setKey(keyOrPath)] *)
Definition setKey (keyOrPath : string + Key) (d : Document) : completion unit :=
  let parsed :=
    match keyOrPath with
    | inl p => parseKey p (pathTemplate cls)
    | inr key => inr key
    end in
  match parsed with
  | inl e => Abrupt d e
  | inr key =>
      let d1 := with_key (Some key) d in
      match buildPath key (pathTemplate cls) with
      | Some p => Normal (with_reference (Some (doc p)) d1) tt
      | None => Normal d1 tt
      end
  end.

(** [new cls(keyOrRef?, data = null, exist = false)] *)
Definition construct (keyOrRef : option (DocumentReference + (string + Key)))
           (data : option (object + DocumentSnapshot)) (exist : bool)
  : completion unit :=
  let data :=
    match data with
    | None => inl (defaultData cls)
    | Some data => data
    end in
  let keyed :=
    match keyOrRef with
    | Some (inl ref) => setReference cls ref blank
    | Some (inr keyOrPath) => setKey keyOrPath blank
    | None =>
        match defaultKey with
        | Some key => setKey (inr key) blank
        | None => Normal blank tt
        end
    end in
  match keyed with
  | Abrupt d e => Abrupt d e
  | Normal d _ =>
      let d1 := with_exist exist d in
      Normal (fst (setData data (negb exist) d1)) tt
  end.

(** The listener that [watch] registers, called with a pushed snapshot: the
    value is the caller's callback when it is called. *)
Definition on_snapshot (l : Listener) (snapshot : DocumentSnapshot) (d : Document)
  : completion (option nat) :=
  match setDataFromSnapshot cls snapshot d with
  | Abrupt d1 e => Abrupt d1 e
  | Normal d1 _ => Normal d1 (if _exist d1 then callback l else None)
  end.

End Construction.

(** *** Values that the store gives back as they were *)

(** [storable v]: no [Timestamp] anywhere in [v] (it comes back as a
    [Date]), and in every object of [v] the keys are unique and no field is
    [undefined] (such a field is not sent). *)
Fixpoint storable (v : value) : bool :=
  match v with
  | VTimestamp _ _ => false
  | VArr items => forallb storable items
  | VObj props =>
      distinct (keys props)
      && forallb (fun kv => negb (is_undefined (snd kv)) && storable (snd kv)) props
  | _ => true
  end.

(** What [setData] stores for an incoming value: [undefined] in place of the
    delete sentinel. *)
Definition stored (v : value) : value :=
  if isDeleteField v then VUndefined else v.

(** The object once the key or the reference is set: nothing else differs
    from the field initializers. *)
Definition keyed (d : Document) : Prop :=
  _data d = [] /\ _exist d = false /\ _isLoaded d = false /\ _updated d = []
  /\ _updatedAll d = false /\ _snapshotQueues d = [] /\ _unwatch d = None.


(** *** Vocabulary for paths *)

(** [s] has no [/]. *)
Fixpoint slash_free (s : string) : bool :=
  match s with
  | EmptyString => true
  | String c rest => negb (Ascii.eqb c "/"%char) && slash_free rest
  end.

(** A segment of a template is a placeholder when it starts with an opening
    brace and ends with a closing one; it fits a segment of a path when it
    is a placeholder or the same text. *)
Definition is_placeholder (template : string) : bool :=
  startsWith "{"%char template && endsWith "}"%char template.

Definition fits (template part : string) : bool :=
  is_placeholder template || String.eqb template part.

(** Whether two lists have the same length and [f] holds pairwise. *)
Fixpoint forallb2 (A B : Type) (f : A -> B -> bool) (xs : list A) (ys : list B) : bool :=
  match xs, ys with
  | [], [] => true
  | x :: xs', y :: ys' => f x y && forallb2 f xs' ys'
  | _, _ => false
  end.

(** A template, segment by segment: a literal text or a placeholder
    [{name}]. *)
Inductive segment : Type :=
| Lit (text : string)
| Hole (name : string).

(** The segment as it is written in the template, and as it is in the path
    of a key with the fields [fields]. *)
Definition render (t : segment) : string :=
  match t with
  | Lit text => text
  | Hole name => String "{"%char (name ++ "}")
  end.

Definition fill (fields : object) (t : segment) : string :=
  match t with
  | Lit text => text
  | Hole name =>
      let value := Js.get fields name in
      if is_undefined value then "" else String_ value
  end.

Fixpoint all_chars (f : ascii -> bool) (s : string) : bool :=
  match s with
  | EmptyString => true
  | String c rest => f c && all_chars f rest
  end.

(** A literal is a non-empty text without [/] and without opening brace; the
    name of a placeholder is a non-empty word. *)
Definition well_formed_segment (t : segment) : bool :=
  match t with
  | Lit text =>
      negb (String.eqb text "") && slash_free text
      && all_chars (fun c => negb (Ascii.eqb c "{"%char)) text
  | Hole name => negb (String.eqb name "") && all_chars is_word name
  end.

(** A key field that can stand in a path: a non-empty string without [/]. *)
Definition path_value (v : value) : bool :=
  match v with
  | VStr s => negb (String.eqb s "") && slash_free s
  | _ => false
  end.

(** The names of the placeholders of a template, in order. *)
Definition holes (ts : list segment) : list string :=
  flat_map (fun t => match t with Hole name => [name] | Lit _ => [] end) ts.

(** The key read back from the path of [fields]: one field per placeholder. *)
Definition read_back (fields : object) (ts : list segment) : object :=
  fold_left (fun key name => Js.set key name (Js.get fields name)) (holes ts) [].

(** *** [admin/query.ts] *)

(** A query: the collection it reads and the operations applied to it, in
    order of application. *)
Inductive query_op : Type :=
| Where (fieldPath opStr : string) (v : value)
| OrderBy (fieldPath : string) (directionStr : option string)
| Limit (n : Z)
| LimitToLast (n : Z)
| StartAfter (s : DocumentSnapshot)
| StartAt (s : DocumentSnapshot)
| EndBefore (s : DocumentSnapshot)
| EndAt (s : DocumentSnapshot).

Record Query : Type := { source : string; applied : list query_op }.

Record Condition : Type := {
  where_ : option (list (string * string * value));   (* where *)
  limit : option Z;
  limitToLast : option Z;
  orderBy : option (string * option string);
  startAfter : option DocumentSnapshot;
  startAt : option DocumentSnapshot;
  endBefore : option DocumentSnapshot;
  endAt : option DocumentSnapshot
}.

Definition apply_op (o : query_op) (q : Query) : Query :=
  {| source := source q; applied := (applied q ++ [o])%list |}.

Definition apply_if (A : Type) (field : option A) (o : A -> query_op) (q : Query) : Query :=
  match field with
  | Some x => apply_op (o x) q
  | None => q
  end.

(** [buildQuery(ref, condition)] *)
Definition buildQuery (ref : option Query) (condition : option Condition) : option Query :=
  match ref with
  | None => None
  | Some ref =>
      match condition with
      | None => Some ref
      | Some condition =>
          let result := ref in
          let result :=
            match where_ condition with
            | Some ws =>
                fold_left (fun result w =>
                             apply_op (Where (fst (fst w)) (snd (fst w)) (snd w)) result)
                          ws result
            | None => result
            end in
          let result :=
            apply_if (orderBy condition) (fun o => OrderBy (fst o) (snd o)) result in
          let result := apply_if (limit condition) Limit result in
          let result := apply_if (limitToLast condition) LimitToLast result in
          let result := apply_if (startAfter condition) StartAfter result in
          let result := apply_if (startAt condition) StartAt result in
          let result := apply_if (endBefore condition) EndBefore result in
          let result := apply_if (endAt condition) EndAt result in
          Some result
      end
  end.

(** *** A [Map<string, V>], in insertion order *)

Module JsMap.
Section Map.

Variable V : Type.

Definition t : Type := list (string * V).

Fixpoint get (m : t) (key : string) : option V :=
  match m with
  | [] => None
  | (k, v) :: rest => if String.eqb k key then Some v else get rest key
  end.

(** [m.set(key, v)]: an existing key keeps its place. *)
Fixpoint set (m : t) (key : string) (v : V) : t :=
  match m with
  | [] => [(key, v)]
  | (k, w) :: rest =>
      if String.eqb k key then (k, v) :: rest else (k, w) :: set rest key v
  end.

(** [m.delete(key)] *)
Fixpoint delete (m : t) (key : string) : t :=
  match m with
  | [] => []
  | (k, w) :: rest =>
      if String.eqb k key then delete rest key else (k, w) :: delete rest key
  end.

(** [m.keys()] and [m.values()] *)
Definition keys (m : t) : list string := map fst m.
Definition values (m : t) : list V := map snd m.

End Map.
End JsMap.

(** *** The collection of [admin/firestore.ts] *)

Module FirestoreCollection.

(** The fields of a [FirestoreCollection] instance; a collection reference
    is known by its path. *)
Record t : Type := {
  reference : option string;
  query : option Query;
  _key : option Key;
  _condition : option Condition;
  _documents : JsMap.t Document;
  isLoaded : bool;
  _unwatch : option nat;
  _snapshotQueues : list (AsyncQueue.t (list Document) nat);
  _cachedDocuments : option (list Document)
}.

(** The instance before the constructor body runs. *)
Definition fresh : t :=
  {| reference := None; query := None; _key := None; _condition := None;
     _documents := []; isLoaded := false; _unwatch := None;
     _snapshotQueues := []; _cachedDocuments := None |}.

Definition with_reference (r : option string) (c : t) : t :=
  {| reference := r; query := query c; _key := _key c; _condition := _condition c;
     _documents := _documents c; isLoaded := isLoaded c; _unwatch := _unwatch c;
     _snapshotQueues := _snapshotQueues c; _cachedDocuments := _cachedDocuments c |}.

Definition with_query (q : option Query) (c : t) : t :=
  {| reference := reference c; query := q; _key := _key c; _condition := _condition c;
     _documents := _documents c; isLoaded := isLoaded c; _unwatch := _unwatch c;
     _snapshotQueues := _snapshotQueues c; _cachedDocuments := _cachedDocuments c |}.

Definition with_key (k : option Key) (c : t) : t :=
  {| reference := reference c; query := query c; _key := k; _condition := _condition c;
     _documents := _documents c; isLoaded := isLoaded c; _unwatch := _unwatch c;
     _snapshotQueues := _snapshotQueues c; _cachedDocuments := _cachedDocuments c |}.

Definition with_condition (cond : option Condition) (c : t) : t :=
  {| reference := reference c; query := query c; _key := _key c; _condition := cond;
     _documents := _documents c; isLoaded := isLoaded c; _unwatch := _unwatch c;
     _snapshotQueues := _snapshotQueues c; _cachedDocuments := _cachedDocuments c |}.

Definition with_documents (m : JsMap.t Document) (c : t) : t :=
  {| reference := reference c; query := query c; _key := _key c;
     _condition := _condition c; _documents := m; isLoaded := isLoaded c;
     _unwatch := _unwatch c; _snapshotQueues := _snapshotQueues c;
     _cachedDocuments := _cachedDocuments c |}.

Definition with_isLoaded (b : bool) (c : t) : t :=
  {| reference := reference c; query := query c; _key := _key c;
     _condition := _condition c; _documents := _documents c; isLoaded := b;
     _unwatch := _unwatch c; _snapshotQueues := _snapshotQueues c;
     _cachedDocuments := _cachedDocuments c |}.

Definition with_unwatch (l : option nat) (c : t) : t :=
  {| reference := reference c; query := query c; _key := _key c;
     _condition := _condition c; _documents := _documents c; isLoaded := isLoaded c;
     _unwatch := l; _snapshotQueues := _snapshotQueues c;
     _cachedDocuments := _cachedDocuments c |}.

Definition with_snapshotQueues (qs : list (AsyncQueue.t (list Document) nat)) (c : t) : t :=
  {| reference := reference c; query := query c; _key := _key c;
     _condition := _condition c; _documents := _documents c; isLoaded := isLoaded c;
     _unwatch := _unwatch c; _snapshotQueues := qs;
     _cachedDocuments := _cachedDocuments c |}.

(** How a method ends: the state it leaves, and the error if it throws. *)
Definition ending : Type := (t * option Error)%type.

(** A [DocumentChange] *)
Inductive change_type : Type := added | modified | removed.

Record DocumentChange : Type := { type : change_type; change_doc : DocumentSnapshot }.

(** [doc.id] of a query document snapshot *)
Definition snapshot_id (s : DocumentSnapshot) : string := ref_id (snapshot_ref s).

Section Methods.

(** The static [pathTemplate] of the collection class, its document class
    ([_ctor]) and that class's static [defaultKey]. *)
Variable pathTemplate : string.
Variable _ctor : DocumentClass.
Variable defaultKey : option Key.

(** [unwatch()] *)
Definition unwatch (c : t) : t :=
  let c1 :=
    match _unwatch c with
    | Some _ => with_unwatch None c
    | None => c
    end in
  with_snapshotQueues [] c1.

(** [initializeQuery()] *)
Definition initializeQuery (c : t) : t :=
  let c1 :=
    match reference c with
    | Some r =>
        let ref := {| source := r; applied := [] |} in
        match _condition c with
        | Some condition => with_query (buildQuery (Some ref) (Some condition)) c
        | None => with_query (Some ref) c
        end
    | None => with_query None c
    end in
  unwatch c1.

(** [set condition(condition)] *)
Definition set_condition (condition : option Condition) (c : t) : t :=
  initializeQuery (with_condition condition c).

(** [setKey(keyOrPath)] *)
Definition setKey (keyOrPath : string + Key) (c : t) : ending :=
  let parsed :=
    match keyOrPath with
    | inl p => parseKey p pathTemplate
    | inr key => inr key
    end in
  match parsed with
  | inl e => (c, Some e)
  | inr key =>
      let c1 := with_key (Some key) c in
      let c2 :=
        match buildPath key pathTemplate with
        | Some pathSegments =>
            let c2 := with_reference (Some pathSegments) c1 in
            set_condition (_condition c2) c2
        | None => with_query None (with_reference None c1)
        end in
      (unwatch c2, None)
  end.

(** [set key(key)] *)
Definition set_key (key : option Key) (c : t) : ending :=
  match key with
  | Some key => setKey (inr key) c
  | None => (unwatch (with_query None (with_reference None (with_key None c))), None)
  end.

(** [setReference(ref)] *)
Definition setReference (ref : string) (c : t) : ending :=
  let c1 := with_reference (Some ref) c in
  match parseKey ref pathTemplate with
  | inl e => (c1, Some e)
  | inr key =>
      let c2 := with_key (Some key) c1 in
      (set_condition (_condition c2) c2, None)
  end.

(** [initialize(reference?, query?)] *)
Definition initialize (ref : option string) (q : option Query) (c : t) : t :=
  let c1 := with_reference ref c in
  match q with
  | Some q => unwatch (with_query (Some q) c1)
  | None => initializeQuery c1
  end.

(** [watch(callback)] *)
Definition watch (callback : nat) (c : t) : ending :=
  match query c with
  | None => (c, None)
  | Some _ =>
      match _unwatch c with
      | Some _ => (c, Some (FirestoreDocumentError "watch is already called"))
      | None => (with_unwatch (Some callback) c, None)
      end
  end.

(** [this._documents.get(doc.id) ?? new this._ctor(doc.ref, doc, true)],
    then [this._documents.set(doc.id, document)]. *)
Definition keep_or_construct (doc : DocumentSnapshot) (c : t) : ending :=
  match JsMap.get (_documents c) (snapshot_id doc) with
  | Some document =>
      (with_documents (JsMap.set (_documents c) (snapshot_id doc) document) c, None)
  | None =>
      match construct _ctor defaultKey (Some (inl (snapshot_ref doc)))
                      (Some (inr doc)) true with
      | Normal document _ =>
          (with_documents (JsMap.set (_documents c) (snapshot_id doc) document) c, None)
      | Abrupt _ e => (c, Some e)
      end
  end.

(** The loop of [applyDocs]. *)
Fixpoint applyDocs_loop (docs : list DocumentSnapshot) (c : t) : ending :=
  match docs with
  | [] => (c, None)
  | doc :: docs' =>
      match keep_or_construct doc c with
      | (c1, None) => applyDocs_loop docs' c1
      | (c1, Some e) => (c1, Some e)
      end
  end.

(** [applyDocs(docs)] *)
Definition applyDocs (docs : list DocumentSnapshot) (c : t) : ending :=
  match applyDocs_loop docs c with
  | (c1, None) => (with_isLoaded true c1, None)
  | (c1, Some e) => (c1, Some e)
  end.

(** The loop of [applyDocChanges]. *)
Fixpoint applyDocChanges_loop (docChanges : list DocumentChange) (c : t) : ending :=
  match docChanges with
  | [] => (c, None)
  | docChange :: rest =>
      let doc := change_doc docChange in
      let step :=
        match type docChange with
        | added | modified => keep_or_construct doc c
        | removed =>
            (with_documents (JsMap.delete (_documents c) (snapshot_id doc)) c, None)
        end in
      match step with
      | (c1, None) => applyDocChanges_loop rest c1
      | (c1, Some e) => (c1, Some e)
      end
  end.

(** [applyDocChanges(docChanges)] *)
Definition applyDocChanges (docChanges : list DocumentChange) (c : t) : ending :=
  match applyDocChanges_loop docChanges c with
  | (c1, None) => (with_isLoaded true c1, None)
  | (c1, Some e) => (c1, Some e)
  end.

(** [toArray()], [first()] and [find(id)] *)
Definition toArray (c : t) : list Document := JsMap.values (_documents c).

Definition first (c : t) : option Document :=
  match JsMap.values (_documents c) with
  | document :: _ => Some document
  | [] => None
  end.

Definition find (id : string) (c : t) : option Document :=
  match reference c with
  | Some _ => JsMap.get (_documents c) id
  | None => None
  end.

(** [get(cache = false)], given what [this.query.get()] answers when it is
    asked: an error, or the documents of the result. *)
Definition get (cache : bool) (reply : Error + list DocumentSnapshot) (c : t) : ending :=
  if cache && isLoaded c then (c, None)
  else
    match query c with
    | None => (c, None)
    | Some _ =>
        match reply with
        | inl e => (c, Some e)
        | inr docs => applyDocs docs (with_documents [] c)
        end
    end.

(** [delete(id, transaction?)], given what the store answers to the delete
    when it is asked; with the state, the path of the document deleted. *)
Definition delete (id : string) (reply : option Error) (c : t)
  : ending * option string :=
  match reference c with
  | None => ((c, None), None)
  | Some r =>
      let target := r ++ "/" ++ id in
      match reply with
      | Some e => ((c, Some e), Some target)
      | None =>
          ((with_documents (JsMap.delete (_documents c) id) c, None), Some target)
      end
  end.

(** A public call that does not wait for the store. *)
Inductive call : Type :=
| SetKey (key : option Key)
| SetCondition (condition : option Condition)
| Initialize (ref : option string) (q : option Query)
| Watch (callback : nat)
| Unwatch.

Definition perform (k : call) (c : t) : t :=
  match k with
  | SetKey key => fst (set_key key c)
  | SetCondition condition => set_condition condition c
  | Initialize ref q => initialize ref q c
  | Watch callback => fst (watch callback c)
  | Unwatch => unwatch c
  end.

(** The first argument of the constructor: a key, the path of a collection,
    or a condition (an object whose [where] is an array). *)
Inductive keyOrCondition : Type :=
| OfKey (key : Key)
| OfPath (path : string)
| OfCondition (condition : Condition).

(** [new FirestoreCollection(keyOrCondition?, condition?)].  The checks that
    the SDK itself makes on a collection path are not part of the model. *)
Definition construct_collection (arg : option keyOrCondition)
           (condition : option Condition) : t :=
  let condition :=
    match arg with
    | Some (OfCondition c) => Some c
    | _ => condition
    end in
  let key :=
    match arg with
    | Some (OfCondition _) => None
    | _ => arg
    end in
  let standard (key : option Key) :=
    set_condition condition (fst (set_key key fresh)) in
  match key with
  | Some (OfPath path) =>
      initializeQuery (with_condition condition (with_reference (Some path) fresh))
  | Some (OfKey key) => standard (Some key)
  | Some (OfCondition _) => standard None
  | None =>
      if negb (pathTemplate =? "")%string
      then initializeQuery
             (with_condition condition (with_reference (Some pathTemplate) fresh))
      else standard None
  end.

End Methods.
End FirestoreCollection.

(** *** Example collections *)

(** A collection of [users], made from its path. *)
Definition users : FirestoreCollection.t :=
  FirestoreCollection.construct_collection "" (Some (FirestoreCollection.OfPath "users")) None.

(** [users], holding a document [u1] that has a pending local change. *)
Definition users_with_u1 : FirestoreCollection.t :=
  FirestoreCollection.with_documents [("u1", renamed)] users.

Definition users_u2 : DocumentReference := {| path := "users/u2" |}.

(** A pushed batch: [u1] modified remotely, [u2] added and then removed. *)
Definition pushed : list FirestoreCollection.DocumentChange :=
  [ {| FirestoreCollection.type := FirestoreCollection.modified;
       FirestoreCollection.change_doc :=
         {| snapshot_ref := users_u1; snapshot_data := Some [("name", VStr "C")] |} |};
    {| FirestoreCollection.type := FirestoreCollection.added;
       FirestoreCollection.change_doc :=
         {| snapshot_ref := users_u2; snapshot_data := Some [("name", VStr "D")] |} |};
    {| FirestoreCollection.type := FirestoreCollection.removed;
       FirestoreCollection.change_doc :=
         {| snapshot_ref := users_u2; snapshot_data := Some [("name", VStr "D")] |} |} ].

(** The documents of a query result. *)
Definition query_result : list DocumentSnapshot :=
  [ {| snapshot_ref := users_u2; snapshot_data := Some [("name", VStr "D")] |};
    {| snapshot_ref := users_u1; snapshot_data := Some [("name", VStr "C")] |} ].


(** * Properties *)

(** ** The async queue *)

Section QueueFacts.

Variables T P : Type.

Local Abbreviation queue_t := (AsyncQueue.t T P).

(** With nobody waiting, every item enqueued lands at the end of the backlog. *)
Lemma enqueue_all_backlog (items : list T) (q : queue_t) :
  AsyncQueue.resolvers q = [] ->
  AsyncQueue.enqueue_all items q =
    ({| AsyncQueue.queue := (AsyncQueue.queue q ++ items)%list;
        AsyncQueue.resolvers := [] |}, []).
Proof.
  revert q; induction items as [|x items IH]; intros [b ws] Hw;
    simpl in *; subst ws.
  - now rewrite app_nil_r.
  - unfold AsyncQueue.enqueue; simpl.
    rewrite IH by reflexivity; simpl.
    now rewrite <- app_assoc.
Qed.

(** A backlog at least as long as the list of consumers serves them in order. *)
Lemma dequeue_all_backlog (ps : list P) (items rest : list T) (ws : list P) :
  List.length ps = List.length items ->
  AsyncQueue.dequeue_all ps
    {| AsyncQueue.queue := (items ++ rest)%list; AsyncQueue.resolvers := ws |} =
    ({| AsyncQueue.queue := rest; AsyncQueue.resolvers := ws |},
     map (@AsyncQueue.Resolved T P) items).
Proof.
  revert items; induction ps as [|p ps IH]; intros [|x items] Hlen;
    simpl in Hlen; try discriminate; simpl.
  - reflexivity.
  - unfold AsyncQueue.dequeue; simpl.
    rewrite IH by (now injection Hlen). reflexivity.
Qed.

(** On an empty backlog every consumer is suspended, in arrival order. *)
Lemma dequeue_all_waiters (ps ws : list P) :
  AsyncQueue.dequeue_all ps {| AsyncQueue.queue := []; AsyncQueue.resolvers := ws |} =
    ({| AsyncQueue.queue := []; AsyncQueue.resolvers := (ws ++ ps)%list |},
     map (@AsyncQueue.Pending T P) ps).
Proof.
  revert ws; induction ps as [|p ps IH]; intros ws; simpl.
  - now rewrite app_nil_r.
  - unfold AsyncQueue.dequeue; simpl. rewrite IH.
    now rewrite <- app_assoc.
Qed.

(** Items meet the waiters oldest first. *)
Lemma enqueue_all_waiters (items : list T) (ps rest : list P) :
  List.length items = List.length ps ->
  AsyncQueue.enqueue_all items
    {| AsyncQueue.queue := []; AsyncQueue.resolvers := (ps ++ rest)%list |} =
    ({| AsyncQueue.queue := []; AsyncQueue.resolvers := rest |}, combine ps items).
Proof.
  revert ps; induction items as [|x items IH]; intros [|p ps] Hlen;
    simpl in Hlen; try discriminate; simpl.
  - reflexivity.
  - unfold AsyncQueue.enqueue; simpl.
    rewrite IH by (now injection Hlen). reflexivity.
Qed.

(** C9: on a new queue, (backlog path) [enqueue(x)] resolves nobody and the
    following [dequeue()] returns [x]; (waiter path) a [dequeue()] on the
    empty queue is suspended and the next [enqueue(x)] resolves it with [x];
    an item always goes to the oldest waiting consumer, so that consumers
    suspended in the order [ps] receive the items enqueued afterwards in
    that order; and [n] enqueues followed by [n] dequeues return the [n]
    items in the order they were enqueued. *)
Theorem queue_handoff_fifo :
  (forall (x : T) (p : P),
      AsyncQueue.enqueue x (AsyncQueue.new T P) =
        ({| AsyncQueue.queue := [x]; AsyncQueue.resolvers := [] |}, None)
      /\ AsyncQueue.dequeue p (fst (AsyncQueue.enqueue x (AsyncQueue.new T P))) =
           (AsyncQueue.new T P, AsyncQueue.Resolved P x))
  /\ (forall (x : T) (p : P),
         snd (AsyncQueue.dequeue p (AsyncQueue.new T P)) = AsyncQueue.Pending T p
         /\ AsyncQueue.enqueue x (fst (AsyncQueue.dequeue p (AsyncQueue.new T P))) =
              (AsyncQueue.new T P, Some (p, x)))
  /\ (forall (x : T) (backlog : list T) (oldest : P) (others : list P),
         AsyncQueue.enqueue x
           {| AsyncQueue.queue := backlog; AsyncQueue.resolvers := oldest :: others |} =
           ({| AsyncQueue.queue := backlog; AsyncQueue.resolvers := others |},
            Some (oldest, x)))
  /\ (forall (items : list T) (ps : list P),
         List.length items = List.length ps ->
         AsyncQueue.enqueue_all items
           (fst (AsyncQueue.dequeue_all ps (AsyncQueue.new T P))) =
           (AsyncQueue.new T P, combine ps items))
  /\ (forall (items : list T) (ps : list P),
         List.length ps = List.length items ->
         AsyncQueue.dequeue_all ps
           (fst (AsyncQueue.enqueue_all items (AsyncQueue.new T P))) =
           (AsyncQueue.new T P, map (@AsyncQueue.Resolved T P) items)).
Proof.
  repeat split.
  - intros items ps Hlen. unfold AsyncQueue.new.
    rewrite dequeue_all_waiters; simpl.
    rewrite <- (app_nil_r ps) at 1.
    now apply enqueue_all_waiters.
  - intros items ps Hlen. unfold AsyncQueue.new.
    rewrite enqueue_all_backlog by reflexivity; simpl.
    rewrite <- (app_nil_r items) at 1.
    now apply dequeue_all_backlog.
Qed.

End QueueFacts.

Lemma queue_handoff_fifo_witness :
  AsyncQueue.dequeue_all [10; 11; 12]%nat
    (fst (AsyncQueue.enqueue_all ["a"; "b"; "c"] (AsyncQueue.new string nat))) =
    (AsyncQueue.new string nat,
     [AsyncQueue.Resolved nat "a"; AsyncQueue.Resolved nat "b"; AsyncQueue.Resolved nat "c"])
  /\ AsyncQueue.enqueue_all ["a"; "b"]
       (fst (AsyncQueue.dequeue_all [10; 11]%nat (AsyncQueue.new string nat))) =
       (AsyncQueue.new string nat, [(10%nat, "a"); (11%nat, "b")]).
Proof.
  destruct (queue_handoff_fifo string nat) as (_ & _ & _ & Hwait & Hfifo).
  split.
  - apply (Hfifo ["a"; "b"; "c"] [10; 11; 12]%nat). reflexivity.
  - apply (Hwait ["a"; "b"] [10; 11]%nat). reflexivity.
Defined.

(** ** Deleting a document *)

(** C10: on a document with a reference and [exists = true], [delete()]
    reaches the store's delete with [exists] already false in the object and
    its data as it was; if the store then rejects, the method rejects with
    that error, [exists] stays false, the data is untouched, and a further
    [delete()] returns at once without calling the store. *)
Theorem delete_flips_exist_first (tx : option transaction)
        (d : Document) (r : DocumentReference) :
  reference d = Some r ->
  _exist d = true ->
  (exists k,
      delete tx d = Write (with_exist false d) (channel_of tx) (StoreDelete r) k
      /\ forall e d1, k (Some e) d1 = Raise d1 e)
  /\ forall store e,
      on_write store (channel_of tx) (StoreDelete r) = Some e ->
      let o := run store (delete tx d) in
      result o = inl e
      /\ calls o = [DidWrite (channel_of tx) (StoreDelete r)]
      /\ _exist (final o) = false
      /\ _data (final o) = _data d
      /\ forall tx' store',
          run store' (delete tx' (final o)) =
            {| final := final o; result := inr tt; calls := [] |}.
Proof.
  intros Href Hex. unfold delete. rewrite Href, Hex. simpl. split.
  - eexists. split; [reflexivity|]. reflexivity.
  - intros store e Hrej. simpl. rewrite Hrej. simpl.
    repeat split. intros tx' store'. rewrite Href. reflexivity.
Qed.

Lemma delete_flips_exist_first_witness :
  let d := existing [("name", VStr "A")] in
  let o := run (failing_store (Thrown "unavailable")) (delete None d) in
  result o = inl (Thrown "unavailable")
  /\ _exist (final o) = false
  /\ _data (final o) = [("name", VStr "A")]
  /\ run quiet_store (delete None (final o)) =
       {| final := final o; result := inr tt; calls := [] |}.
Proof.
  intros d o.
  destruct (delete_flips_exist_first None d (r := users_u1) eq_refl eq_refl)
    as [_ H].
  destruct (H (failing_store (Thrown "unavailable")) (Thrown "unavailable") eq_refl)
    as (Hres & _ & Hex & Hdata & Hagain).
  split; [exact Hres|].
  split; [exact Hex|].
  split; [exact Hdata|].
  exact (Hagain None quiet_store).
Defined.

(** ** Operations without a reference *)

(** C8 fails for [update]: on a document without a reference it returns
    normally, no error is raised. *)
Lemma update_without_reference_returns :
  reference unbound = None
  /\ update FirestoreDocument None unbound = Return unbound tt
  /\ ~ (exists d msg,
           update FirestoreDocument None unbound = Raise d (FirestoreDocumentError msg)).
Proof.
  split; [reflexivity|]. split; [reflexivity|].
  intros (d & msg & H). discriminate H.
Qed.

(** C8, amended: on a document without a reference, [get] (when the cache
    shortcut is not taken), [set], [delete], [watch] and [save] fail with the
    error "Document reference is not set" and leave the object as it was;
    [update] called directly returns normally and does nothing. *)
Theorem missing_reference_errors (cls : DocumentClass) (d : Document) :
  reference d = None ->
  (forall tx cache, cache && _isLoaded d = false ->
                    get cls tx cache d = Raise d missing_reference)
  /\ (forall data tx, set cls data tx d = Raise d missing_reference)
  /\ (forall tx, delete tx d = Raise d missing_reference)
  /\ (forall cb, watch cb d = Abrupt d missing_reference)
  /\ (forall force tx, save cls force tx d = Raise d missing_reference)
  /\ (forall tx, update cls tx d = Return d tt).
Proof.
  intros Href. repeat split.
  - intros tx cache Hc. unfold get. now rewrite Hc, Href.
  - intros data tx. unfold set. now rewrite Href.
  - intros tx. unfold delete. now rewrite Href.
  - intros cb. unfold watch. now rewrite Href.
  - intros force tx. unfold save. now rewrite Href.
  - intros tx. unfold update. now rewrite Href.
Qed.

Lemma missing_reference_errors_witness :
  get FirestoreDocument None false unbound = Raise unbound missing_reference
  /\ save FirestoreDocument false None unbound = Raise unbound missing_reference
  /\ update FirestoreDocument None unbound = Return unbound tt.
Proof.
  destruct (missing_reference_errors FirestoreDocument unbound eq_refl)
    as (Hget & _ & _ & _ & Hsave & Hupdate).
  split; [exact (Hget None false eq_refl)|].
  split; [exact (Hsave false None) | exact (Hupdate None)].
Defined.

(** ** Watching twice *)

(** C7 fails for a single document: [watch] on a document that is being
    watched raises nothing; it cancels the listener in place and registers
    the new one. *)
Lemma document_watch_twice_replaces :
  let first := {| listens_to := users_u1; callback := Some 1%nat |} in
  let second := {| listens_to := users_u1; callback := Some 2%nat |} in
  _unwatch watched = Some first
  /\ watch (Some 2%nat) watched =
       Normal (with_unwatch (Some second) watched) [Unsubscribe first; Subscribe second]
  /\ ~ (exists d e, watch (Some 2%nat) watched = Abrupt d e).
Proof.
  split; [reflexivity|]. split; [reflexivity|].
  intros (d & e & H). discriminate H.
Qed.

(** C7, amended: a collection with a query that is being watched answers
    [watch] with the error "watch is already called" and keeps its listener,
    without calling the store; a document that is being watched answers
    [watch] by cancelling its listener, dropping its snapshot queues and
    registering the new listener, without error. *)
Theorem watch_while_watching :
  (forall (c : Collection.t) (q : string) (active callback : nat),
      Collection.query c = Some q ->
      Collection._unwatch c = Some active ->
      Collection.watch callback c =
        Collection.Abrupt c (FirestoreDocumentError "watch is already called"))
  /\ (forall (d : Document) (r : DocumentReference) (active : Listener) (cb : option nat),
         reference d = Some r ->
         _unwatch d = Some active ->
         let l := {| listens_to := r; callback := cb |} in
         watch cb d =
           Normal (with_unwatch (Some l) (with_snapshotQueues [] (with_unwatch None d)))
                  [Unsubscribe active; Subscribe l]).
Proof.
  split.
  - intros c q active callback Hq Hw. unfold Collection.watch. now rewrite Hq, Hw.
  - intros d r active cb Href Hw. unfold watch, unwatch. now rewrite Href, Hw.
Qed.

Lemma watch_while_watching_witness :
  Collection.watch 2%nat watched_users =
    Collection.Abrupt watched_users (FirestoreDocumentError "watch is already called")
  /\ _unwatch (match watch (Some 2%nat) watched with
               | Normal d _ => d
               | Abrupt d _ => d
               end) = Some {| listens_to := users_u1; callback := Some 2%nat |}.
Proof.
  destruct watch_while_watching as [Hcoll Hdoc].
  split.
  - exact (Hcoll watched_users "users" 1%nat 2%nat eq_refl eq_refl).
  - rewrite (Hdoc watched users_u1 {| listens_to := users_u1; callback := Some 1%nat |}
                  (Some 2%nat) eq_refl eq_refl).
    reflexivity.
Defined.

(** ** A hook that throws *)

(** C6 fails for [set(data)]: the data is replaced, the ledger emptied and
    the full-overwrite flag raised before the hook runs, so that when the
    hook throws they are not as they were. *)
Lemma set_with_data_loses_ledger :
  let incoming := [("name", VStr "")] in
  _updated renamed = [("name", VStr "A")]
  /\ _updatedAll renamed = false
  /\ exists d,
      set Strict (Some incoming) None renamed = Raise d (Thrown "Name is required")
      /\ _updated d = []
      /\ _updatedAll d = true
      /\ ~ (_updated d = _updated renamed /\ _updatedAll d = _updatedAll renamed).
Proof.
  split; [reflexivity|]. split; [reflexivity|].
  eexists. split; [reflexivity|]. split; [reflexivity|]. split; [reflexivity|].
  intros [H _]. discriminate H.
Qed.

(** C6, amended: when the [beforeSave] hook throws in the state [d] of the
    call, [update()] and [set()] without data reject with the hook's error
    without having called the store, and the object is in the state the hook
    left, so with the ledger and the full-overwrite flag of the call when the
    hook only validates.  [set(data)] runs the hook after [setData(data,
    true)]: it rejects in the same way, from that state. *)
Theorem beforeSave_throw_aborts (cls : DocumentClass) (tx : option transaction)
        (d left : Document) (e : Error) :
  reference d <> None ->
  beforeSave cls d = Abrupt left e ->
  set cls None tx d = Raise left e
  /\ (_updated d <> [] -> update cls tx d = Raise left e)
  /\ (forall store,
         calls (run store (set cls None tx d)) = []
         /\ calls (run store (update cls tx d)) = [])
  /\ (left = d ->
      forall store,
        _updated (final (run store (set cls None tx d))) = _updated d
        /\ _updatedAll (final (run store (set cls None tx d))) = _updatedAll d
        /\ _updated (final (run store (update cls tx d))) = _updated d
        /\ _updatedAll (final (run store (update cls tx d))) = _updatedAll d)
  /\ (forall data left' e',
         beforeSave cls (fst (setData (inl data) true d)) = Abrupt left' e' ->
         set cls (Some data) tx d = Raise left' e').
Proof.
  intros Href Hhook.
  destruct (reference d) as [r|] eqn:Hr; [clear Href | now elim Href].
  assert (Hset : set cls None tx d = Raise left e).
  { unfold set. now rewrite Hr, Hhook. }
  assert (Hupd : update cls tx d = Raise left e \/ update cls tx d = Return d tt).
  { unfold update. rewrite Hr, Hhook.
    destruct (Nat.eqb (List.length (_updated d)) 0); [now right | now left]. }
  split; [exact Hset|]. split.
  { intros Hne. unfold update. rewrite Hr, Hhook.
    destruct (_updated d); [now elim Hne | reflexivity]. }
  split.
  { intros store. rewrite Hset. destruct Hupd as [-> | ->]; now split. }
  split.
  { intros -> store. rewrite Hset. destruct Hupd as [-> | ->]; now repeat split. }
  intros data left' e' Hhook'. unfold set. now rewrite Hr, Hhook'.
Qed.

Lemma beforeSave_throw_aborts_witness :
  set Strict None None renamed = Raise renamed (Thrown "Name is required")
  /\ update Strict None renamed = Raise renamed (Thrown "Name is required").
Proof.
  assert (Href : reference renamed <> None) by discriminate.
  destruct (@beforeSave_throw_aborts Strict None renamed renamed
              (Thrown "Name is required") Href eq_refl)
    as (Hset & Hupd & _).
  split; [exact Hset|]. apply Hupd. discriminate.
Defined.

(** ** Objects as association lists *)

Section ObjectFacts.

Implicit Types (o : object) (k key : string) (v : value).

Lemma get_set_same o k v : Js.get (Js.set o k v) k = v.
Proof.
  induction o as [|[k' w] o IH]; simpl.
  - now rewrite String.eqb_refl.
  - destruct (String.eqb k' k) eqn:E; simpl; rewrite E; auto.
Qed.

Lemma get_set_other o k key v :
  k <> key -> Js.get (Js.set o k v) key = Js.get o key.
Proof.
  intros Hne. induction o as [|[k' w] o IH]; simpl.
  - destruct (String.eqb_spec k key); [contradiction | reflexivity].
  - destruct (String.eqb_spec k' k) as [->|Hk]; simpl.
    + destruct (String.eqb_spec k key); [contradiction | reflexivity].
    + now rewrite IH.
Qed.

Lemma has_set_same o k v : Js.has (Js.set o k v) k = true.
Proof.
  induction o as [|[k' w] o IH]; simpl.
  - now rewrite String.eqb_refl.
  - destruct (String.eqb k' k) eqn:E; simpl; rewrite E; auto.
Qed.

Lemma has_set_other o k key v :
  k <> key -> Js.has (Js.set o k v) key = Js.has o key.
Proof.
  intros Hne. induction o as [|[k' w] o IH]; simpl.
  - destruct (String.eqb_spec k key); [contradiction | reflexivity].
  - destruct (String.eqb_spec k' k) as [->|Hk]; simpl.
    + destruct (String.eqb_spec k key); [contradiction | reflexivity].
    + now rewrite IH.
Qed.

Lemma has_set o k key v :
  Js.has (Js.set o k v) key = String.eqb k key || Js.has o key.
Proof.
  destruct (String.eqb_spec k key) as [->|Hne]; simpl.
  - apply has_set_same.
  - now apply has_set_other.
Qed.

Lemma has_In o k : Js.has o k = true <-> In k (keys o).
Proof.
  induction o as [|[k' w] o IH]; simpl.
  - split; [discriminate | tauto].
  - destruct (String.eqb_spec k' k) as [->|Hne].
    + split; auto.
    + rewrite IH. split; [auto | intros [H|H]; [contradiction | exact H]].
Qed.

Lemma get_absent o k : Js.has o k = false -> Js.get o k = VUndefined.
Proof.
  induction o as [|[k' w] o IH]; simpl; [reflexivity|].
  destruct (String.eqb k' k); [discriminate | exact IH].
Qed.

Lemma keys_set o k v :
  keys (Js.set o k v) = if Js.has o k then keys o else (keys o ++ [k])%list.
Proof.
  induction o as [|[k' w] o IH]; simpl; [reflexivity|].
  destruct (String.eqb k' k); simpl; [reflexivity|].
  rewrite IH. now destruct (Js.has o k).
Qed.

Lemma NoDup_keys_set o k v : NoDup (keys o) -> NoDup (keys (Js.set o k v)).
Proof.
  intros Hnd. rewrite keys_set. destruct (Js.has o k) eqn:E; [exact Hnd|].
  apply NoDup_app; [exact Hnd | repeat constructor; simpl; tauto |].
  intros x Hx [<- | []]. apply has_In in Hx. congruence.
Qed.

Lemma has_remove o k key :
  Js.has (Js.remove o k) key = negb (String.eqb k key) && Js.has o key.
Proof.
  induction o as [|[k' w] o IH]; simpl.
  - now rewrite andb_false_r.
  - destruct (String.eqb_spec k' k) as [->|Hk]; simpl.
    + rewrite IH. destruct (String.eqb_spec k key); simpl; reflexivity.
    + rewrite IH. destruct (String.eqb_spec k' key) as [->|Hk'].
      * destruct (String.eqb_spec k key); [congruence | reflexivity].
      * reflexivity.
Qed.

Lemma is_undefined_spec v : is_undefined v = true <-> v = VUndefined.
Proof. destruct v; simpl; split; congruence. Qed.

End ObjectFacts.

(** ** Tracked writes *)

Section TrackedWrites.

Implicit Types (d : Document) (key k : string) (v : value).

Lemma setValue_updated key v d :
  _updated (setValue key v d) =
    if Js.has (_updated d) key then _updated d
    else Js.set (_updated d) key (prior (Js.get (_data d) key)).
Proof.
  unfold setValue, prior.
  destruct (Js.has (_updated d) key); simpl;
    destruct (isDeleteField (Js.get (_data d) key)); simpl;
    destruct (is_undefined v); simpl;
    repeat match goal with |- context [if ?b then _ else _] => destruct b end;
    reflexivity.
Qed.

Lemma setValue_data key v d :
  _data (setValue key v d) =
    if is_undefined v then
      if Js.has (_data d) key then
        if _exist d then Js.set (_data d) key VDelete else Js.remove (_data d) key
      else _data d
    else Js.set (_data d) key v.
Proof.
  unfold setValue.
  destruct (Js.has (_updated d) key); simpl;
    destruct (isDeleteField (Js.get (_data d) key)); simpl;
    destruct (is_undefined v); simpl;
    repeat match goal with |- context [if ?b then _ else _] => destruct b end;
    reflexivity.
Qed.

Lemma setValue_frame key v d :
  reference (setValue key v d) = reference d
  /\ _exist (setValue key v d) = _exist d
  /\ _updatedAll (setValue key v d) = _updatedAll d
  /\ _isLoaded (setValue key v d) = _isLoaded d
  /\ _unwatch (setValue key v d) = _unwatch d.
Proof.
  destruct d as [r ky o ex ld u ua qs uw]. unfold setValue; simpl.
  repeat match goal with |- context [if ?b then _ else _] => destruct b end;
    simpl; auto 6.
Qed.

(** Every tracked write leaves its field in the ledger. *)
Lemma setValue_tracks key v d : Js.has (_updated (setValue key v d)) key = true.
Proof.
  rewrite setValue_updated. destruct (Js.has (_updated d) key) eqn:E;
    [exact E | apply has_set_same].
Qed.

(** A field of the ledger keeps its entry through any further write. *)
Lemma setValue_keeps_entry key k v d :
  Js.has (_updated d) k = true ->
  Js.has (_updated (setValue key v d)) k = true
  /\ Js.get (_updated (setValue key v d)) k = Js.get (_updated d) k.
Proof.
  intros Hk. rewrite setValue_updated.
  destruct (Js.has (_updated d) key) eqn:E; [now split|].
  assert (key <> k) by congruence.
  rewrite has_set_other, get_set_other by assumption. now split.
Qed.

Lemma write_all_keeps_entry ws k d :
  Js.has (_updated d) k = true ->
  Js.has (_updated (write_all ws d)) k = true
  /\ Js.get (_updated (write_all ws d)) k = Js.get (_updated d) k.
Proof.
  revert d; induction ws as [|[key v] ws IH]; intros d Hk; simpl; [now split|].
  destruct (@setValue_keeps_entry key k v d Hk) as [Hhas Hget].
  destruct (IH _ Hhas) as [Hhas' Hget'].
  unfold data_set. split; [exact Hhas' | congruence].
Qed.

End TrackedWrites.

(** C2: when a field [k] that is not in the ledger is written, and then any
    further writes follow (to [k] or to other fields, with no save in
    between), the ledger holds for [k] the value [data[k]] had before the
    first write, or [undefined] if that value was the delete sentinel; each
    later write leaves that entry as it is. *)
Theorem ledger_keeps_first_prior (k : string) (v : value)
        (later : list (string * value)) (d : Document) :
  Js.has (_updated d) k = false ->
  let old := Js.get (_data d) k in
  let d' := write_all later (setValue k v d) in
  Js.has (_updated d') k = true
  /\ Js.get (_updated d') k = (if isDeleteField old then VUndefined else old)
  /\ forall key v', Js.get (_updated (setValue key v' d')) k = Js.get (_updated d') k.
Proof.
  intros Hfresh old d'.
  assert (Hfirst : Js.has (_updated (setValue k v d)) k = true)
    by apply setValue_tracks.
  destruct (@write_all_keeps_entry later k _ Hfirst) as [Hhas Hget].
  split; [exact Hhas|]. split.
  - unfold d'. rewrite Hget, setValue_updated, Hfresh. apply get_set_same.
  - intros key v'. now apply setValue_keeps_entry.
Qed.

Lemma ledger_keeps_first_prior_witness :
  let d := existing [("a", VNum 1); ("gone", VDelete)] in
  Js.get (_updated (write_all [("a", VNum 3); ("b", VNum 0); ("a", VNum 4)]
                              (setValue "a" (VNum 2) d))) "a" = VNum 1
  /\ Js.get (_updated (write_all [("gone", VNum 6)] (setValue "gone" (VNum 5) d))) "gone"
     = VUndefined.
Proof.
  intros d. split.
  - exact (proj1 (proj2 (@ledger_keeps_first_prior "a" (VNum 2)
                           [("a", VNum 3); ("b", VNum 0); ("a", VNum 4)] d eq_refl))).
  - exact (proj1 (proj2 (@ledger_keeps_first_prior "gone" (VNum 5)
                           [("gone", VNum 6)] d eq_refl))).
Defined.

(** ** Payloads *)

Section Payloads.

Implicit Types (o data updated : object) (k key : string) (v : value).

Lemma serializeValue_undefined v :
  is_undefined (serializeValue v) = is_undefined v.
Proof. destruct v; reflexivity. Qed.

Lemma pick_loop_has data ks acc k :
  Js.has (fold_left (pick data) ks acc) k =
    Js.has acc k
    || (existsb (String.eqb k) ks && negb (is_undefined (Js.get data k))).
Proof.
  revert acc; induction ks as [|key ks IH]; intros acc; simpl.
  - now rewrite orb_false_r.
  - rewrite IH. unfold pick. rewrite serializeValue_undefined.
    destruct (String.eqb_spec k key) as [->|Hne]; simpl.
    + destruct (is_undefined (Js.get data key)); simpl.
      * now rewrite andb_false_r.
      * rewrite has_set_same. now rewrite orb_true_r.
    + destruct (is_undefined (Js.get data key)); simpl; [reflexivity|].
      rewrite has_set_other by congruence. reflexivity.
Qed.

Lemma pick_loop_get data ks acc k :
  Js.get (fold_left (pick data) ks acc) k =
    if existsb (String.eqb k) ks && negb (is_undefined (Js.get data k))
    then serializeValue (Js.get data k) else Js.get acc k.
Proof.
  revert acc; induction ks as [|key ks IH]; intros acc; simpl; [reflexivity|].
  rewrite IH. unfold pick. rewrite serializeValue_undefined.
  destruct (String.eqb_spec k key) as [->|Hne]; simpl.
  - destruct (is_undefined (Js.get data key)); simpl.
    + now rewrite andb_false_r.
    + rewrite get_set_same. now destruct (existsb _ ks).
  - destruct (is_undefined (Js.get data key)); simpl; [reflexivity|].
    rewrite get_set_other by congruence. reflexivity.
Qed.

Lemma pick_loop_NoDup data ks acc :
  NoDup (keys acc) -> NoDup (keys (fold_left (pick data) ks acc)).
Proof.
  revert acc; induction ks as [|key ks IH]; intros acc Hnd; simpl; [exact Hnd|].
  apply IH. unfold pick. destruct (is_undefined _); [exact Hnd|].
  now apply NoDup_keys_set.
Qed.

Lemma has_existsb o k : Js.has o k = existsb (String.eqb k) (keys o).
Proof.
  induction o as [|[k' w] o IH]; simpl; [reflexivity|].
  rewrite IH, (String.eqb_sym k k'). now destruct (String.eqb k' k).
Qed.

(** The payload of an update: the ledger's fields whose stored value is
    not [undefined], each with the serialization of the stored value. *)
Lemma serialize_updated_has data updated k :
  Js.has (serialize data (Some updated)) k =
    Js.has updated k && negb (is_undefined (Js.get data k)).
Proof.
  unfold serialize. change (fun serializedData key => _) with (pick data).
  rewrite pick_loop_has. simpl. now rewrite has_existsb.
Qed.

Lemma serialize_updated_get data updated k :
  Js.has updated k = true ->
  Js.get (serialize data (Some updated)) k = serializeValue (Js.get data k).
Proof.
  intros Hk. unfold serialize. change (fun serializedData key => _) with (pick data).
  rewrite pick_loop_get, <- has_existsb, Hk. simpl.
  destruct (is_undefined (Js.get data k)) eqn:E; simpl; [|reflexivity].
  apply is_undefined_spec in E. now rewrite E.
Qed.

Lemma serialize_updated_NoDup data updated :
  NoDup (keys (serialize data (Some updated))).
Proof.
  unfold serialize. change (fun serializedData key => _) with (pick data).
  apply pick_loop_NoDup. constructor.
Qed.

(** The payload of a full write has no field that the data does not have. *)
Lemma serializeObject_has o k :
  Js.has (serializeObject o) k = true -> Js.has o k = true.
Proof.
  unfold serializeObject.
  assert (H : forall acc,
             Js.has (fold_left
                       (fun serialized kv =>
                          let value := serializeValue (snd kv) in
                          if is_undefined value then serialized
                          else Js.set serialized (fst kv) value) o acc) k = true ->
             Js.has acc k = true \/ Js.has o k = true).
  { induction o as [|[k' w] o IH]; intros acc; simpl; [now left|].
    intros Hk. apply IH in Hk. destruct Hk as [Hk|Hk].
    - destruct (is_undefined (serializeValue w)); [now left|].
      rewrite has_set in Hk. destruct (String.eqb k' k); [now right | now left].
    - right. now destruct (String.eqb k' k). }
  intros Hk. apply H in Hk. destruct Hk as [Hk|Hk]; [discriminate | exact Hk].
Qed.

Lemma serialize_all_has data k :
  Js.has (serialize data None) k = true -> Js.has data k = true.
Proof.
  unfold serialize. intros Hk. apply serializeObject_has in Hk.
  rewrite has_remove in Hk. now apply andb_prop in Hk.
Qed.

End Payloads.

Section SavePaths.

Variable cls : DocumentClass.
Hypothesis Hhook : keeps_beforeSave cls.

(** What [update] does on a document with a reference and a ledger that is
    not empty, and what [set] without data does. *)
Lemma update_calls tx d r store :
  reference d = Some r ->
  _updated d <> [] ->
  calls (run store (update cls tx d)) =
    [DidWrite (channel_of tx)
              (StoreUpdate r (serialize (_data d) (Some (_updated d))))].
Proof.
  intros Href Hne. unfold update, issue. rewrite Href, Hhook, Href.
  destruct (_updated d); [now elim Hne|]. simpl.
  now destruct (on_write store _ _).
Qed.

Lemma set_calls tx d r store :
  reference d = Some r ->
  calls (run store (set cls None tx d)) =
    [DidWrite (channel_of tx) (StoreSet r (serialize (_data d) None))].
Proof.
  intros Href. unfold set, issue. rewrite Href, Hhook, Href. simpl.
  now destruct (on_write store _ _).
Qed.

End SavePaths.

(** ** Deleting a field *)

(** C3: for a field [k] present in the data of a document with a reference
    (whose class keeps the base [beforeSave]), writing [undefined] to [k],
    which is what both [data.k = undefined] and [delete data.k] do: if the
    document exists, stores the delete sentinel in [data[k]], and the next
    [update()] sends one partial update whose payload maps [k] to the
    sentinel; if the document is new, removes [k] from the data, and the next
    [save()] sends one full write whose payload has no [k]. *)
Theorem delete_field_payloads (cls : DocumentClass) (k : string) (d : Document)
        (r : DocumentReference) :
  keeps_beforeSave cls ->
  reference d = Some r ->
  Js.has (_data d) k = true ->
  let d' := setValue k VUndefined d in
  (data_set k VUndefined d = d' /\ data_deleteProperty k d = d')
  /\ (_exist d = true ->
      Js.get (_data d') k = VDelete
      /\ forall tx store, exists saveData,
          calls (run store (update cls tx d')) =
            [DidWrite (channel_of tx) (StoreUpdate r saveData)]
          /\ Js.get saveData k = VDelete)
  /\ (_exist d = false ->
      Js.has (_data d') k = false
      /\ forall force tx store, exists saveData,
          calls (run store (save cls force tx d')) =
            [DidWrite (channel_of tx) (StoreSet r saveData)]
          /\ Js.has saveData k = false).
Proof.
  intros Hhook Href Hin d'.
  destruct (setValue_frame k VUndefined d) as (Hr & Hex & _).
  fold d' in Hr, Hex. rewrite Href in Hr.
  assert (Hdata : _data d' =
                    if _exist d then Js.set (_data d) k VDelete
                    else Js.remove (_data d) k).
  { unfold d'. rewrite setValue_data. simpl. now rewrite Hin. }
  assert (Hled : Js.has (_updated d') k = true) by apply setValue_tracks.
  split; [now split|]. split.
  - intros Hexist. rewrite Hexist in Hdata.
    assert (Hget : Js.get (_data d') k = VDelete)
      by (rewrite Hdata; apply get_set_same).
    split; [exact Hget|].
    intros tx store. eexists. split.
    + apply update_calls; [exact Hhook | exact Hr |].
      intros Hnil. rewrite Hnil in Hled. discriminate.
    + rewrite serialize_updated_get by exact Hled. now rewrite Hget.
  - intros Hnew. rewrite Hnew in Hdata.
    assert (Hgone : Js.has (_data d') k = false).
    { rewrite Hdata, has_remove, String.eqb_refl. reflexivity. }
    split; [exact Hgone|].
    intros force tx store. eexists. split.
    + unfold save. rewrite Hr, Hex, Hnew. simpl.
      apply set_calls; [exact Hhook | exact Hr].
    + destruct (Js.has (serialize (_data d') None) k) eqn:E; [|reflexivity].
      apply serialize_all_has in E. congruence.
Qed.

Lemma base_keeps_beforeSave : keeps_beforeSave FirestoreDocument.
Proof. intros d. reflexivity. Qed.

Lemma delete_field_payloads_witness :
  (exists saveData,
      calls (run quiet_store
                 (update FirestoreDocument None
                         (setValue "age" VUndefined
                                   (existing [("name", VStr "A"); ("age", VNum 7)])))) =
        [DidWrite Direct (StoreUpdate users_u1 saveData)]
      /\ Js.get saveData "age" = VDelete)
  /\ (exists saveData,
         calls (run quiet_store
                    (save FirestoreDocument false None
                          (setValue "age" VUndefined
                                    (brand_new [("name", VStr "A"); ("age", VNum 7)])))) =
           [DidWrite Direct (StoreSet users_u1 saveData)]
         /\ Js.has saveData "age" = false).
Proof.
  split.
  - destruct (@delete_field_payloads FirestoreDocument "age"
                (existing [("name", VStr "A"); ("age", VNum 7)]) users_u1
                base_keeps_beforeSave eq_refl eq_refl) as (_ & Hexisting & _).
    destruct (Hexisting eq_refl) as [_ Hpayload].
    exact (Hpayload None quiet_store).
  - destruct (@delete_field_payloads FirestoreDocument "age"
                (brand_new [("name", VStr "A"); ("age", VNum 7)]) users_u1
                base_keeps_beforeSave eq_refl eq_refl) as (_ & _ & Hnew).
    destruct (Hnew eq_refl) as [_ Hpayload].
    exact (Hpayload false None quiet_store).
Defined.

(** ** The payload of an update after a sequence of writes *)

Section WriteSequences.

Implicit Types (d : Document) (k key : string) (v : value)
         (ws : list (string * value)).

Lemma write_all_snoc ws key v d :
  write_all (ws ++ [(key, v)]) d = setValue key v (write_all ws d).
Proof. unfold write_all. now rewrite fold_left_app. Qed.

Lemma last_written_snoc ws key v k :
  last_written (ws ++ [(key, v)]) k =
    if String.eqb key k then Some v else last_written ws k.
Proof. unfold last_written. now rewrite fold_left_app. Qed.

Lemma write_all_frame ws d :
  reference (write_all ws d) = reference d
  /\ _exist (write_all ws d) = _exist d
  /\ _updatedAll (write_all ws d) = _updatedAll d.
Proof.
  revert d; induction ws as [|[key v] ws IH]; intros d; simpl; [auto|].
  destruct (IH (data_set key v d)) as (H1 & H2 & H3).
  destruct (setValue_frame key v d) as (F1 & F2 & F3 & _).
  unfold data_set in *. repeat split; congruence.
Qed.

(** The ledger holds what it held and the fields written. *)
Lemma write_all_tracks ws d k :
  Js.has (_updated (write_all ws d)) k =
    Js.has (_updated d) k || existsb (String.eqb k) (map fst ws).
Proof.
  revert d; induction ws as [|[key v] ws IH]; intros d; simpl.
  - now rewrite orb_false_r.
  - rewrite IH. unfold data_set. rewrite setValue_updated.
    destruct (Js.has (_updated d) key) eqn:E.
    + destruct (String.eqb_spec k key) as [->|Hne]; simpl; [|reflexivity].
      now rewrite E.
    + rewrite has_set, (String.eqb_sym k key).
      now destruct (String.eqb key k), (Js.has (_updated d) k).
Qed.

Lemma get_remove_other (o : object) key k :
  key <> k -> Js.get (Js.remove o key) k = Js.get o k.
Proof.
  intros Hne. induction o as [|[k' w] o IH]; simpl; [reflexivity|].
  destruct (String.eqb_spec k' key) as [->|Hk]; simpl.
  - rewrite IH. destruct (String.eqb_spec key k); [contradiction | reflexivity].
  - now rewrite IH.
Qed.

Lemma setValue_data_other key v d k :
  key <> k -> Js.get (_data (setValue key v d)) k = Js.get (_data d) k.
Proof.
  intros Hne. rewrite setValue_data.
  destruct (is_undefined v); [|now apply get_set_other].
  destruct (Js.has (_data d) key); [|reflexivity].
  destruct (_exist d); [now apply get_set_other | now apply get_remove_other].
Qed.

(** After the writes, a field holds the last value written to it, when
    that value is not [undefined]. *)
Lemma write_all_stores ws d k v :
  last_written ws k = Some v ->
  v <> VUndefined ->
  Js.get (_data (write_all ws d)) k = v.
Proof.
  induction ws as [|[key v'] ws IH] using rev_ind; [discriminate|].
  rewrite last_written_snoc, write_all_snoc.
  destruct (String.eqb_spec key k) as [->|Hne].
  - intros [= ->] Hdef. rewrite setValue_data.
    destruct (is_undefined v) eqn:E; [now apply is_undefined_spec in E|].
    apply get_set_same.
  - intros Hlast Hdef. rewrite setValue_data_other by exact Hne. now apply IH.
Qed.

Lemma last_written_In ws k :
  In k (map fst ws) -> exists v, last_written ws k = Some v /\ In (k, v) ws.
Proof.
  induction ws as [|[key v'] ws IH] using rev_ind; [intros []|].
  rewrite map_app, in_app_iff, last_written_snoc. simpl.
  destruct (String.eqb_spec key k) as [->|Hne].
  - intros _. exists v'. split; [reflexivity|]. apply in_or_app. right. now left.
  - intros [Hin | [Heq | []]]; [|contradiction].
    destruct (IH Hin) as (v & Hl & Hv). exists v. split; [exact Hl|].
    apply in_or_app. now left.
Qed.

Lemma last_written_Some ws k v :
  last_written ws k = Some v -> In (k, v) ws.
Proof.
  induction ws as [|[key v'] ws IH] using rev_ind; [discriminate|].
  rewrite last_written_snoc.
  destruct (String.eqb_spec key k) as [->|Hne].
  - intros [= ->]. apply in_or_app. right. now left.
  - intros H. apply in_or_app. left. now apply IH.
Qed.

Lemma existsb_eqb_In k (ks : list string) :
  existsb (String.eqb k) ks = true <-> In k ks.
Proof.
  rewrite existsb_exists. split.
  - intros (x & Hx & E). apply String.eqb_eq in E. now subst.
  - intros H. exists k. split; [exact H | apply String.eqb_refl].
Qed.

(** The payload computed from a clean document after writes of values that
    are not [undefined]. *)
Lemma payload_after_writes ws d :
  _updated d = [] ->
  Forall (fun w => snd w <> VUndefined) ws ->
  let d' := write_all ws d in
  carries (serialize (_data d') (Some (_updated d'))) ws.
Proof.
  intros Hclean Hdef d'.
  assert (Hkeys : forall k,
             In k (keys (serialize (_data d') (Some (_updated d')))) <->
             In k (map fst ws)).
  { intros k. rewrite <- has_In, serialize_updated_has.
    unfold d'. rewrite write_all_tracks, Hclean. simpl.
    rewrite andb_true_iff, existsb_eqb_In. split; [tauto|].
    intros Hin. split; [exact Hin|].
    destruct (last_written_In ws k Hin) as (v & Hl & Hv).
    rewrite (write_all_stores ws d k Hl).
    - destruct (is_undefined v) eqn:E; [|reflexivity].
      apply is_undefined_spec in E.
      rewrite Forall_forall in Hdef. now elim (Hdef _ Hv).
    - rewrite Forall_forall in Hdef. exact (Hdef _ Hv). }
  assert (Hnd := serialize_updated_NoDup (_data d') (_updated d')).
  split; [exact Hnd|]. split; [exact Hkeys|]. split.
  - apply Permutation_length, NoDup_Permutation;
      [exact Hnd | apply NoDup_nodup |].
    intros k. rewrite Hkeys. symmetry. apply nodup_In.
  - intros k v Hl.
    assert (Hv := last_written_Some ws k Hl).
    assert (Hin : In k (map fst ws)) by (apply in_map_iff; now exists (k, v)).
    rewrite serialize_updated_get.
    + unfold d'. rewrite (write_all_stores ws d k Hl); [reflexivity|].
      rewrite Forall_forall in Hdef. exact (Hdef _ Hv).
    + unfold d'. rewrite write_all_tracks, Hclean. simpl.
      now apply existsb_eqb_In.
Qed.

End WriteSequences.

(** C1 fails for a write of [undefined] to a field the data does not have:
    the field enters the ledger, nothing is stored, and the payload of the
    update leaves it out.  Here one field is written and the payload is
    empty. *)
Lemma undefined_write_is_not_sent :
  let d := existing [("a", VNum 1)] in
  let ws := [("b", VUndefined)] in
  reference d = Some users_u1 /\ _exist d = true /\ _updatedAll d = false
  /\ calls (run quiet_store (save FirestoreDocument false None (write_all ws d))) =
       [DidWrite Direct (StoreUpdate users_u1 [])]
  /\ ~ carries [] ws.
Proof.
  repeat split.
  intros (_ & Hkeys & _). apply (Hkeys "b"). simpl. now left.
Qed.

(** C1, amended: take a document with a reference, [exists = true], no
    full-overwrite flag and an empty ledger, of a class that keeps the base
    [beforeSave]; write through the data accessor any sequence of values
    other than [undefined]; then [save()] with [force = false] sends one
    partial update (none when nothing was written), and its payload has
    exactly the fields written, one entry for each, each with the
    serialization of the last value written to it. *)
Theorem update_payload_after_writes (cls : DocumentClass) (tx : option transaction)
        (d : Document) (r : DocumentReference) (ws : list (string * value)) :
  keeps_beforeSave cls ->
  reference d = Some r ->
  _exist d = true ->
  _updatedAll d = false ->
  _updated d = [] ->
  Forall (fun w => snd w <> VUndefined) ws ->
  forall store, exists saveData,
    carries saveData ws
    /\ calls (run store (save cls false tx (write_all ws d))) =
         match ws with
         | [] => []
         | _ :: _ => [DidWrite (channel_of tx) (StoreUpdate r saveData)]
         end.
Proof.
  intros Hhook Href Hex Hflag Hclean Hdef store.
  exists (serialize (_data (write_all ws d)) (Some (_updated (write_all ws d)))).
  split; [now apply payload_after_writes|].
  destruct (write_all_frame ws d) as (Hr & He & Hf).
  unfold save. rewrite Hr, Href, He, Hex, Hf, Hflag. simpl.
  destruct ws as [|w ws].
  - simpl. unfold update. now rewrite Href, Hclean.
  - apply update_calls; [exact Hhook | congruence |].
    intros Hnil.
    assert (Hin : Js.has (_updated (write_all (w :: ws) d)) (fst w) = true).
    { rewrite write_all_tracks. simpl. rewrite String.eqb_refl.
      now rewrite orb_true_r. }
    rewrite Hnil in Hin. discriminate.
Qed.

Lemma update_payload_after_writes_witness :
  exists saveData,
    carries saveData [("a", VNum 1); ("b", VDate 1500); ("a", VNum 2)]
    /\ calls (run quiet_store
                  (save FirestoreDocument false None
                        (write_all [("a", VNum 1); ("b", VDate 1500); ("a", VNum 2)]
                                   (existing [("name", VStr "A")])))) =
         [DidWrite Direct (StoreUpdate users_u1 saveData)].
Proof.
  apply (@update_payload_after_writes FirestoreDocument None
           (existing [("name", VStr "A")]) users_u1
           [("a", VNum 1); ("b", VDate 1500); ("a", VNum 2)]
           base_keeps_beforeSave eq_refl eq_refl eq_refl eq_refl).
  repeat constructor; discriminate.
Defined.

(** The spec's own test: [a = 1], then [a = 2], then [save()]. *)
Example update_payload_a1_a2 :
  calls (run quiet_store
             (save FirestoreDocument false None
                   (data_set "a" (VNum 2) (data_set "a" (VNum 1) (existing []))))) =
    [DidWrite Direct (StoreUpdate users_u1 [("a", VNum 2)])].
Proof. reflexivity. Qed.

(** ** Deep equality *)

Section DeepEqualFacts.

Lemma deepEqual_arrays xs ys :
  deepEqual (VArr xs) (VArr ys) =
    Nat.eqb (List.length xs) (List.length ys) && every_pair xs ys.
Proof. simpl. now destruct (Nat.eqb _ _). Qed.

Lemma deepEqual_objects props props' :
  deepEqual (VObj props) (VObj props') =
    Nat.eqb (List.length (keys props)) (List.length (keys props'))
    && forallb (fun kv => deepEqual (snd kv) (Js.get props' (fst kv))) props.
Proof. simpl. now destruct (Nat.eqb _ _). Qed.

(** In an object with unique keys, looking a key up finds its entry. *)
Lemma forallb_own_entries (f : value -> value -> bool) (front props : object) :
  distinct (keys (front ++ props)%list) = true ->
  (forall kv, In kv props -> f (snd kv) (snd kv) = true) ->
  forallb (fun kv => f (snd kv) (Js.get (front ++ props)%list (fst kv))) props = true.
Proof.
  revert front; induction props as [|[k v] props IH]; intros front Hd Hf;
    [reflexivity|].
  simpl. apply andb_true_iff. split.
  - replace (Js.get (front ++ (k, v) :: props)%list k) with v;
      [apply (Hf (k, v)); now left|].
    clear IH Hf. induction front as [|[k' w] front IHf]; simpl.
    + now rewrite String.eqb_refl.
    + simpl in Hd. apply andb_true_iff in Hd. destruct Hd as [Hk Hd].
      destruct (String.eqb_spec k' k) as [->|Hne]; [|now apply IHf].
      apply negb_true_iff in Hk.
      assert (Hin : existsb (String.eqb k) (keys (front ++ (k, v) :: props)%list) = true).
      { apply existsb_exists. exists k. split; [|apply String.eqb_refl].
        unfold keys. rewrite map_app. apply in_or_app. right. now left. }
      congruence.
  - replace (front ++ (k, v) :: props)%list with ((front ++ [(k, v)]) ++ props)%list
      by now rewrite <- app_assoc.
    apply IH.
    + now rewrite <- app_assoc.
    + intros kv Hin. apply Hf. now right.
Qed.

(** [deepEqual] holds between a value and itself, so the identity shortcut
    of [Object.is], had it fired on an object, would have given the answer
    that the structural walk gives. *)
Lemma deepEqual_refl (v : value) : well_formed v = true -> deepEqual v v = true.
Proof.
  induction v as [| |b|n|s|ms|s n| |items IH|props IH] using value_nested_ind;
    intros Hwf; try reflexivity.
  - simpl. now destruct b.
  - simpl. now rewrite Z.eqb_refl.
  - simpl. now rewrite String.eqb_refl.
  - simpl. apply Z.eqb_refl.
  - simpl. now rewrite !Z.eqb_refl.
  - rewrite deepEqual_arrays, Nat.eqb_refl. simpl in Hwf. simpl.
    induction IH as [|x items Hx _ IHitems]; [reflexivity|].
    simpl in Hwf. apply andb_true_iff in Hwf. destruct Hwf as [Hwx Hwf].
    simpl. rewrite (Hx Hwx). now apply IHitems.
  - rewrite deepEqual_objects, Nat.eqb_refl. simpl.
    simpl in Hwf. apply andb_true_iff in Hwf. destruct Hwf as [Hd Hwf].
    apply (forallb_own_entries deepEqual [] props Hd).
    intros kv Hin. rewrite Forall_forall in IH. apply (IH kv Hin).
    rewrite forallb_forall in Hwf. exact (Hwf kv Hin).
Qed.

End DeepEqualFacts.

(** ** Replacing the data *)

Section ReplaceFacts.

Implicit Types (o data acc : object) (k key : string).

Lemma distinct_NoDup (ks : list string) : distinct ks = true <-> NoDup ks.
Proof.
  induction ks as [|k ks IH]; simpl.
  - split; [constructor | reflexivity].
  - rewrite andb_true_iff, negb_true_iff, IH. split.
    + intros [Hk Hnd]. constructor; [|exact Hnd].
      intros Hin. apply existsb_eqb_In in Hin. congruence.
    + intros Hnd. inversion Hnd as [|? ? Hk Hnd']; subst. split; [|exact Hnd'].
      destruct (existsb (String.eqb k) ks) eqn:E; [|reflexivity].
      apply existsb_eqb_In in E. contradiction.
Qed.

Lemma remove_filter o key :
  Js.remove o key = filter (fun kv => negb (String.eqb (fst kv) key)) o.
Proof.
  induction o as [|[k w] o IH]; simpl; [reflexivity|].
  destruct (String.eqb k key); simpl; now rewrite IH.
Qed.

Lemma filter_filter (A : Type) (f g : A -> bool) (l : list A) :
  filter g (filter f l) = filter (fun x => f x && g x) l.
Proof.
  induction l as [|x l IH]; simpl; [reflexivity|].
  destruct (f x); simpl; [destruct (g x); now rewrite IH | exact IH].
Qed.

(** What is left of the data is its [_id] entry, if it has one. *)
Lemma clear_except_id_filter o :
  clear_except_id o = filter (fun kv => String.eqb (fst kv) "_id") o.
Proof.
  unfold clear_except_id.
  assert (H : forall ks o',
             fold_left (fun o key =>
                          if negb (String.eqb key "_id") then Js.remove o key else o)
                       ks o' =
             filter (fun kv => String.eqb (fst kv) "_id"
                               || negb (existsb (String.eqb (fst kv)) ks)) o').
  { induction ks as [|key ks IH]; intros o'; simpl.
    - rewrite <- (filter_ext (fun _ => true)).
      + induction o' as [|x o' IHo]; simpl; congruence.
      + intros kv. now rewrite orb_true_r.
    - rewrite IH. destruct (String.eqb_spec key "_id") as [->|Hne]; simpl.
      + apply filter_ext. intros kv.
        now destruct (String.eqb (fst kv) "_id"), (existsb _ ks).
      + rewrite remove_filter, filter_filter. apply filter_ext. intros kv.
        destruct (String.eqb_spec (fst kv) "_id") as [E|E]; simpl.
        * destruct (String.eqb_spec (fst kv) key); [congruence | reflexivity].
        * now destruct (String.eqb (fst kv) key). }
  rewrite H. apply filter_ext_in. intros kv Hin.
  replace (existsb (String.eqb (fst kv)) (keys o)) with true;
    [now rewrite orb_false_r|].
  symmetry. apply existsb_eqb_In. unfold keys. now apply in_map.
Qed.

Lemma clear_except_id_nil o :
  Js.has o "_id" = false -> clear_except_id o = [].
Proof.
  rewrite clear_except_id_filter.
  induction o as [|[k w] o IH]; simpl; [reflexivity|].
  destruct (String.eqb k "_id"); [discriminate | exact IH].
Qed.

Lemma undefine_deletes_none data :
  (forall k, isDeleteField (Js.get data k) = false) ->
  undefine_deletes data = data.
Proof.
  intros Hnone. unfold undefine_deletes.
  induction (keys data) as [|key ks IH]; simpl; [reflexivity|].
  now rewrite Hnone.
Qed.

Lemma set_absent acc k (v : value) :
  Js.has acc k = false -> Js.set acc k v = (acc ++ [(k, v)])%list.
Proof.
  induction acc as [|[k' w] acc IH]; simpl; [reflexivity|].
  destruct (String.eqb k' k); [discriminate|]. intros H. now rewrite IH.
Qed.

Lemma assign_append acc data :
  NoDup (keys (acc ++ data)%list) -> assign acc data = (acc ++ data)%list.
Proof.
  unfold assign. revert acc; induction data as [|[k v] data IH]; intros acc Hnd;
    simpl.
  - now rewrite app_nil_r.
  - assert (Habs : Js.has acc k = false).
    { destruct (Js.has acc k) eqn:E; [|reflexivity].
      apply has_In in E. unfold keys in Hnd. rewrite map_app in Hnd.
      simpl in Hnd. apply NoDup_remove_2 in Hnd.
      elim Hnd. apply in_or_app. now left. }
    rewrite set_absent by exact Habs.
    rewrite IH; rewrite <- app_assoc; [reflexivity | exact Hnd].
Qed.

Lemma unserializeObject_NoDup o : NoDup (keys (unserializeObject o)).
Proof.
  unfold unserializeObject.
  assert (H : forall acc,
             NoDup (keys acc) ->
             NoDup (keys (fold_left
                            (fun unserialized kv =>
                               Js.set unserialized (fst kv) (unserializeValue (snd kv)))
                            o acc))).
  { induction o as [|kv o IH]; intros acc Hnd; simpl; [exact Hnd|].
    apply IH. now apply NoDup_keys_set. }
  apply H. constructor.
Qed.

(** The data replaced by an incoming object that has unique keys and no
    delete sentinel, when the data has no [_id] of its own. *)
Lemma replaced_wholesale o data :
  Js.has o "_id" = false ->
  NoDup (keys data) ->
  (forall k, isDeleteField (Js.get data k) = false) ->
  assign (clear_except_id o) (undefine_deletes data) = data.
Proof.
  intros Hid Hnd Hnone.
  rewrite clear_except_id_nil, undefine_deletes_none by assumption.
  now apply assign_append.
Qed.

Lemma has_nonempty o k : Js.has o k = true -> (0 <? List.length o)%nat = true.
Proof. destruct o; [discriminate | reflexivity]. Qed.

End ReplaceFacts.

(** C5 fails for [setData] with its default [updatedAll = true]: replacing
    the data of a clean document by an equal object leaves the document
    dirty. *)
Lemma equal_setData_marks_dirty :
  let d := existing [("a", VNum 1)] in
  let data := [("a", VNum 1)] in
  deepEqual (VObj data) (VObj (_data d)) = true
  /\ isDirty d = false
  /\ isDirty (fst (setData (inl data) true d)) = true.
Proof. repeat split. Qed.

(** C5, amended: a tracked write marks the document dirty whatever the
    value, the value the field already holds included; [setData] with an
    object that [deepEqual] finds equal to the current data (as it finds the
    current data itself) keeps the data and returns false, but empties the
    ledger and sets the full-overwrite flag to its [updatedAll] argument, so
    that the document is dirty afterwards exactly when [updatedAll] is true. *)
Theorem dirty_after_write_and_equal_replace :
  (forall key v d, isDirty (setValue key v d) = true)
  /\ (forall key d, isDirty (setValue key (Js.get (_data d) key) d) = true)
  /\ (forall (data : object) updatedAll d,
         deepEqual (VObj data) (VObj (_data d)) = true ->
         setData (inl data) updatedAll d =
           (with_updatedAll updatedAll (with_updated [] d), false)
         /\ _data (fst (setData (inl data) updatedAll d)) = _data d
         /\ isDirty (fst (setData (inl data) updatedAll d)) = updatedAll)
  /\ (forall updatedAll d,
         well_formed (VObj (_data d)) = true ->
         snd (setData (inl (_data d)) updatedAll d) = false
         /\ isDirty (fst (setData (inl (_data d)) updatedAll d)) = updatedAll).
Proof.
  assert (Hwrite : forall key v d, isDirty (setValue key v d) = true).
  { intros key v d. unfold isDirty.
    now rewrite (has_nonempty _ key (setValue_tracks key v d)). }
  assert (Hequal : forall (data : object) updatedAll d,
             deepEqual (VObj data) (VObj (_data d)) = true ->
             setData (inl data) updatedAll d =
               (with_updatedAll updatedAll (with_updated [] d), false)).
  { intros data updatedAll d Heq. unfold setData, structuredClone. now rewrite Heq. }
  split; [exact Hwrite|]. split; [intros; apply Hwrite|]. split.
  - intros data updatedAll d Heq. rewrite (Hequal _ _ _ Heq). repeat split.
  - intros updatedAll d Hwf.
    rewrite (Hequal _ updatedAll d (deepEqual_refl _ Hwf)). repeat split.
Qed.

Lemma dirty_after_write_and_equal_replace_witness :
  let d := existing [("a", VNum 1); ("when", VDate 1500)] in
  isDirty (setValue "a" (VNum 1) d) = true
  /\ isDirty (fst (setData (inl [("when", VDate 1500); ("a", VNum 1)]) false d)) = false
  /\ isDirty (fst (setData (inl (_data d)) true d)) = true.
Proof.
  intros d.
  destruct dirty_after_write_and_equal_replace as (_ & Hsame & Hequal & Hself).
  split; [exact (Hsame "a" d)|]. split.
  - exact (proj2 (proj2 (Hequal [("when", VDate 1500); ("a", VNum 1)] false d eq_refl))).
  - exact (proj2 (Hself true d eq_refl)).
Defined.

(** ** Loading *)

(** C4 fails for a document that is not found: [get()] resolves, and the
    document is dirty. *)
Lemma get_not_found_is_dirty :
  let d := existing [("name", VStr "A")] in
  let o := run quiet_store (get FirestoreDocument None false d) in
  result o = inr tt
  /\ _isLoaded (final o) = true
  /\ _exist (final o) = false
  /\ isDirty (final o) = true
  /\ ~ (isDirty (final o) = false /\ _isLoaded (final o) = true).
Proof.
  repeat split. intros [H _]. discriminate H.
Qed.

#[local] Arguments deepEqual : simpl never.

Lemma setData_object (data : object) (updatedAll : bool) (d : Document) :
  setData (inl data) updatedAll d =
    if deepEqual (VObj data) (VObj (_data d)) then
      (with_updatedAll updatedAll (with_updated [] d), false)
    else
      (with_updatedAll updatedAll
         (with_updated []
            (with_data (assign (clear_except_id (_data d)) (undefine_deletes data)) d)),
       true).
Proof. reflexivity. Qed.

(** C4, amended: when [get()], the cache shortcut not taken, resolves on a
    document with a reference, it has read the store once and got a
    snapshot; [isLoaded] is true, [exists] is whether the snapshot found the
    document, and the ledger is empty.  If the document was found, [isDirty]
    is false; if it was not, the full-overwrite flag is set and [isDirty] is
    true.  The data is the deserialized remote state (the class's default
    data if not found), without delete sentinels and placed after the [_id]
    entry of the old data if there was one, unless [deepEqual] finds it equal
    to the old data, which is then kept; in particular the data is exactly
    the deserialized remote state when the old data has no [_id], the remote
    state holds no sentinel and [deepEqual] finds the two different. *)
Theorem get_resolved (cls : DocumentClass) (tx : option transaction)
        (d : Document) (r : DocumentReference) (store : Store) :
  reference d = Some r ->
  result (run store (get cls tx false d)) = inr tt ->
  let d' := final (run store (get cls tx false d)) in
  exists snapshot,
    on_read store (channel_of tx) r = inr snapshot
    /\ calls (run store (get cls tx false d)) = [DidRead (channel_of tx) r]
    /\ _isLoaded d' = true
    /\ _exist d' = snapshot_exists snapshot
    /\ _updated d' = []
    /\ _updatedAll d' = negb (snapshot_exists snapshot)
    /\ isDirty d' = negb (snapshot_exists snapshot)
    /\ _data d' =
         (if deepEqual (VObj (incoming cls snapshot)) (VObj (_data d)) then _data d
          else assign (clear_except_id (_data d))
                      (undefine_deletes (incoming cls snapshot)))
    /\ (forall remote,
           snapshot_data snapshot = Some remote ->
           Js.has (_data d) "_id" = false ->
           (forall k, isDeleteField (Js.get (unserialize remote) k) = false) ->
           deepEqual (VObj (unserialize remote)) (VObj (_data d)) = false ->
           _data d' = unserialize remote).
Proof.
  intros Href Hok d'. subst d'. revert Hok.
  unfold get. simpl. rewrite Href. simpl.
  destruct (on_read store (channel_of tx) r) as [e|snapshot]; [discriminate|].
  intros Hok. exists snapshot. split; [reflexivity|]. revert Hok.
  unfold setDataFromSnapshot, incoming, snapshot_exists.
  destruct (snapshot_data snapshot) as [remote|] eqn:Hsnap.
  - unfold setReference.
    destruct (parseKey (path (snapshot_ref snapshot)) (pathTemplate cls)) as [e|key];
      [discriminate|].
    intros _. rewrite setData_object.
    change (_data (with_key _ _)) with (_data d).
    destruct (deepEqual (VObj (unserialize remote)) (VObj (_data d))) eqn:Heq.
    + repeat (split; [reflexivity|]). intros remote' [= <-] _ _ Hne. congruence.
    + repeat (split; [reflexivity|]). intros remote' [= <-] Hid Hnone _.
      apply replaced_wholesale; [exact Hid | apply unserializeObject_NoDup | exact Hnone].
  - intros _. rewrite setData_object.
    change (_data (with_exist _ _)) with (_data d).
    destruct (deepEqual (VObj (defaultData cls)) (VObj (_data d))) eqn:Heq.
    + repeat (split; [reflexivity|]). intros remote' [=].
    + repeat (split; [reflexivity|]). intros remote' [=].
Qed.

Lemma get_resolved_witness :
  let d := existing [("name", VStr "A")] in
  let o := run (found_store [("name", VStr "B"); ("at", VTimestamp 1 500000000)])
               (get FirestoreDocument None false d) in
  result o = inr tt
  /\ _isLoaded (final o) = true
  /\ _exist (final o) = true
  /\ isDirty (final o) = false
  /\ _data (final o) = [("name", VStr "B"); ("at", VDate 1500)].
Proof.
  intros d o.
  destruct (@get_resolved FirestoreDocument None d users_u1
              (found_store [("name", VStr "B"); ("at", VTimestamp 1 500000000)])
              eq_refl eq_refl)
    as (snapshot & Hread & _ & Hloaded & Hexist & _ & _ & Hdirty & _ & Hdata).
  injection Hread as <-.
  split; [reflexivity|].
  split; [exact Hloaded|].
  split; [exact Hexist|].
  split; [exact Hdirty|].
  apply (Hdata [("name", VStr "B"); ("at", VTimestamp 1 500000000)] eq_refl eq_refl).
  - intros k.
    change (unserialize [("name", VStr "B"); ("at", VTimestamp 1 500000000)])
      with [("name", VStr "B"); ("at", VDate 1500)].
    cbn -[String.eqb].
    destruct (String.eqb "name" k); [reflexivity|].
    destruct (String.eqb "at" k); reflexivity.
  - reflexivity.
Defined.

(** * Further properties *)

(** ** The queue under any interleaving *)

Section QueueRunFacts.

Variables T P : Type.

Local Abbreviation op := (QueueRun.op T P).

(** From a state with only a backlog or only waiters, calls without [clear]
    pair the promises with the items in order. *)
Lemma run_ops_pairs (ops : list op) (backlog : list T) (waiters : list P) :
  forallb (fun o => negb (QueueRun.is_clear o)) ops = true ->
  backlog = [] \/ waiters = [] ->
  let ps := (waiters ++ QueueRun.promises_of ops)%list in
  let xs := (backlog ++ QueueRun.items_of ops)%list in
  let n := Nat.min (List.length ps) (List.length xs) in
  QueueRun.run_ops ops {| AsyncQueue.queue := backlog; AsyncQueue.resolvers := waiters |} =
    ({| AsyncQueue.queue := skipn (List.length ps) xs;
        AsyncQueue.resolvers := skipn (List.length xs) ps |},
     skipn (Nat.min (List.length waiters) (List.length backlog)) (combine ps xs)).
Proof.
  revert backlog waiters; induction ops as [|o ops IH]; intros backlog waiters Hnc Hinv.
  - simpl. rewrite !app_nil_r.
    destruct Hinv as [-> | ->]; simpl.
    + rewrite skipn_all2 by (simpl; lia).
      destruct waiters; reflexivity.
    + rewrite skipn_all2 by (simpl; lia). now destruct backlog.
  - simpl in Hnc. apply andb_true_iff in Hnc. destruct Hnc as [Ho Hnc].
    destruct o as [x|p|]; [| |discriminate].
    + cbn [QueueRun.run_ops QueueRun.step QueueRun.items_of QueueRun.promises_of flat_map app].
      unfold AsyncQueue.enqueue. cbn [AsyncQueue.resolvers AsyncQueue.queue].
      destruct waiters as [|w waiters].
      * rewrite (IH (backlog ++ [x])%list [] Hnc (or_intror eq_refl)).
        cbn [app List.length Nat.min]. rewrite <- !app_assoc. reflexivity.
      * destruct Hinv as [-> | Hw]; [|discriminate].
        rewrite (IH [] waiters Hnc (or_introl eq_refl)).
        cbn [app List.length Nat.min combine skipn]. rewrite Nat.min_0_r.
        reflexivity.
    + cbn [QueueRun.run_ops QueueRun.step QueueRun.items_of QueueRun.promises_of flat_map app].
      unfold AsyncQueue.dequeue. cbn [AsyncQueue.resolvers AsyncQueue.queue].
      destruct backlog as [|b backlog].
      * rewrite (IH [] (waiters ++ [p])%list Hnc (or_introl eq_refl)).
        cbn [app List.length]. rewrite !Nat.min_0_r, <- !app_assoc. reflexivity.
      * destruct Hinv as [Hb | ->]; [discriminate|].
        rewrite (IH backlog [] Hnc (or_intror eq_refl)).
        cbn [app List.length Nat.min combine skipn]. reflexivity.
Qed.

(** X1: whatever the interleaving of [enqueue] and [dequeue] calls on a new
    queue, the k-th promise handed out by [dequeue] is resolved with the
    k-th item enqueued, the resolutions happen in that order, and what is
    left in the queue is the unmatched items or the unmatched promises. *)
Theorem queue_pairs_in_order (ops : list op) :
  forallb (fun o => negb (QueueRun.is_clear o)) ops = true ->
  let ps := QueueRun.promises_of ops in
  let xs := QueueRun.items_of ops in
  QueueRun.run_ops ops (AsyncQueue.new T P) =
    ({| AsyncQueue.queue := skipn (List.length ps) xs;
        AsyncQueue.resolvers := skipn (List.length xs) ps |},
     combine ps xs).
Proof.
  intros Hnc. exact (@run_ops_pairs ops [] [] Hnc (or_introl eq_refl)).
Qed.

(** X2: from a new queue, after any sequence of [enqueue], [dequeue] and
    [clear] calls, the backlog and the list of waiting consumers are never
    both non-empty; so [length] is zero whenever a consumer waits. *)
Theorem queue_backlog_or_waiters (ops : list op) :
  let q := fst (QueueRun.run_ops ops (AsyncQueue.new T P)) in
  (AsyncQueue.queue q = [] \/ AsyncQueue.resolvers q = [])
  /\ (AsyncQueue.resolvers q <> [] -> AsyncQueue.length q = 0%nat).
Proof.
  assert (H : forall ops (q : AsyncQueue.t T P),
             AsyncQueue.queue q = [] \/ AsyncQueue.resolvers q = [] ->
             AsyncQueue.queue (fst (QueueRun.run_ops ops q)) = []
             \/ AsyncQueue.resolvers (fst (QueueRun.run_ops ops q)) = []).
  { clear ops. induction ops as [|o ops IH]; intros q Hinv; [exact Hinv|].
    simpl. destruct (QueueRun.step o q) as [q1 now] eqn:Hstep.
    specialize (IH q1).
    destruct (QueueRun.run_ops ops q1) as [q2 later]. simpl in *. apply IH.
    destruct q as [b w]. simpl in Hinv.
    destruct o as [x|p|]; simpl in Hstep.
    - unfold AsyncQueue.enqueue in Hstep. simpl in Hstep.
      destruct w as [|w0 w]; injection Hstep as <- _; simpl.
      + now right.
      + destruct Hinv as [-> | Hw]; [now left | discriminate].
    - unfold AsyncQueue.dequeue in Hstep. simpl in Hstep.
      destruct b as [|b0 b]; injection Hstep as <- _; simpl.
      + now left.
      + destruct Hinv as [Hb | ->]; [discriminate | now right].
    - injection Hstep as <- _. now left. }
  intros q. assert (Hq := H ops (AsyncQueue.new T P) (or_introl eq_refl)).
  fold q in Hq. split; [exact Hq|].
  intros Hw. destruct Hq as [Hb | Hr]; [|contradiction].
  unfold AsyncQueue.length. now rewrite Hb.
Qed.

End QueueRunFacts.

Lemma queue_pairs_in_order_witness :
  QueueRun.run_ops
    [QueueRun.Dequeue string 1%nat; QueueRun.Enqueue nat "a"; QueueRun.Enqueue nat "b";
     QueueRun.Enqueue nat "c"; QueueRun.Dequeue string 2%nat]
    (AsyncQueue.new string nat) =
    ({| AsyncQueue.queue := ["c"]; AsyncQueue.resolvers := [] |},
     [(1%nat, "a"); (2%nat, "b")]).
Proof.
  exact (@queue_pairs_in_order string nat
           [QueueRun.Dequeue string 1%nat; QueueRun.Enqueue nat "a";
            QueueRun.Enqueue nat "b"; QueueRun.Enqueue nat "c";
            QueueRun.Dequeue string 2%nat] eq_refl).
Defined.

Lemma queue_backlog_or_waiters_witness :
  AsyncQueue.length
    (fst (QueueRun.run_ops
            [QueueRun.Enqueue nat "a"; QueueRun.Dequeue string 1%nat;
             QueueRun.Dequeue string 2%nat]
            (AsyncQueue.new string nat))) = 0%nat.
Proof.
  apply (@queue_backlog_or_waiters string nat
           [QueueRun.Enqueue nat "a"; QueueRun.Dequeue string 1%nat;
            QueueRun.Dequeue string 2%nat]).
  discriminate.
Defined.

(** ** Serialization *)

Section SerializationFacts.

Lemma serializeValue_object (props : object) :
  serializeValue (VObj props) = VObj (serializeObject props).
Proof.
  simpl. f_equal. unfold serializeObject.
  generalize (@nil (string * value)).
  induction props as [|[k x] props IH]; intros acc; simpl; [reflexivity | apply IH].
Qed.

Lemma unserializeValue_object (props : object) :
  unserializeValue (VObj props) = VObj (unserializeObject props).
Proof.
  simpl. f_equal. unfold unserializeObject.
  generalize (@nil (string * value)).
  induction props as [|[k x] props IH]; intros acc; simpl; [reflexivity | apply IH].
Qed.

Lemma NoDup_keys_app_absent (acc o : object) (k : string) (w : value) :
  NoDup (keys (acc ++ (k, w) :: o)%list) -> Js.has acc k = false.
Proof.
  intros Hnd. destruct (Js.has acc k) eqn:E; [|reflexivity].
  apply has_In in E. unfold keys in Hnd. rewrite map_app in Hnd. simpl in Hnd.
  apply NoDup_remove_2 in Hnd. elim Hnd. apply in_or_app. now left.
Qed.

(** With unique keys and no [undefined] field, the loops of
    [serializeObject] and [unserializeObject] go field by field. *)
Lemma serializeObject_map (o acc : object) :
  NoDup (keys (acc ++ o)%list) ->
  Forall (fun kv => is_undefined (snd kv) = false) o ->
  fold_left (fun serialized kv =>
               let value := serializeValue (snd kv) in
               if is_undefined value then serialized
               else Js.set serialized (fst kv) value) o acc =
    (acc ++ map (fun kv => (fst kv, serializeValue (snd kv))) o)%list.
Proof.
  revert acc; induction o as [|[k w] o IH]; intros acc Hnd Hdef; simpl.
  - now rewrite app_nil_r.
  - inversion Hdef as [|? ? Hw Hdef']; subst. simpl in Hw.
    rewrite serializeValue_undefined, Hw.
    rewrite set_absent by (eapply NoDup_keys_app_absent; exact Hnd).
    rewrite IH.
    + now rewrite <- app_assoc.
    + unfold keys in *. rewrite <- app_assoc, map_app in *. simpl in *. exact Hnd.
    + exact Hdef'.
Qed.

Lemma unserializeObject_map (o acc : object) :
  NoDup (keys (acc ++ o)%list) ->
  fold_left (fun unserialized kv =>
               Js.set unserialized (fst kv) (unserializeValue (snd kv))) o acc =
    (acc ++ map (fun kv => (fst kv, unserializeValue (snd kv))) o)%list.
Proof.
  revert acc; induction o as [|[k w] o IH]; intros acc Hnd; simpl.
  - now rewrite app_nil_r.
  - rewrite set_absent by (eapply NoDup_keys_app_absent; exact Hnd).
    rewrite IH.
    + now rewrite <- app_assoc.
    + unfold keys in *. rewrite <- app_assoc, map_app in *. simpl in *. exact Hnd.
Qed.

Lemma toDate_fromDate (ms : Z) :
  unserializeValue (fromDate ms) = VDate ms.
Proof.
  unfold fromDate. simpl. unfold toDate. f_equal.
  replace ((ms mod 1000 * 1000000 + 500000) / 1000000) with (ms mod 1000).
  - pose proof (Z.div_mod ms 1000). lia.
  - apply Z.div_unique with (r := 500000); lia.
Qed.

(** X3: serializing a value and deserializing what the store holds gives the
    value back, dates to the millisecond, for every value without
    [Timestamp] whose objects have no [undefined] field. *)
Theorem unserialize_serialize (v : value) :
  storable v = true -> unserializeValue (serializeValue v) = v.
Proof.
  induction v as [| |b|n|s|ms|s n| |items IH|props IH] using value_nested_ind;
    intros Hs; try reflexivity.
  - apply toDate_fromDate.
  - discriminate.
  - simpl. f_equal. simpl in Hs. rewrite map_map.
    induction IH as [|x items Hx _ IHitems]; [reflexivity|].
    simpl in Hs. apply andb_true_iff in Hs. destruct Hs as [Hsx Hs].
    simpl. rewrite (Hx Hsx). f_equal. now apply IHitems.
  - simpl in Hs. apply andb_true_iff in Hs. destruct Hs as [Hd Hf].
    apply distinct_NoDup in Hd.
    rewrite serializeValue_object. unfold serializeObject.
    rewrite serializeObject_map; [|exact Hd|].
    + simpl app. rewrite unserializeValue_object. unfold unserializeObject.
      rewrite unserializeObject_map.
      * simpl app. rewrite map_map. simpl. f_equal.
        rewrite <- (map_id props) at 2. apply map_ext_in.
        intros [k w] Hin. simpl. f_equal.
        rewrite Forall_forall in IH. apply (IH (k, w) Hin).
        rewrite forallb_forall in Hf. specialize (Hf (k, w) Hin). simpl in Hf.
        now apply andb_true_iff in Hf.
      * simpl app. unfold keys. rewrite map_map. simpl. exact Hd.
    + apply Forall_forall. intros [k w] Hin.
      rewrite forallb_forall in Hf. specialize (Hf (k, w) Hin). simpl in *.
      apply andb_true_iff in Hf. destruct Hf as [Hu _].
      now apply negb_true_iff in Hu.
Qed.

Lemma unserialize_serialize_witness :
  let v := VObj [("name", VStr "A");
                 ("seen", VArr [VDate 1500; VDate (-1)]);
                 ("at", VObj [("when", VDate 1700000000123)])] in
  unserializeValue (serializeValue v) = v.
Proof.
  intros v. exact (@unserialize_serialize v eq_refl).
Defined.

Lemma serializeObject_loop_has (o acc : object) (k : string) :
  Js.has (fold_left (fun serialized kv =>
                       let value := serializeValue (snd kv) in
                       if is_undefined value then serialized
                       else Js.set serialized (fst kv) value) o acc) k =
    Js.has acc k
    || existsb (fun kv => String.eqb (fst kv) k && negb (is_undefined (snd kv))) o.
Proof.
  revert acc; induction o as [|[k' w] o IH]; intros acc; simpl.
  - now rewrite orb_false_r.
  - rewrite IH, serializeValue_undefined.
    destruct (is_undefined w); simpl.
    + now rewrite andb_false_r.
    + rewrite has_set, andb_true_r.
      now destruct (String.eqb k' k), (Js.has acc k).
Qed.

Lemma serializeObject_loop_get (o acc : object) (k : string) :
  NoDup (keys o) ->
  Js.get (fold_left (fun serialized kv =>
                       let value := serializeValue (snd kv) in
                       if is_undefined value then serialized
                       else Js.set serialized (fst kv) value) o acc) k =
    if Js.has o k && negb (is_undefined (Js.get o k))
    then serializeValue (Js.get o k) else Js.get acc k.
Proof.
  revert acc; induction o as [|[k' w] o IH]; intros acc Hnd; simpl; [reflexivity|].
  inversion Hnd as [|? ? Hk Hnd']; subst.
  rewrite (IH _ Hnd'), serializeValue_undefined.
  destruct (String.eqb_spec k' k) as [->|Hne].
  - assert (Habs : Js.has o k = false).
    { destruct (Js.has o k) eqn:E; [|reflexivity]. apply has_In in E. contradiction. }
    rewrite Habs. simpl.
    destruct (is_undefined w); simpl; [reflexivity | apply get_set_same].
  - destruct (Js.has o k && negb (is_undefined (Js.get o k))); [reflexivity|].
    destruct (is_undefined w); [reflexivity | now apply get_set_other].
Qed.

Lemma existsb_defined_entry (o : object) (k : string) :
  NoDup (keys o) ->
  existsb (fun kv => String.eqb (fst kv) k && negb (is_undefined (snd kv))) o =
    Js.has o k && negb (is_undefined (Js.get o k)).
Proof.
  induction o as [|[k' w] o IH]; intros Hnd; simpl; [reflexivity|].
  inversion Hnd as [|? ? Hk Hnd']; subst. rewrite (IH Hnd').
  destruct (String.eqb_spec k' k) as [->|Hne]; simpl; [|reflexivity].
  assert (Habs : Js.has o k = false).
  { destruct (Js.has o k) eqn:E; [|reflexivity]. apply has_In in E. contradiction. }
  rewrite Habs. simpl. now rewrite orb_false_r.
Qed.

Lemma get_remove_same (o : object) (k : string) : Js.get (Js.remove o k) k = VUndefined.
Proof.
  apply get_absent. rewrite has_remove, String.eqb_refl. reflexivity.
Qed.

Lemma NoDup_keys_remove (o : object) (k : string) :
  NoDup (keys o) -> NoDup (keys (Js.remove o k)).
Proof.
  intros Hnd. rewrite remove_filter. unfold keys.
  induction o as [|[k' w] o IH]; simpl; [constructor|].
  inversion Hnd as [|? ? Hk Hnd']; subst.
  destruct (negb (String.eqb k' k)); simpl; [|now apply IH].
  constructor; [|now apply IH].
  intros Hin. apply Hk. apply in_map_iff in Hin. destruct Hin as ([k2 w2] & E & Hin).
  apply filter_In in Hin. simpl in E. subst k2.
  apply in_map_iff. exists (k', w2). split; [reflexivity | apply Hin].
Qed.

(** X4: the payload of a full write, for data with unique keys: one entry
    per field, never the field [_id], never a field whose value is
    [undefined], and every other field of the data with the serialization of
    its value. *)
Theorem full_payload_fields (data : object) :
  NoDup (keys data) ->
  let saveData := serialize data None in
  NoDup (keys saveData)
  /\ Js.has saveData "_id" = false
  /\ (forall k, Js.has saveData k =
                negb (String.eqb k "_id") && Js.has data k
                && negb (is_undefined (Js.get data k)))
  /\ (forall k, Js.has saveData k = true ->
                Js.get saveData k = serializeValue (Js.get data k)
                /\ Js.get saveData k <> VUndefined).
Proof.
  intros Hnd saveData.
  assert (Hrest := @NoDup_keys_remove data "_id" Hnd).
  assert (Hhas : forall k, Js.has saveData k =
                           negb (String.eqb k "_id") && Js.has data k
                           && negb (is_undefined (Js.get data k))).
  { intros k. unfold saveData, serialize, serializeObject.
    rewrite serializeObject_loop_has, existsb_defined_entry by exact Hrest. simpl.
    rewrite has_remove, (String.eqb_sym "_id" k).
    destruct (String.eqb_spec k "_id") as [->|Hne]; simpl; [reflexivity|].
    now rewrite get_remove_other by congruence. }
  split.
  { unfold saveData, serialize, serializeObject.
    assert (H : forall o acc,
               NoDup (keys acc) ->
               NoDup (keys (fold_left
                              (fun serialized kv =>
                                 let value := serializeValue (snd kv) in
                                 if is_undefined value then serialized
                                 else Js.set serialized (fst kv) value) o acc))).
    { induction o as [|kv o IH]; intros acc Hacc; simpl; [exact Hacc|].
      apply IH. destruct (is_undefined _); [exact Hacc | now apply NoDup_keys_set]. }
    apply H. constructor. }
  split; [now rewrite Hhas|]. split; [exact Hhas|].
  intros k Hk. rewrite Hhas in Hk.
  apply andb_true_iff in Hk. destruct Hk as [Hk Hdef].
  apply andb_true_iff in Hk. destruct Hk as [Hid Hin].
  apply negb_true_iff in Hid. apply negb_true_iff in Hdef.
  assert (Hne : "_id" <> k).
  { intros <-. now rewrite String.eqb_refl in Hid. }
  assert (Hget : Js.get saveData k = serializeValue (Js.get data k)).
  { unfold saveData, serialize, serializeObject.
    rewrite serializeObject_loop_get by exact Hrest.
    rewrite has_remove, get_remove_other by exact Hne.
    replace (String.eqb "_id" k) with false
      by (symmetry; now apply String.eqb_neq).
    simpl. now rewrite Hin, Hdef. }
  split; [exact Hget|].
  rewrite Hget. intros Hu. apply is_undefined_spec in Hu.
  rewrite serializeValue_undefined in Hu. congruence.
Qed.

Lemma full_payload_fields_witness :
  let data := [("_id", VStr "u1"); ("name", VStr "A"); ("gone", VUndefined);
               ("at", VDate 1500)] in
  Js.has (serialize data None) "_id" = false
  /\ Js.has (serialize data None) "gone" = false
  /\ Js.get (serialize data None) "at" = VTimestamp 1 500000000.
Proof.
  intros data.
  assert (Hnd : NoDup (keys data)) by (apply distinct_NoDup; reflexivity).
  destruct (@full_payload_fields data Hnd) as (_ & Hid & Hhas & Hget).
  split; [exact Hid|]. split; [exact (Hhas "gone")|].
  exact (proj1 (Hget "at" eq_refl)).
Defined.

End SerializationFacts.

(** ** Deep equality of objects *)

Section DeepEqualObjects.

Lemma deepEqual_undefined_r (v : value) : deepEqual v VUndefined = is_undefined v.
Proof. destruct v as [| |b|n|s|ms|s n| |items|props]; reflexivity. Qed.

Lemma has_entry (o : object) (k : string) :
  Js.has o k = true -> In (k, Js.get o k) o.
Proof.
  induction o as [|[k' w] o IH]; simpl; [discriminate|].
  destruct (String.eqb_spec k' k) as [->|Hne]; [now left | intros H; right; auto].
Qed.

Lemma get_entry (o : object) (k : string) (v : value) :
  NoDup (keys o) -> In (k, v) o -> Js.get o k = v.
Proof.
  induction o as [|[k' w] o IH]; intros Hnd Hin; [contradiction|].
  inversion Hnd as [|? ? Hk Hnd']; subst. simpl.
  destruct Hin as [[= -> ->] | Hin].
  - now rewrite String.eqb_refl.
  - destruct (String.eqb_spec k' k) as [->|Hne]; [|now apply IH].
    elim Hk. apply in_map_iff. now exists (k, v).
Qed.

(** X5: for two objects with unique keys, the first without [undefined]
    field, [deepEqual] holds exactly when they have the same keys and
    [deepEqual] holds of their values at every key: the order of the keys
    does not count, and no field of either is left out of the comparison. *)
Theorem deepEqual_objects_iff (p q : object) :
  NoDup (keys p) ->
  NoDup (keys q) ->
  (forall k, Js.has p k = true -> Js.get p k <> VUndefined) ->
  deepEqual (VObj p) (VObj q) = true <->
  (forall k, Js.has p k = Js.has q k)
  /\ (forall k, Js.has p k = true -> deepEqual (Js.get p k) (Js.get q k) = true).
Proof.
  intros Hp Hq Hdef. rewrite deepEqual_objects, andb_true_iff, Nat.eqb_eq.
  rewrite forallb_forall. split.
  - intros [Hlen Hall].
    assert (Hval : forall k, Js.has p k = true ->
                             deepEqual (Js.get p k) (Js.get q k) = true).
    { intros k Hk. exact (Hall _ (@has_entry p k Hk)). }
    assert (Hin : incl (keys p) (keys q)).
    { intros k Hk. apply has_In in Hk. apply has_In.
      destruct (Js.has q k) eqn:E; [reflexivity|].
      specialize (Hval k Hk). rewrite (@get_absent q k E) in Hval.
      rewrite deepEqual_undefined_r in Hval. apply is_undefined_spec in Hval.
      now elim (Hdef k Hk). }
    assert (Hback : incl (keys q) (keys p)).
    { apply NoDup_length_incl; [exact Hp | lia | exact Hin]. }
    split; [|exact Hval].
    intros k. destruct (Js.has p k) eqn:E1, (Js.has q k) eqn:E2; try reflexivity.
    + apply has_In, Hin, has_In in E1. congruence.
    + apply has_In, Hback, has_In in E2. congruence.
  - intros [Hkeys Hval]. split.
    + apply Permutation_length, NoDup_Permutation; [exact Hp | exact Hq |].
      intros k. rewrite <- !has_In, Hkeys. reflexivity.
    + intros [k v] Hin. simpl.
      assert (Hk : Js.has p k = true).
      { apply has_In, in_map_iff. now exists (k, v). }
      rewrite <- (@get_entry p k v Hp Hin). now apply Hval.
Qed.

Lemma deepEqual_objects_iff_witness :
  deepEqual (VObj [("a", VNum 1); ("d", VDate 5)]) (VObj [("d", VDate 5); ("a", VNum 1)])
  = true.
Proof.
  apply (@deepEqual_objects_iff [("a", VNum 1); ("d", VDate 5)]
           [("d", VDate 5); ("a", VNum 1)]).
  - apply distinct_NoDup. reflexivity.
  - apply distinct_NoDup. reflexivity.
  - intros k. cbn -[String.eqb].
    destruct (String.eqb "a" k); [discriminate|].
    destruct (String.eqb "d" k); discriminate.
  - split.
    + intros k. cbn -[String.eqb].
      now destruct (String.eqb "a" k), (String.eqb "d" k).
    + intros k. cbn -[String.eqb deepEqual].
      destruct (String.eqb "a" k) eqn:Ea.
      * apply String.eqb_eq in Ea. subst k. reflexivity.
      * destruct (String.eqb "d" k) eqn:Ed; [|discriminate].
        apply String.eqb_eq in Ed. subst k. reflexivity.
Defined.



End DeepEqualObjects.

(** ** Reading a document *)


(** ** Saving *)

Section SaveFacts.

Variable cls : DocumentClass.
Hypothesis Hhook : keeps_beforeSave cls.

(** [save], call by call, for a class that keeps the base hook. *)
Lemma save_task (force : bool) (tx : option transaction) (d : Document)
      (r : DocumentReference) :
  reference d = Some r ->
  save cls force tx d =
    if _exist d && negb force && negb (_updatedAll d) then
      if Nat.eqb (List.length (_updated d)) 0 then Return d tt
      else issue StoreUpdate tx (serialize (_data d) (Some (_updated d))) d
    else issue StoreSet tx (serialize (_data d) None) d.
Proof.
  intros Href. unfold save, update, set. rewrite Href, Hhook.
  destruct (_exist d && negb force && negb (_updatedAll d)); [|reflexivity].
  now destruct (Nat.eqb (List.length (_updated d)) 0).
Qed.

Lemma run_issue (op : DocumentReference -> object -> write) (tx : option transaction)
      (saveData : object) (d : Document) (r : DocumentReference) (store : Store) :
  reference d = Some r ->
  run store (issue op tx saveData d) =
    match on_write store (channel_of tx) (op r saveData) with
    | Some e => {| final := d; result := inl e;
                   calls := [DidWrite (channel_of tx) (op r saveData)] |}
    | None => {| final := afterSave d; result := inr tt;
                 calls := [DidWrite (channel_of tx) (op r saveData)] |}
    end.
Proof.
  intros Href. unfold issue. rewrite Href. simpl.
  now destruct (on_write store (channel_of tx) (op r saveData)).
Qed.

End SaveFacts.

(** X8: which call [save] makes, on a document with a reference whose class
    keeps the base hook: with [force], or on a document that does not exist
    or has the full-overwrite flag, one full write of the whole data; else
    one partial update of the ledger's fields, and no call at all when the
    ledger is empty. *)
Theorem save_dispatch (cls : DocumentClass) (force : bool) (tx : option transaction)
        (d : Document) (r : DocumentReference) (store : Store) :
  keeps_beforeSave cls ->
  reference d = Some r ->
  calls (run store (save cls force tx d)) =
    if force || negb (_exist d) || _updatedAll d then
      [DidWrite (channel_of tx) (StoreSet r (serialize (_data d) None))]
    else
      match _updated d with
      | [] => []
      | _ :: _ =>
          [DidWrite (channel_of tx)
                    (StoreUpdate r (serialize (_data d) (Some (_updated d))))]
      end.
Proof.
  intros Hhook Href. rewrite (@save_task cls Hhook force tx d r Href).
  destruct force, (_exist d), (_updatedAll d); simpl;
    try (rewrite (@run_issue _ tx _ d r store Href); now destruct (on_write _ _ _)).
  destruct (_updated d); simpl; [reflexivity|].
  rewrite (@run_issue _ tx _ d r store Href). now destruct (on_write _ _ _).
Qed.

Lemma save_dispatch_witness :
  calls (run quiet_store (save FirestoreDocument true None renamed)) =
    [DidWrite Direct (StoreSet users_u1 [("name", VStr "B")])]
  /\ calls (run quiet_store (save FirestoreDocument false None renamed)) =
       [DidWrite Direct (StoreUpdate users_u1 [("name", VStr "B")])]
  /\ calls (run quiet_store
                (save FirestoreDocument false None (existing [("name", VStr "A")]))) = [].
Proof.
  split; [|split].
  - exact (@save_dispatch FirestoreDocument true None renamed users_u1 quiet_store
             base_keeps_beforeSave eq_refl).
  - exact (@save_dispatch FirestoreDocument false None renamed users_u1 quiet_store
             base_keeps_beforeSave eq_refl).
  - exact (@save_dispatch FirestoreDocument false None (existing [("name", VStr "A")])
             users_u1 quiet_store base_keeps_beforeSave eq_refl).
Defined.

(** X9: when the store accepts the writes, [save] resolves and leaves the
    document clean and existing, with the data and the reference it had; a
    [save()] that follows makes no call. *)
Theorem save_accepted (cls : DocumentClass) (force : bool) (tx : option transaction)
        (d : Document) (r : DocumentReference) (store : Store) :
  keeps_beforeSave cls ->
  reference d = Some r ->
  (forall w, on_write store (channel_of tx) w = None) ->
  let o := run store (save cls force tx d) in
  result o = inr tt
  /\ isDirty (final o) = false
  /\ _exist (final o) = true
  /\ _data (final o) = _data d
  /\ reference (final o) = Some r
  /\ forall tx' store', calls (run store' (save cls false tx' (final o))) = [].
Proof.
  intros Hhook Href Hacc o.
  assert (Hclean : forall d', reference d' = Some r -> isDirty d' = false ->
                              _exist d' = true ->
                              forall tx' store',
                                calls (run store' (save cls false tx' d')) = []).
  { intros d' Hr' Hd' He' tx' store'. rewrite (@save_dispatch cls false tx' d' r store' Hhook Hr').
    unfold isDirty in Hd'. apply orb_false_iff in Hd'. destruct Hd' as [Hl Hf].
    rewrite He', Hf. simpl. destruct (_updated d'); [reflexivity | discriminate]. }
  subst o. rewrite (@save_task cls Hhook force tx d r Href).
  destruct (_exist d && negb force && negb (_updatedAll d)) eqn:Hup.
  - apply andb_true_iff in Hup. destruct Hup as [Hup Hflag].
    apply andb_true_iff in Hup. destruct Hup as [Hex _].
    apply negb_true_iff in Hflag.
    destruct (Nat.eqb (List.length (_updated d)) 0) eqn:Hlen.
    + simpl. apply Nat.eqb_eq in Hlen.
      assert (Hd : isDirty d = false) by (unfold isDirty; now rewrite Hlen, Hflag).
      repeat (split; [assumption || reflexivity|]). now apply Hclean.
    + rewrite (@run_issue _ tx _ d r store Href), Hacc. simpl.
      repeat (split; [assumption || reflexivity|]). now apply Hclean.
  - rewrite (@run_issue _ tx _ d r store Href), Hacc. simpl.
    repeat (split; [assumption || reflexivity|]). now apply Hclean.
Qed.

Lemma save_accepted_witness :
  let o := run quiet_store (save FirestoreDocument false None renamed) in
  result o = inr tt
  /\ isDirty (final o) = false
  /\ _data (final o) = [("name", VStr "B")]
  /\ calls (run quiet_store (save FirestoreDocument false None (final o))) = [].
Proof.
  intros o.
  destruct (@save_accepted FirestoreDocument false None renamed users_u1 quiet_store
              base_keeps_beforeSave eq_refl (fun _ => eq_refl))
    as (Hres & Hdirty & _ & Hdata & _ & Hagain).
  split; [exact Hres|]. split; [exact Hdirty|]. split; [exact Hdata|].
  exact (Hagain None quiet_store).
Defined.



(** X11: a document deleted and then saved is written again in full: after
    an accepted [delete()], [save()] without [force] sends one full write
    of the whole data, not a partial update, whatever the ledger holds. *)
Theorem save_after_delete (cls : DocumentClass) (tx tx' : option transaction)
        (d : Document) (r : DocumentReference) (store : Store) :
  keeps_beforeSave cls ->
  reference d = Some r ->
  _exist d = true ->
  on_write store (channel_of tx) (StoreDelete r) = None ->
  let deleted := final (run store (delete tx d)) in
  _exist deleted = false
  /\ _data deleted = _data d
  /\ _updated deleted = _updated d
  /\ calls (run store (save cls false tx' deleted)) =
       [DidWrite (channel_of tx') (StoreSet r (serialize (_data d) None))].
Proof.
  intros Hhook Href Hex Hacc deleted.
  assert (Hdel : deleted = with_exist false d).
  { unfold deleted, delete. rewrite Href, Hex. simpl. now rewrite Hacc. }
  rewrite Hdel. repeat (split; [reflexivity|]).
  rewrite (@save_dispatch cls false tx' (with_exist false d) r store Hhook Href).
  reflexivity.
Qed.

Lemma save_after_delete_witness :
  let deleted := final (run quiet_store (delete None renamed)) in
  calls (run quiet_store (save FirestoreDocument false None deleted)) =
    [DidWrite Direct (StoreSet users_u1 [("name", VStr "B")])].
Proof.
  intros deleted.
  exact (proj2 (proj2 (proj2
           (@save_after_delete FirestoreDocument None None renamed users_u1 quiet_store
              base_keeps_beforeSave eq_refl eq_refl eq_refl)))).
Defined.

(** ** Replacing the data, field by field *)

Section SetDataFacts.

Implicit Types (o data t s : object) (k key : string).

Lemma assign_has t s k : Js.has (assign t s) k = Js.has t k || Js.has s k.
Proof.
  unfold assign. revert t; induction s as [|[k' w] s IH]; intros t; simpl.
  - now rewrite orb_false_r.
  - rewrite IH, has_set. now destruct (String.eqb k' k), (Js.has t k).
Qed.

Lemma assign_get t s k :
  NoDup (keys s) ->
  Js.get (assign t s) k = if Js.has s k then Js.get s k else Js.get t k.
Proof.
  unfold assign. revert t; induction s as [|[k' w] s IH]; intros t Hnd; simpl;
    [reflexivity|].
  inversion Hnd as [|? ? Hk Hnd']; subst. rewrite (IH _ Hnd').
  destruct (String.eqb_spec k' k) as [->|Hne].
  - assert (Habs : Js.has s k = false).
    { destruct (Js.has s k) eqn:E; [|reflexivity]. apply has_In in E. contradiction. }
    rewrite Habs. apply get_set_same.
  - destruct (Js.has s k); [reflexivity | now apply get_set_other].
Qed.

Lemma undefine_loop data (ks : list string) :
  (forall key, In key ks -> Js.has data key = true) ->
  let data' :=
    fold_left (fun data key =>
                 if isDeleteField (Js.get data key) then Js.set data key VUndefined
                 else data) ks data in
  keys data' = keys data
  /\ forall k, Js.get data' k =
               if existsb (String.eqb k) ks then stored (Js.get data k)
               else Js.get data k.
Proof.
  revert data; induction ks as [|key ks IH]; intros data Hin; simpl; [now split|].
  set (data1 := if isDeleteField (Js.get data key)
                then Js.set data key VUndefined else data).
  assert (Hkeys1 : keys data1 = keys data).
  { unfold data1. destruct (isDeleteField _); [|reflexivity].
    rewrite keys_set, Hin; [reflexivity | now left]. }
  assert (Hin1 : forall key', In key' ks -> Js.has data1 key' = true).
  { intros key' H. apply has_In. rewrite Hkeys1. apply has_In, Hin. now right. }
  destruct (IH data1 Hin1) as [Hkeys Hget]. split; [congruence|].
  intros k. rewrite Hget. unfold data1, stored.
  destruct (String.eqb_spec k key) as [->|Hne]; simpl.
  - destruct (isDeleteField (Js.get data key)) eqn:E.
    + rewrite get_set_same. simpl. now destruct (existsb _ ks).
    + rewrite E. now destruct (existsb _ ks).
  - destruct (isDeleteField (Js.get data key)); [|reflexivity].
    rewrite get_set_other by congruence. reflexivity.
Qed.

Lemma undefine_deletes_keys data : keys (undefine_deletes data) = keys data.
Proof.
  unfold undefine_deletes. apply undefine_loop. intros key. apply has_In.
Qed.

Lemma undefine_deletes_get data k :
  Js.get (undefine_deletes data) k = stored (Js.get data k).
Proof.
  unfold undefine_deletes.
  destruct (@undefine_loop data (keys data) (fun key => proj2 (has_In data key)))
    as [_ Hget].
  rewrite Hget, <- has_existsb.
  destruct (Js.has data k) eqn:E; [reflexivity|].
  now rewrite (@get_absent data k E).
Qed.

Lemma has_keys_eq o o' k : keys o = keys o' -> Js.has o k = Js.has o' k.
Proof. intros E. now rewrite !has_existsb, E. Qed.

Lemma clear_except_id_has o k :
  Js.has (clear_except_id o) k = String.eqb k "_id" && Js.has o k.
Proof.
  rewrite clear_except_id_filter.
  induction o as [|[k' w] o IH]; cbn -[String.eqb]; [now rewrite andb_false_r|].
  destruct (String.eqb_spec k' "_id") as [->|Hne]; cbn -[String.eqb]; rewrite IH.
  - destruct (String.eqb_spec "_id" k) as [<-|Hk]; [reflexivity|].
    destruct (String.eqb_spec k "_id"); [congruence | reflexivity].
  - destruct (String.eqb_spec k' k) as [->|Hk]; [|reflexivity].
    destruct (String.eqb_spec k "_id"); [contradiction | reflexivity].
Qed.

Lemma clear_except_id_get o k :
  Js.get (clear_except_id o) k = if String.eqb k "_id" then Js.get o k else VUndefined.
Proof.
  rewrite clear_except_id_filter.
  induction o as [|[k' w] o IH]; cbn -[String.eqb];
    [now destruct (String.eqb k "_id")|].
  destruct (String.eqb_spec k' "_id") as [->|Hne]; cbn -[String.eqb]; rewrite IH.
  - destruct (String.eqb_spec "_id" k) as [<-|Hk]; [reflexivity|].
    destruct (String.eqb_spec k "_id"); [congruence | reflexivity].
  - destruct (String.eqb_spec k' k) as [->|Hk]; [|reflexivity].
    destruct (String.eqb_spec k "_id"); [contradiction | reflexivity].
Qed.

(** The fields after the replacement made by [setData]. *)
Lemma replaced_fields o data k :
  NoDup (keys data) ->
  Js.has (assign (clear_except_id o) (undefine_deletes data)) k =
    Js.has data k || String.eqb k "_id" && Js.has o k
  /\ Js.get (assign (clear_except_id o) (undefine_deletes data)) k =
       if Js.has data k then stored (Js.get data k)
       else if String.eqb k "_id" then Js.get o k else VUndefined.
Proof.
  intros Hnd. split.
  - rewrite assign_has, clear_except_id_has,
      (@has_keys_eq (undefine_deletes data) data k (undefine_deletes_keys data)).
    apply orb_comm.
  - rewrite assign_get by (rewrite undefine_deletes_keys; exact Hnd).
    rewrite (@has_keys_eq (undefine_deletes data) data k (undefine_deletes_keys data)).
    now rewrite undefine_deletes_get, clear_except_id_get.
Qed.

End SetDataFacts.



(** ** Constructing a document *)

Section ConstructionFacts.

Variable cls : DocumentClass.
Variable defaultKey : option Key.

Lemma keyed_blank : keyed blank.
Proof. repeat split. Qed.

Lemma setReference_keyed (ref : DocumentReference) (d d' : Document) :
  keyed d -> setReference cls ref d = Normal d' tt ->
  keyed d' /\ reference d' = Some ref.
Proof.
  unfold setReference. intros Hk.
  destruct (parseKey (path ref) (pathTemplate cls)); [discriminate|].
  intros [= <-]. split; [exact Hk | reflexivity].
Qed.


Lemma deepEqual_empty (o : object) :
  deepEqual (VObj o) (VObj []) = match o with [] => true | _ :: _ => false end.
Proof. rewrite deepEqual_objects. now destruct o. Qed.

(** The data that [setData] leaves in an object whose data was empty. *)
Lemma setData_on_empty (o : object) (updatedAll : bool) (d : Document) :
  NoDup (keys o) ->
  _data d = [] ->
  let d' := fst (setData (inl o) updatedAll d) in
  _updated d' = [] /\ _updatedAll d' = updatedAll
  /\ _exist d' = _exist d /\ _isLoaded d' = _isLoaded d
  /\ reference d' = reference d /\ _unwatch d' = _unwatch d
  /\ forall k, Js.has (_data d') k = Js.has o k
               /\ Js.get (_data d') k = stored (Js.get o k).
Proof.
  intros Hnd Hempty d'. unfold d'. rewrite setData_object, Hempty, deepEqual_empty.
  destruct o as [|kv o];
    cbn [fst with_updatedAll with_updated with_data _data _updated _updatedAll
         _exist _isLoaded reference _unwatch].
  - rewrite Hempty. do 6 (split; [reflexivity|]). intros k. now split.
  - do 6 (split; [reflexivity|]). intros k.
    destruct (@replaced_fields [] (kv :: o) k Hnd) as [Hhas Hget].
    rewrite Hhas, Hget.
    replace (Js.has [] k) with false by reflexivity.
    rewrite andb_false_r, orb_false_r.
    split; [reflexivity|].
    destruct (Js.has (kv :: o) k) eqn:E; [reflexivity|].
    rewrite (@get_absent (kv :: o) k E). now destruct (String.eqb k "_id").
Qed.


(** X14: a document constructed from a reference and a query snapshot, as
    existing (what a collection does for every document of a result),
    exists, is clean and bound to that reference, and holds the
    deserialized fields of the snapshot. *)
Theorem construct_from_snapshot (ref : DocumentReference) (snapshot : DocumentSnapshot)
        (remote : object) (d : Document) :
  snapshot_data snapshot = Some remote ->
  construct cls defaultKey (Some (inl ref)) (Some (inr snapshot)) true = Normal d tt ->
  _exist d = true
  /\ isDirty d = false
  /\ reference d = Some ref
  /\ forall k, Js.has (_data d) k = Js.has (unserialize remote) k
               /\ Js.get (_data d) k = stored (Js.get (unserialize remote) k).
Proof.
  intros Hsnap. unfold construct. cbv beta iota zeta.
  destruct (setReference cls ref blank) as [d0 []|d0 e] eqn:Hkeyed; [|discriminate].
  intros [= <-].
  destruct (setReference_keyed ref keyed_blank Hkeyed)
    as ((Hd & He & Hl & Hu & Hf & Hq & Hw) & Href).
  assert (Hsame : setData (inr snapshot) false (with_exist true d0) =
                  setData (inl (unserialize remote)) false (with_exist true d0)).
  { unfold setData, structuredClone. now rewrite Hsnap. }
  rewrite Hsame.
  destruct (@setData_on_empty (unserialize remote) false (with_exist true d0)
              (unserializeObject_NoDup remote) Hd)
    as (Hu' & Hf' & He' & Hl' & Hr' & Hw' & Hfields).
  split; [exact He'|].
  split; [unfold isDirty; now rewrite Hu', Hf'|].
  split; [now rewrite Hr'|]. exact Hfields.
Qed.

(** X15: the listener of [watch], called with a pushed snapshot: the
    document takes the pushed state as [get()] does, so its ledger is
    emptied and pending local changes are dropped; the caller's callback is
    called exactly when the pushed document exists; [isLoaded] and the
    listener are as before. *)
Theorem push_replaces_local_state (l : Listener) (snapshot : DocumentSnapshot)
        (d d' : Document) (called : option nat) :
  on_snapshot cls l snapshot d = Normal d' called ->
  _exist d' = snapshot_exists snapshot
  /\ _updated d' = []
  /\ isDirty d' = negb (snapshot_exists snapshot)
  /\ called = (if snapshot_exists snapshot then callback l else None)
  /\ _isLoaded d' = _isLoaded d
  /\ _unwatch d' = _unwatch d
  /\ _data d' =
       (if deepEqual (VObj (incoming cls snapshot)) (VObj (_data d)) then _data d
        else assign (clear_except_id (_data d))
                    (undefine_deletes (incoming cls snapshot))).
Proof.
  unfold on_snapshot, setDataFromSnapshot, incoming, snapshot_exists.
  destruct (snapshot_data snapshot) as [remote|].
  - unfold setReference.
    destruct (parseKey (path (snapshot_ref snapshot)) (pathTemplate cls)) as [e|key];
      [discriminate|].
    rewrite setData_object. change (_data (with_key _ _)) with (_data d).
    destruct (deepEqual (VObj (unserialize remote)) (VObj (_data d)));
      intros [= <- <-]; repeat split.
  - rewrite setData_object. change (_data (with_exist _ _)) with (_data d).
    destruct (deepEqual (VObj (defaultData cls)) (VObj (_data d)));
      intros [= <- <-]; repeat split.
Qed.

End ConstructionFacts.


Lemma construct_from_snapshot_witness :
  exists d,
    construct FirestoreDocument None (Some (inl users_u1))
              (Some (inr {| snapshot_ref := users_u1;
                            snapshot_data := Some [("at", VTimestamp 1 500000000)] |}))
              true = Normal d tt
    /\ isDirty d = false
    /\ Js.get (_data d) "at" = VDate 1500.
Proof.
  eexists. split; [reflexivity|].
  destruct (@construct_from_snapshot FirestoreDocument None users_u1
              {| snapshot_ref := users_u1;
                 snapshot_data := Some [("at", VTimestamp 1 500000000)] |}
              [("at", VTimestamp 1 500000000)] _ eq_refl eq_refl)
    as (_ & Hdirty & _ & Hfields).
  split; [exact Hdirty | exact (proj2 (Hfields "at"))].
Defined.

Lemma push_replaces_local_state_witness :
  exists d',
    on_snapshot FirestoreDocument {| listens_to := users_u1; callback := Some 1%nat |}
                {| snapshot_ref := users_u1; snapshot_data := Some [("name", VStr "C")] |}
                renamed = Normal d' (Some 1%nat)
    /\ _updated renamed = [("name", VStr "A")]
    /\ _updated d' = []
    /\ isDirty d' = false.
Proof.
  eexists. split; [reflexivity|]. split; [reflexivity|].
  destruct (@push_replaces_local_state FirestoreDocument
              {| listens_to := users_u1; callback := Some 1%nat |}
              {| snapshot_ref := users_u1; snapshot_data := Some [("name", VStr "C")] |}
              renamed _ (Some 1%nat) eq_refl)
    as (_ & Hu & Hdirty & _).
  split; [exact Hu | exact Hdirty].
Defined.

(** ** Chunks *)

Section ChunkFacts.

Variable A : Type.

Lemma firstn_then_more (a b : nat) (l : list A) :
  (firstn a l ++ firstn b (skipn a l))%list = firstn (a + b) l.
Proof.
  revert l; induction a as [|a IH]; intros l; [reflexivity|].
  destruct l as [|x l]; simpl.
  - now rewrite firstn_nil.
  - now rewrite IH.
Qed.

Lemma slice_width (i size : nat) (l : list A) :
  slice (i * size) ((i + 1) * size) l = firstn size (skipn (i * size) l).
Proof. unfold slice. f_equal. lia. Qed.

Lemma concat_slices (size n : nat) (l : list A) :
  List.concat (map (fun i => slice (i * size) ((i + 1) * size) l) (seq 0 n)) =
    firstn (n * size) l.
Proof.
  induction n as [|n IH]; [reflexivity|].
  rewrite seq_S, map_app, concat_app, IH. simpl.
  rewrite app_nil_r, slice_width, firstn_then_more. f_equal. lia.
Qed.

Lemma ceil_bounds (len size : nat) :
  (0 < size)%nat ->
  let n := Nat.div (len + size - 1) size in
  (len <= n * size)%nat /\ (forall i, (i < n)%nat -> (i * size < len)%nat).
Proof.
  intros Hsize n.
  pose proof (Nat.div_mod (len + size - 1) size ltac:(lia)) as Hdm.
  pose proof (Nat.mod_upper_bound (len + size - 1) size ltac:(lia)) as Hmod.
  fold n in Hdm. split; [nia|].
  intros i Hi. nia.
Qed.

(** X16: for a size that is not zero, the chunks of an array put end to end
    are the array; there are [ceil(length / size)] of them, each of at least
    one and at most [size] elements, and each but the last of [size]
    elements exactly.  An empty array has no chunk. *)
Theorem chunk_partitions (array : list A) (size : nat) :
  (0 < size)%nat ->
  List.concat (chunk array size) = array
  /\ List.length (chunk array size) = Nat.div (List.length array + size - 1) size
  /\ Forall (fun c => (1 <= List.length c <= size)%nat) (chunk array size)
  /\ (forall i, (S i < List.length (chunk array size))%nat ->
                List.length (nth i (chunk array size) []) = size)
  /\ (array = [] -> chunk array size = []).
Proof.
  intros Hsize. unfold chunk.
  set (n := Nat.div (List.length array + size - 1) size).
  destruct (@ceil_bounds (List.length array) size Hsize) as [Hup Hlow].
  fold n in Hup, Hlow.
  split; [rewrite concat_slices; now apply firstn_all2|].
  split; [now rewrite length_map, length_seq|].
  split.
  { apply Forall_forall. intros c Hc. apply in_map_iff in Hc.
    destruct Hc as (i & <- & Hi). apply in_seq in Hi.
    rewrite slice_width, length_firstn, length_skipn.
    specialize (Hlow i ltac:(lia)). lia. }
  split.
  { intros i Hi. rewrite length_map, length_seq in Hi.
    rewrite (nth_indep _ [] (slice (0 * size) ((0 + 1) * size) array))
      by (rewrite length_map, length_seq; lia).
    rewrite (map_nth (fun i => slice (i * size) ((i + 1) * size) array)).
    rewrite seq_nth by lia. simpl plus.
    rewrite slice_width, length_firstn, length_skipn.
    specialize (Hlow (S i) Hi). lia. }
  intros ->. simpl in n. subst n.
  rewrite Nat.div_small by lia. reflexivity.
Qed.

End ChunkFacts.

Lemma chunk_partitions_witness :
  chunk [1; 2; 3; 4; 5]%nat 2 = [[1; 2]; [3; 4]; [5]]%nat
  /\ List.concat (chunk [1; 2; 3; 4; 5]%nat 2) = [1; 2; 3; 4; 5]%nat.
Proof.
  split; [reflexivity|].
  exact (proj1 (@chunk_partitions nat [1; 2; 3; 4; 5]%nat 2 ltac:(lia))).
Defined.

(** ** Paths and keys *)

Section PathFacts.

Lemma split_slash_nonempty (s : string) : split_slash s <> [].
Proof.
  destruct s as [|c rest]; simpl; [discriminate|].
  destruct (Ascii.eqb c "/"); [discriminate|].
  destruct (split_slash rest); discriminate.
Qed.

Lemma split_slash_free (s : string) :
  slash_free s = true -> split_slash s = [s].
Proof.
  induction s as [|c rest IH]; simpl; [reflexivity|].
  intros H. apply andb_true_iff in H. destruct H as [Hc Hrest].
  apply negb_true_iff in Hc. rewrite Hc, (IH Hrest). reflexivity.
Qed.

Lemma split_slash_segment (s rest : string) :
  slash_free s = true ->
  split_slash (s ++ String "/" rest) = s :: split_slash rest.
Proof.
  induction s as [|c s IH]; simpl; [reflexivity|].
  intros H. apply andb_true_iff in H. destruct H as [Hc Hs].
  apply negb_true_iff in Hc. rewrite Hc, (IH Hs). reflexivity.
Qed.

Lemma split_slash_join (segments : list string) :
  segments <> [] ->
  forallb slash_free segments = true ->
  split_slash (join segments) = segments.
Proof.
  induction segments as [|s segments IH]; [intros H; now elim H|].
  intros _ Hfree. simpl in Hfree. apply andb_true_iff in Hfree.
  destruct Hfree as [Hs Hrest].
  destruct segments as [|s' segments]; [now apply split_slash_free|].
  change (join (s :: s' :: segments)) with (s ++ String "/" (join (s' :: segments))).
  rewrite (@split_slash_segment s _ Hs), IH; [reflexivity | discriminate | exact Hrest].
Qed.

Lemma path_parts_join (segments : list string) :
  forallb slash_free segments = true ->
  path_parts (join segments) = filter (fun p => negb (String.eqb p "")) segments.
Proof.
  intros Hfree. unfold path_parts.
  destruct segments as [|s segments]; [reflexivity|].
  rewrite split_slash_join; [reflexivity | discriminate | exact Hfree].
Qed.

(** X17: an array key goes to its segments joined by [/], whatever the
    template, and that path parses, without template, to the segments that
    are not empty (none of them holding a [/]): to the array itself when no
    segment is empty. *)
Theorem array_key_round_trip (segments : list string) (pathTemplate : string) :
  forallb slash_free segments = true ->
  buildPath (KeySegments segments) pathTemplate = Some (join segments)
  /\ parseKey (join segments) "" =
       inr (KeySegments (filter (fun p => negb (String.eqb p "")) segments))
  /\ (forallb (fun p => negb (String.eqb p "")) segments = true ->
      parseKey (join segments) "" = inr (KeySegments segments)).
Proof.
  intros Hfree. split; [reflexivity|].
  assert (H : parseKey (join segments) "" =
              inr (KeySegments (filter (fun p => negb (String.eqb p "")) segments))).
  { unfold parseKey. simpl. now rewrite path_parts_join. }
  split; [exact H|].
  intros Hne. rewrite H. do 2 f_equal.
  clear H Hfree. induction segments as [|s segments IH]; [reflexivity|].
  simpl in *. apply andb_true_iff in Hne. destruct Hne as [Hs Hne].
  rewrite Hs. f_equal. now apply IH.
Qed.

Lemma array_key_round_trip_witness :
  parseKey (join ["users"; "u1"; "posts"; "p7"]) "" =
    inr (KeySegments ["users"; "u1"; "posts"; "p7"])
  /\ parseKey (join ["users"; ""; "posts"]) "" = inr (KeySegments ["users"; "posts"]).
Proof.
  split.
  - exact (proj2 (proj2 (@array_key_round_trip ["users"; "u1"; "posts"; "p7"] ""
                           eq_refl)) eq_refl).
  - exact (proj1 (proj2 (@array_key_round_trip ["users"; ""; "posts"] "" eq_refl))).
Defined.

(** The loop of [parseKey] on lists of the same length. *)
Lemma parseKey_loop_fits (path pathTemplate : string) (templateParts pathParts : list string) :
  forall (i : nat) (key : object),
    List.length templateParts = List.length pathParts ->
    (forallb2 fits templateParts pathParts = true ->
     exists key', parseKey_loop path pathTemplate i templateParts pathParts key = inr key')
    /\ (forallb2 fits templateParts pathParts = false ->
        exists j, parseKey_loop path pathTemplate i templateParts pathParts key =
                  inl (FirestoreDocumentError
                         (mismatch path pathTemplate
                                   ("segment mismatch at position " ++ decimal j)))).
Proof.
  revert pathParts; induction templateParts as [|t ts IH];
    intros [|p ps] i key Hlen; simpl in Hlen; try discriminate.
  - split; [intros _; now exists key | discriminate].
  - injection Hlen as Hlen. simpl. unfold fits, is_placeholder.
    destruct (startsWith "{" t && endsWith "}" t); simpl.
    + apply IH. exact Hlen.
    + destruct (String.eqb t p); simpl.
      * apply IH. exact Hlen.
      * split; [discriminate | intros _; now exists i].
Qed.

(** X18: with a template, [parseKey] succeeds exactly when the path and the
    template have the same number of non-empty segments and every segment
    of the template is a placeholder or the very segment of the path at its
    place; it then returns a key of named fields, and otherwise fails with a
    [FirestoreDocumentError]. *)
Theorem parseKey_succeeds_iff (path pathTemplate : string) :
  pathTemplate <> "" ->
  ((exists fields, parseKey path pathTemplate = inr (KeyFields fields)) <->
   forallb2 fits (path_parts pathTemplate) (path_parts path) = true)
  /\ (forall key, parseKey path pathTemplate = inr key ->
                  exists fields, key = KeyFields fields)
  /\ (forall e, parseKey path pathTemplate = inl e ->
                exists message, e = FirestoreDocumentError message).
Proof.
  intros Hne. unfold parseKey.
  destruct (String.eqb_spec pathTemplate "") as [E|_]; [contradiction|].
  assert (Hlenb : forall (xs ys : list string),
             forallb2 fits xs ys = true -> List.length xs = List.length ys).
  { induction xs as [|x xs IH]; intros [|y ys] H; simpl in H; try discriminate;
      [reflexivity|]. apply andb_true_iff in H. simpl. f_equal. now apply IH. }
  destruct (Nat.eqb_spec (List.length (path_parts pathTemplate))
                         (List.length (path_parts path))) as [Hlen|Hlen]; simpl.
  - destruct (@parseKey_loop_fits path pathTemplate (path_parts pathTemplate)
                (path_parts path) 0%nat [] Hlen) as [Hyes Hno].
    destruct (forallb2 fits (path_parts pathTemplate) (path_parts path)) eqn:Hfit.
    + destruct (Hyes eq_refl) as [key' ->]. split; [|split].
      * split; [reflexivity | intros _; now exists key'].
      * intros key [= <-]. now exists key'.
      * intros e [=].
    + destruct (Hno eq_refl) as [j ->]. split; [|split].
      * split; [intros [fields [=]] | discriminate].
      * intros key [=].
      * intros e [= <-]. eexists. reflexivity.
  - split; [|split].
    + split; [intros [fields [=]]|].
      intros H. apply Hlenb in H. contradiction.
    + intros key [=].
    + intros e [= <-]. eexists. reflexivity.
Qed.

Lemma parseKey_succeeds_iff_witness :
  (exists fields, parseKey "users/u1/posts/p7" "users/{userId}/posts/{postId}"
                  = inr (KeyFields fields))
  /\ parseKey "users/u1/posts/p7" "users/{userId}/posts/{postId}" =
       inr (KeyFields [("userId", VStr "u1"); ("postId", VStr "p7")]).
Proof.
  assert (Hne : "users/{userId}/posts/{postId}" <> "") by discriminate.
  destruct (@parseKey_succeeds_iff "users/u1/posts/p7" "users/{userId}/posts/{postId}" Hne)
    as [[_ Hyes] _].
  split; [exact (Hyes eq_refl) | reflexivity].
Defined.

End PathFacts.

(** ** A key, its path, and back *)

Section TemplateFacts.

Lemma word_not_slash (c : ascii) : is_word c = true -> Ascii.eqb c "/" = false.
Proof.
  intros H. destruct (Ascii.eqb_spec c "/") as [->|]; [discriminate H | reflexivity].
Qed.

Lemma word_not_open (c : ascii) : is_word c = true -> Ascii.eqb c "{" = false.
Proof.
  intros H. destruct (Ascii.eqb_spec c "{") as [->|]; [discriminate H | reflexivity].
Qed.

Lemma all_word_slash_free (s : string) : all_chars is_word s = true -> slash_free s = true.
Proof.
  induction s as [|c s IH]; simpl; [reflexivity|].
  intros H. apply andb_true_iff in H. destruct H as [Hc Hs].
  now rewrite (word_not_slash _ Hc), (IH Hs).
Qed.

Lemma slash_free_app (a b : string) :
  slash_free (a ++ b) = slash_free a && slash_free b.
Proof.
  induction a as [|c a IH]; simpl; [reflexivity|].
  rewrite IH. now rewrite andb_assoc.
Qed.

Lemma append_nil_r (s : string) : s ++ "" = s.
Proof. induction s as [|c s IH]; simpl; congruence. Qed.

Lemma append_assoc (a b c : string) : (a ++ b) ++ c = a ++ (b ++ c).
Proof. induction a as [|x a IH]; simpl; congruence. Qed.

(** The replacement goes through a text without opening brace. *)
Lemma replace_literal (subst : string -> string) (text rest : string) :
  all_chars (fun c => negb (Ascii.eqb c "{")) text = true ->
  replace_placeholders subst None (text ++ rest) =
    text ++ replace_placeholders subst None rest.
Proof.
  induction text as [|c text IH]; simpl; [reflexivity|].
  intros H. apply andb_true_iff in H. destruct H as [Hc Ht].
  apply negb_true_iff in Hc. now rewrite Hc, (IH Ht).
Qed.

(** After an opening brace, a word followed by a closing brace is replaced. *)
Lemma replace_name (subst : string -> string) (read name rest : string) :
  all_chars is_word name = true ->
  read ++ name <> "" ->
  replace_placeholders subst (Some read) (name ++ String "}" rest) =
    subst (read ++ name) ++ replace_placeholders subst None rest.
Proof.
  revert read; induction name as [|c name IH]; intros read Hw Hne; simpl.
  - rewrite append_nil_r in *.
    destruct (String.eqb_spec read "") as [E|_]; [contradiction | reflexivity].
  - simpl in Hw. apply andb_true_iff in Hw. destruct Hw as [Hc Hw].
    rewrite Hc, (IH (read ++ String c "") Hw).
    + now rewrite append_assoc.
    + rewrite append_assoc. simpl. destruct read; discriminate.
Qed.

Lemma replace_hole (subst : string -> string) (name rest : string) :
  all_chars is_word name = true ->
  name <> "" ->
  replace_placeholders subst None (render (Hole name) ++ rest) =
    subst name ++ replace_placeholders subst None rest.
Proof.
  intros Hw Hne. simpl. rewrite append_assoc. simpl.
  now rewrite (@replace_name subst "" name rest Hw Hne).
Qed.

Lemma eqb_empty (s : string) : String.eqb s "" = false -> s <> "".
Proof. intros H ->. discriminate H. Qed.

(** [buildPath] fills the template segment by segment. *)
Lemma replace_template (fields : object) (ts : list segment) :
  forallb well_formed_segment ts = true ->
  replace_placeholders
    (fun keyName =>
       let value := Js.get fields keyName in
       if is_undefined value then "" else String_ value)
    None (join (map render ts)) =
    join (map (fill fields) ts).
Proof.
  set (subst := fun keyName : string => _).
  assert (Hseg : forall t rest,
             well_formed_segment t = true ->
             replace_placeholders subst None (render t ++ rest) =
               fill fields t ++ replace_placeholders subst None rest).
  { intros [text|name] rest Hwf; simpl in Hwf.
    - apply andb_true_iff in Hwf. destruct Hwf as [_ Hb]. now apply replace_literal.
    - apply andb_true_iff in Hwf. destruct Hwf as [Hne Hw].
      apply negb_true_iff, eqb_empty in Hne. now apply replace_hole. }
  induction ts as [|t ts IH]; intros Hwf; [reflexivity|].
  simpl in Hwf. apply andb_true_iff in Hwf. destruct Hwf as [Ht Hts].
  destruct ts as [|t' ts].
  - simpl map. simpl join.
    rewrite <- (append_nil_r (render t)), (Hseg t "" Ht). simpl.
    now rewrite append_nil_r.
  - change (join (map render (t :: t' :: ts)))
      with (render t ++ String "/" (join (map render (t' :: ts)))).
    change (join (map (fill fields) (t :: t' :: ts)))
      with (fill fields t ++ String "/" (join (map (fill fields) (t' :: ts)))).
    rewrite (Hseg t _ Ht). f_equal.
    change (replace_placeholders subst None (String "/" ?r))
      with (String "/" (replace_placeholders subst None r)).
    simpl replace_placeholders at 1. f_equal. now apply IH.
Qed.

Lemma endsWith_close (s : string) : endsWith "}" (s ++ "}") = true.
Proof.
  induction s as [|c s IH]; [reflexivity|].
  simpl. destruct (s ++ "}") eqn:E; [destruct s; discriminate | exact IH].
Qed.

Lemma substring_prefix (s rest : string) :
  String.substring 0 (String.length s) (s ++ rest) = s.
Proof. induction s as [|c s IH]; simpl; [now destruct rest | now rewrite IH]. Qed.

Lemma length_append (a b : string) :
  String.length (a ++ b) = (String.length a + String.length b)%nat.
Proof. induction a as [|c a IH]; simpl; congruence. Qed.

Lemma hole_is_placeholder (name : string) :
  is_placeholder (render (Hole name)) = true
  /\ slice_1_m1 (render (Hole name)) = name.
Proof.
  split.
  - unfold is_placeholder. simpl startsWith.
    change (render (Hole name)) with (String "{" name ++ "}").
    apply endsWith_close.
  - unfold slice_1_m1. simpl. rewrite length_append. simpl.
    replace (String.length name + 1 - 1)%nat with (String.length name) by lia.
    apply substring_prefix.
Qed.

Lemma literal_not_placeholder (text : string) :
  all_chars (fun c => negb (Ascii.eqb c "{")) text = true ->
  is_placeholder text = false.
Proof.
  unfold is_placeholder. destruct text as [|c text]; [reflexivity|]. simpl.
  intros H. apply andb_true_iff in H. destruct H as [Hc _].
  apply negb_true_iff in Hc. now rewrite Hc.
Qed.

(** The loop of [parseKey] on a template and the path filled from it. *)
Lemma parseKey_loop_filled (path pathTemplate : string) (fields : object)
      (ts : list segment) :
  forallb well_formed_segment ts = true ->
  (forall name, In name (holes ts) -> path_value (Js.get fields name) = true) ->
  forall (i : nat) (key : object),
    parseKey_loop path pathTemplate i (map render ts) (map (fill fields) ts) key =
      inr (fold_left (fun key name => Js.set key name (Js.get fields name))
                     (holes ts) key).
Proof.
  induction ts as [|t ts IH]; intros Hwf Hval i key; [reflexivity|].
  simpl in Hwf. apply andb_true_iff in Hwf. destruct Hwf as [Ht Hts].
  destruct t as [text|name].
  - simpl in Ht. apply andb_true_iff in Ht. destruct Ht as [_ Hb].
    pose proof (literal_not_placeholder _ Hb) as Hp. unfold is_placeholder in Hp.
    cbn [map parseKey_loop hd tl render]. rewrite Hp, String.eqb_refl. simpl.
    apply IH; [exact Hts | exact Hval].
  - destruct (hole_is_placeholder name) as [Hp Hslice]. unfold is_placeholder in Hp.
    cbn [map parseKey_loop hd tl]. rewrite Hp, Hslice.
    assert (Hv : path_value (Js.get fields name) = true).
    { apply Hval. simpl. now left. }
    assert (Hfill : VStr (fill fields (Hole name)) = Js.get fields name).
    { simpl. destruct (Js.get fields name); try discriminate Hv. reflexivity. }
    rewrite Hfill. simpl holes. simpl fold_left.
    apply IH; [exact Hts|]. intros n Hn. apply Hval. simpl. now right.
Qed.

Lemma filled_segments (fields : object) (ts : list segment) :
  forallb well_formed_segment ts = true ->
  (forall name, In name (holes ts) -> path_value (Js.get fields name) = true) ->
  forallb slash_free (map (fill fields) ts) = true
  /\ forallb (fun p => negb (String.eqb p "")) (map (fill fields) ts) = true
  /\ forallb slash_free (map render ts) = true
  /\ forallb (fun p => negb (String.eqb p "")) (map render ts) = true.
Proof.
  induction ts as [|t ts IH]; intros Hwf Hval; [repeat split|].
  simpl in Hwf. apply andb_true_iff in Hwf. destruct Hwf as [Ht Hts].
  assert (Hval' : forall name, In name (holes ts) ->
                               path_value (Js.get fields name) = true).
  { intros n Hn. apply Hval. destruct t; simpl; [exact Hn | now right]. }
  destruct (IH Hts Hval') as (H1 & H2 & H3 & H4).
  simpl. rewrite H1, H2, H3, H4, !andb_true_r.
  destruct t as [text|name]; simpl in *.
  - apply andb_true_iff in Ht. destruct Ht as [Ht _].
    apply andb_true_iff in Ht. destruct Ht as [Hne Hfree].
    now rewrite Hne, Hfree.
  - apply andb_true_iff in Ht. destruct Ht as [Hne Hw].
    assert (Hv : path_value (Js.get fields name) = true) by (apply Hval; now left).
    destruct (Js.get fields name) as [| | | |s| | | | |]; try discriminate Hv.
    simpl in *. apply andb_true_iff in Hv. destruct Hv as [Hs1 Hs2].
    rewrite Hs1, Hs2, slash_free_app, (all_word_slash_free _ Hw). auto.
Qed.

End TemplateFacts.

Section TemplateRoundTrip.

Lemma filter_all (A : Type) (f : A -> bool) (l : list A) :
  forallb f l = true -> filter f l = l.
Proof.
  induction l as [|x l IH]; simpl; [reflexivity|].
  intros H. apply andb_true_iff in H. destruct H as [Hx Hl].
  now rewrite Hx, (IH Hl).
Qed.

Lemma join_not_empty (s : string) (rest : list string) :
  s <> "" -> String.eqb (join (s :: rest)) "" = false.
Proof.
  intros Hne. destruct s as [|c s]; [now elim Hne|].
  destruct rest; reflexivity.
Qed.

Lemma read_loop_get (fields : object) (names : list string) (acc : object) (k : string) :
  Js.get (fold_left (fun key name => Js.set key name (Js.get fields name)) names acc) k =
    if existsb (String.eqb k) names then Js.get fields k else Js.get acc k.
Proof.
  revert acc; induction names as [|n names IH]; intros acc; simpl; [reflexivity|].
  rewrite IH. destruct (String.eqb_spec k n) as [->|Hne]; simpl.
  - rewrite get_set_same. now destruct (existsb _ names).
  - rewrite get_set_other by congruence. reflexivity.
Qed.

Lemma read_loop_append (fields : object) (names : list string) (acc : object) :
  NoDup (keys acc ++ names)%list ->
  fold_left (fun key name => Js.set key name (Js.get fields name)) names acc =
    (acc ++ map (fun name => (name, Js.get fields name)) names)%list.
Proof.
  revert acc; induction names as [|n names IH]; intros acc Hnd; simpl.
  - now rewrite app_nil_r.
  - assert (Habs : Js.has acc n = false).
    { destruct (Js.has acc n) eqn:E; [|reflexivity]. apply has_In in E.
      apply NoDup_remove_2 in Hnd. elim Hnd. apply in_or_app. now left. }
    rewrite (@set_absent acc n (Js.get fields n) Habs), IH.
    + now rewrite <- app_assoc.
    + unfold keys. rewrite map_app. simpl. rewrite <- app_assoc. exact Hnd.
Qed.

Lemma entries_of_keys (o : object) :
  NoDup (keys o) -> map (fun name => (name, Js.get o name)) (keys o) = o.
Proof.
  induction o as [|[k v] o IH]; intros Hnd; [reflexivity|].
  inversion Hnd as [|? ? Hk Hnd']; subst. simpl. rewrite String.eqb_refl. f_equal.
  rewrite <- (IH Hnd') at 2. apply map_ext_in. intros n Hn.
  destruct (String.eqb_spec k n) as [->|_]; [contradiction | reflexivity].
Qed.

(** X19: for a template made of literal segments and placeholders, and a
    key whose placeholder fields are non-empty strings without [/]:
    [buildPath] gives the template with every placeholder filled, and
    [parseKey] of that path with the same template gives back, for every
    placeholder, the field of the key; the key itself when its fields are
    exactly the placeholders, in the order of the template. *)
Theorem template_key_round_trip (fields : object) (ts : list segment) :
  ts <> [] ->
  forallb well_formed_segment ts = true ->
  (forall name, In name (holes ts) -> path_value (Js.get fields name) = true) ->
  let pathTemplate := join (map render ts) in
  let p := join (map (fill fields) ts) in
  buildPath (KeyFields fields) pathTemplate = Some p
  /\ parseKey p pathTemplate = inr (KeyFields (read_back fields ts))
  /\ (forall name, In name (holes ts) ->
                   Js.get (read_back fields ts) name = Js.get fields name)
  /\ (keys fields = holes ts -> NoDup (holes ts) -> read_back fields ts = fields).
Proof.
  intros Hne Hwf Hval pathTemplate p.
  destruct (filled_segments fields ts Hwf Hval) as (Hf1 & Hf2 & Hr1 & Hr2).
  assert (Htmpl : String.eqb pathTemplate "" = false).
  { unfold pathTemplate. destruct ts as [|t ts]; [now elim Hne|].
    simpl map. apply join_not_empty.
    simpl in Hr2. apply andb_true_iff in Hr2. destruct Hr2 as [Ht _].
    now apply eqb_empty, negb_true_iff. }
  split.
  { unfold buildPath. rewrite Htmpl. unfold pathTemplate.
    now rewrite replace_template. }
  split.
  { unfold parseKey. rewrite Htmpl. unfold p, pathTemplate.
    rewrite !path_parts_join by assumption.
    rewrite !filter_all by assumption.
    rewrite !length_map, Nat.eqb_refl. simpl.
    now rewrite (@parseKey_loop_filled _ _ fields ts Hwf Hval). }
  split.
  { intros name Hin. unfold read_back. rewrite read_loop_get.
    replace (existsb (String.eqb name) (holes ts)) with true; [reflexivity|].
    symmetry. now apply existsb_eqb_In. }
  intros Hkeys Hnd. unfold read_back.
  rewrite read_loop_append by exact Hnd. simpl.
  rewrite <- Hkeys. apply entries_of_keys. now rewrite Hkeys.
Qed.

Lemma template_key_round_trip_witness :
  let ts := [Lit "users"; Hole "userId"; Lit "posts"; Hole "postId"] in
  let key := [("userId", VStr "u1"); ("postId", VStr "p7")] in
  join (map render ts) = "users/{userId}/posts/{postId}"
  /\ buildPath (KeyFields key) "users/{userId}/posts/{postId}" = Some "users/u1/posts/p7"
  /\ parseKey "users/u1/posts/p7" "users/{userId}/posts/{postId}" = inr (KeyFields key).
Proof.
  intros ts key.
  assert (Hne : ts <> []) by discriminate.
  assert (Hval : forall name, In name (holes ts) -> path_value (Js.get key name) = true).
  { intros name [<- | [<- | []]]; reflexivity. }
  destruct (@template_key_round_trip key ts Hne eq_refl Hval)
    as (Hbuild & Hparse & _ & Hsame).
  split; [reflexivity|]. split; [exact Hbuild|].
  assert (Hnd : NoDup (holes ts)) by (apply distinct_NoDup; reflexivity).
  rewrite (Hsame eq_refl Hnd) in Hparse. exact Hparse.
Defined.

End TemplateRoundTrip.

(** ** Collections *)

Section MapFacts.

Variable V : Type.
Implicit Types (m : JsMap.t V) (k key : string) (v : V).

Lemma map_get_set_same m k v : JsMap.get (JsMap.set m k v) k = Some v.
Proof.
  induction m as [|[k' w] m IH]; simpl.
  - now rewrite String.eqb_refl.
  - destruct (String.eqb k' k) eqn:E; simpl; rewrite E; auto.
Qed.

Lemma map_get_set_other m k key v :
  k <> key -> JsMap.get (JsMap.set m k v) key = JsMap.get m key.
Proof.
  intros Hne. induction m as [|[k' w] m IH]; simpl.
  - destruct (String.eqb_spec k key); [contradiction | reflexivity].
  - destruct (String.eqb_spec k' k) as [->|Hk]; simpl.
    + destruct (String.eqb_spec k key); [contradiction | reflexivity].
    + now rewrite IH.
Qed.

Lemma map_get_delete_same m k : JsMap.get (JsMap.delete m k) k = None.
Proof.
  induction m as [|[k' w] m IH]; simpl; [reflexivity|].
  destruct (String.eqb k' k) eqn:E; simpl; [exact IH | now rewrite E].
Qed.

Lemma map_get_delete_other m k key :
  k <> key -> JsMap.get (JsMap.delete m k) key = JsMap.get m key.
Proof.
  intros Hne. induction m as [|[k' w] m IH]; simpl; [reflexivity|].
  destruct (String.eqb_spec k' k) as [->|Hk]; simpl.
  - rewrite IH. destruct (String.eqb_spec k key); [contradiction | reflexivity].
  - now rewrite IH.
Qed.

Lemma map_get_In m k : JsMap.get m k <> None <-> In k (JsMap.keys m).
Proof.
  induction m as [|[k' w] m IH]; simpl.
  - split; [intros H; now elim H | intros []].
  - destruct (String.eqb_spec k' k) as [->|Hne].
    + split; [now left | discriminate].
    + rewrite IH. split; [now right | intros [H|H]; [contradiction | exact H]].
Qed.

Lemma map_keys_set m k v :
  JsMap.keys (JsMap.set m k v) =
    match JsMap.get m k with
    | Some _ => JsMap.keys m
    | None => (JsMap.keys m ++ [k])%list
    end.
Proof.
  induction m as [|[k' w] m IH]; simpl; [reflexivity|].
  destruct (String.eqb k' k); simpl; [reflexivity|].
  rewrite IH. now destruct (JsMap.get m k).
Qed.

End MapFacts.

Section CollectionFacts.

Variable pathTemplate : string.
Variable _ctor : DocumentClass.
Variable defaultKey : option Key.

Local Abbreviation coll := FirestoreCollection.t.
Local Abbreviation perform := (FirestoreCollection.perform pathTemplate).
Local Abbreviation keep_or_construct :=
  (FirestoreCollection.keep_or_construct _ctor defaultKey).
Local Abbreviation applyDocs := (FirestoreCollection.applyDocs _ctor defaultKey).
Local Abbreviation applyDocChanges :=
  (FirestoreCollection.applyDocChanges _ctor defaultKey).

Lemma unwatch_clears (c : coll) :
  FirestoreCollection._unwatch (FirestoreCollection.unwatch c) = None
  /\ FirestoreCollection._snapshotQueues (FirestoreCollection.unwatch c) = []
  /\ FirestoreCollection.query (FirestoreCollection.unwatch c) = FirestoreCollection.query c.
Proof.
  unfold FirestoreCollection.unwatch.
  destruct (FirestoreCollection._unwatch c) eqn:E; simpl; rewrite ?E; auto.
Qed.

Lemma perform_unwatches (k : FirestoreCollection.call) (c : coll) :
  (forall callback, k <> FirestoreCollection.Watch callback) ->
  FirestoreCollection._unwatch (perform k c) = None
  /\ FirestoreCollection._snapshotQueues (perform k c) = [].
Proof.
  intros Hk.
  assert (Hu : forall c', FirestoreCollection._unwatch (FirestoreCollection.unwatch c') = None
                          /\ FirestoreCollection._snapshotQueues
                               (FirestoreCollection.unwatch c') = []).
  { intros c'. destruct (unwatch_clears c') as (H1 & H2 & _). now split. }
  destruct k as [key|condition|ref q|callback|];
    cbn [FirestoreCollection.perform].
  - destruct key as [key|];
      cbn [FirestoreCollection.set_key FirestoreCollection.setKey fst]; apply Hu.
  - apply Hu.
  - unfold FirestoreCollection.initialize. destruct q; apply Hu.
  - now elim (Hk callback).
  - apply Hu.
Qed.

Lemma perform_keeps_invariant (k : FirestoreCollection.call) (c : coll) :
  (FirestoreCollection._unwatch c <> None -> FirestoreCollection.query c <> None) ->
  FirestoreCollection._unwatch (perform k c) <> None ->
  FirestoreCollection.query (perform k c) <> None.
Proof.
  intros Hinv.
  destruct k as [key|condition|ref q|callback|];
    try (intros H; exfalso; apply H;
         apply perform_unwatches; intros cb; discriminate).
  simpl. unfold FirestoreCollection.watch.
  destruct (FirestoreCollection.query c) as [q|] eqn:Hq.
  - destruct (FirestoreCollection._unwatch c); simpl; rewrite Hq; discriminate.
  - simpl. rewrite Hq. exact Hinv.
Qed.

(** X20: in every state that a collection reaches from its construction by
    setting its key or its condition, [initialize], [watch] and [unwatch],
    an active watch has a query; so there [watch] always fails with
    "watch is already called" and changes nothing.  Every one of these calls
    but [watch] leaves the collection without listener and without snapshot
    queue. *)
Theorem collection_watch_has_query (key : option FirestoreCollection.keyOrCondition)
        (condition : option Condition) (calls : list FirestoreCollection.call) :
  let c := fold_left (fun c k => perform k c) calls
                     (FirestoreCollection.construct_collection pathTemplate key condition) in
  (FirestoreCollection._unwatch c <> None -> FirestoreCollection.query c <> None)
  /\ (FirestoreCollection._unwatch c <> None ->
      forall callback,
        FirestoreCollection.watch callback c =
          (c, Some (FirestoreDocumentError "watch is already called")))
  /\ (forall k, (forall callback, k <> FirestoreCollection.Watch callback) ->
                FirestoreCollection._unwatch (perform k c) = None
                /\ FirestoreCollection._snapshotQueues (perform k c) = []).
Proof.
  intros c.
  assert (Hinv : FirestoreCollection._unwatch c <> None ->
                 FirestoreCollection.query c <> None).
  { unfold c. clear c.
    assert (Hstart : FirestoreCollection._unwatch
                       (FirestoreCollection.construct_collection pathTemplate key condition)
                     <> None ->
                     FirestoreCollection.query
                       (FirestoreCollection.construct_collection pathTemplate key condition)
                     <> None).
    { intros H. exfalso. apply H.
      unfold FirestoreCollection.construct_collection,
        FirestoreCollection.set_condition, FirestoreCollection.initializeQuery.
      destruct key as [[k|p|cond]|]; cbv zeta;
        try destruct (negb (pathTemplate =? "")%string); apply unwatch_clears. }
    revert Hstart.
    generalize (FirestoreCollection.construct_collection pathTemplate key condition).
    induction calls as [|k calls IH]; intros c0 H0; [exact H0|].
    simpl. apply IH. now apply perform_keeps_invariant. }
  split; [exact Hinv|]. split.
  - intros Hw callback. unfold FirestoreCollection.watch.
    destruct (FirestoreCollection.query c) eqn:Hq; [|now elim (Hinv Hw)].
    destruct (FirestoreCollection._unwatch c); [reflexivity | now elim Hw].
  - intros k Hk. now apply perform_unwatches.
Qed.

(** What [keep_or_construct] does to the lookup of an id. *)
Lemma keep_or_construct_get (doc : DocumentSnapshot) (c c' : coll) (id : string) :
  keep_or_construct doc c = (c', None) ->
  (FirestoreCollection.snapshot_id doc <> id ->
   JsMap.get (FirestoreCollection._documents c') id =
     JsMap.get (FirestoreCollection._documents c) id)
  /\ (forall d, JsMap.get (FirestoreCollection._documents c) id = Some d ->
                JsMap.get (FirestoreCollection._documents c') id = Some d)
  /\ (FirestoreCollection.snapshot_id doc = id ->
      JsMap.get (FirestoreCollection._documents c) id = None ->
      exists d,
        construct _ctor defaultKey (Some (inl (snapshot_ref doc))) (Some (inr doc)) true
        = Normal d tt
        /\ JsMap.get (FirestoreCollection._documents c') id = Some d)
  /\ FirestoreCollection.reference c' = FirestoreCollection.reference c
  /\ JsMap.keys (FirestoreCollection._documents c') =
       match JsMap.get (FirestoreCollection._documents c)
                       (FirestoreCollection.snapshot_id doc) with
       | Some _ => JsMap.keys (FirestoreCollection._documents c)
       | None => (JsMap.keys (FirestoreCollection._documents c)
                  ++ [FirestoreCollection.snapshot_id doc])%list
       end.
Proof.
  unfold FirestoreCollection.keep_or_construct.
  destruct (JsMap.get (FirestoreCollection._documents c)
                      (FirestoreCollection.snapshot_id doc)) as [cached|] eqn:Hc.
  - intros [= <-]. simpl. rewrite map_keys_set, Hc.
    split; [intros Hne; now apply map_get_set_other|].
    split.
    + intros d Hd.
      destruct (String.eqb_spec (FirestoreCollection.snapshot_id doc) id) as [E|E].
      * rewrite E in *. rewrite map_get_set_same. congruence.
      * now rewrite map_get_set_other.
    + split; [intros E H; congruence | now split].
  - destruct (construct _ctor defaultKey (Some (inl (snapshot_ref doc)))
                        (Some (inr doc)) true) as [d []|d e] eqn:Hnew; [|discriminate].
    intros [= <-]. simpl. rewrite map_keys_set, Hc.
    split; [intros Hne; now apply map_get_set_other|].
    split.
    + intros d' Hd.
      destruct (String.eqb_spec (FirestoreCollection.snapshot_id doc) id) as [E|E].
      * rewrite E in *. congruence.
      * now rewrite map_get_set_other.
    + split; [|now split].
      intros E _. exists d. split; [reflexivity|].
      rewrite <- E. apply map_get_set_same.
Qed.

(** X21: when [applyDocChanges] completes, the collection is loaded; a
    document whose id no change names is as it was; an id whose last change
    is [removed] is gone; and a document that was cached and is not removed
    is the very instance that was cached: what an [added] or [modified]
    change carries for it is not read. *)
Theorem docChanges_by_id (docChanges : list FirestoreCollection.DocumentChange)
        (c c' : coll) :
  applyDocChanges docChanges c = (c', None) ->
  FirestoreCollection.isLoaded c' = true
  /\ (forall id,
         (forall ch, In ch docChanges ->
                     FirestoreCollection.snapshot_id (FirestoreCollection.change_doc ch)
                     <> id) ->
         JsMap.get (FirestoreCollection._documents c') id =
           JsMap.get (FirestoreCollection._documents c) id)
  /\ (forall before doc after,
         docChanges =
           (before ++ {| FirestoreCollection.type := FirestoreCollection.removed;
                         FirestoreCollection.change_doc := doc |} :: after)%list ->
         (forall ch, In ch after ->
                     FirestoreCollection.snapshot_id (FirestoreCollection.change_doc ch)
                     <> FirestoreCollection.snapshot_id doc) ->
         JsMap.get (FirestoreCollection._documents c')
                   (FirestoreCollection.snapshot_id doc) = None)
  /\ (forall id d,
         JsMap.get (FirestoreCollection._documents c) id = Some d ->
         (forall ch, In ch docChanges ->
                     FirestoreCollection.snapshot_id (FirestoreCollection.change_doc ch) = id ->
                     FirestoreCollection.type ch <> FirestoreCollection.removed) ->
         JsMap.get (FirestoreCollection._documents c') id = Some d).
Proof.
  unfold FirestoreCollection.applyDocChanges.
  destruct (FirestoreCollection.applyDocChanges_loop _ctor defaultKey docChanges c)
    as [c1 [e|]] eqn:Hloop; [discriminate|].
  intros [= <-]. split; [reflexivity|]. simpl.
  assert (Huntouched : forall changes c0 c2 id,
             FirestoreCollection.applyDocChanges_loop _ctor defaultKey changes c0
             = (c2, None) ->
             (forall ch, In ch changes ->
                         FirestoreCollection.snapshot_id
                           (FirestoreCollection.change_doc ch) <> id) ->
             JsMap.get (FirestoreCollection._documents c2) id =
               JsMap.get (FirestoreCollection._documents c0) id).
  { induction changes as [|ch changes IH]; intros c0 c2 id Hrun Hid;
      [now injection Hrun as <-|].
    simpl in Hrun.
    assert (Hne : FirestoreCollection.snapshot_id (FirestoreCollection.change_doc ch)
                  <> id) by (apply Hid; now left).
    assert (Hrest : forall ch', In ch' changes ->
                      FirestoreCollection.snapshot_id
                        (FirestoreCollection.change_doc ch') <> id)
      by (intros ch' H; apply Hid; now right).
    destruct (FirestoreCollection.type ch).
    - destruct (keep_or_construct (FirestoreCollection.change_doc ch) c0)
        as [c3 [e|]] eqn:Hstep; [discriminate|].
      rewrite (IH _ _ _ Hrun Hrest).
      now apply (proj1 (@keep_or_construct_get _ _ _ id Hstep)).
    - destruct (keep_or_construct (FirestoreCollection.change_doc ch) c0)
        as [c3 [e|]] eqn:Hstep; [discriminate|].
      rewrite (IH _ _ _ Hrun Hrest).
      now apply (proj1 (@keep_or_construct_get _ _ _ id Hstep)).
    - rewrite (IH _ _ _ Hrun Hrest). simpl. now apply map_get_delete_other. }
  split; [intros id Hid; now apply (Huntouched docChanges c c1 id)|].
  split.
  - intros before doc after -> Hafter.
    revert c Hloop.
    induction before as [|ch before IH]; intros c Hloop.
    + simpl in Hloop.
      rewrite (Huntouched after _ c1 _ Hloop Hafter). simpl.
      apply map_get_delete_same.
    + simpl in Hloop.
      destruct (FirestoreCollection.type ch).
      * destruct (keep_or_construct (FirestoreCollection.change_doc ch) c)
          as [c3 [e|]]; [discriminate | exact (IH c3 Hloop)].
      * destruct (keep_or_construct (FirestoreCollection.change_doc ch) c)
          as [c3 [e|]]; [discriminate | exact (IH c3 Hloop)].
      * exact (IH _ Hloop).
  - intros id d. revert c Hloop.
    induction docChanges as [|ch changes IH]; intros c Hloop Hd Hkeep;
      [injection Hloop as <-; exact Hd|].
    simpl in Hloop.
    assert (Hrest : forall ch', In ch' changes ->
                      FirestoreCollection.snapshot_id
                        (FirestoreCollection.change_doc ch') = id ->
                      FirestoreCollection.type ch' <> FirestoreCollection.removed)
      by (intros ch' H; apply Hkeep; now right).
    destruct (FirestoreCollection.type ch) eqn:Hty.
    + destruct (keep_or_construct (FirestoreCollection.change_doc ch) c)
        as [c3 [e|]] eqn:Hstep; [discriminate|].
      apply (IH c3 Hloop); [|exact Hrest].
      now apply (proj1 (proj2 (@keep_or_construct_get _ _ _ id Hstep))).
    + destruct (keep_or_construct (FirestoreCollection.change_doc ch) c)
        as [c3 [e|]] eqn:Hstep; [discriminate|].
      apply (IH c3 Hloop); [|exact Hrest].
      now apply (proj1 (proj2 (@keep_or_construct_get _ _ _ id Hstep))).
    + apply (IH _ Hloop); [|exact Hrest]. simpl.
      rewrite map_get_delete_other; [exact Hd|].
      intros E. apply (Hkeep ch (or_introl eq_refl) E). exact Hty.
Qed.

(** A document that a collection constructs for a snapshot. *)
Lemma construct_existing (snapshot : DocumentSnapshot) (d : Document) :
  construct _ctor defaultKey (Some (inl (snapshot_ref snapshot)))
            (Some (inr snapshot)) true = Normal d tt ->
  _exist d = true /\ isDirty d = false
  /\ reference d = Some (snapshot_ref snapshot).
Proof.
  unfold construct. cbv beta iota zeta.
  destruct (setReference _ctor (snapshot_ref snapshot) blank) as [d0 []|d0 e] eqn:Hkeyed;
    [|discriminate].
  intros [= <-].
  destruct (@setReference_keyed _ctor (snapshot_ref snapshot) blank d0 keyed_blank Hkeyed)
    as ((Hd & He & Hl & Hu & Hf & Hq & Hw) & Href).
  destruct (snapshot_data snapshot) as [remote|] eqn:Hsnap.
  - assert (Hsame : setData (inr snapshot) false (with_exist true d0) =
                    setData (inl (unserialize remote)) false (with_exist true d0)).
    { unfold setData, structuredClone. now rewrite Hsnap. }
    rewrite Hsame.
    destruct (@setData_on_empty (unserialize remote) false (with_exist true d0)
                (unserializeObject_NoDup remote) Hd)
      as (Hu' & Hf' & He' & Hl' & Hr' & Hw' & Hfields).
    split; [exact He'|].
    split; [unfold isDirty; now rewrite Hu', Hf' | now rewrite Hr'].
  - unfold setData. rewrite Hsnap. cbn [fst].
    split; [reflexivity|].
    split; [|exact Href].
    unfold isDirty. cbn [_updated _updatedAll with_exist]. now rewrite Hu, Hf.
Qed.

Lemma applyDocs_loop_get (docs : list DocumentSnapshot) (c c' : coll) (id : string) :
  FirestoreCollection.applyDocs_loop _ctor defaultKey docs c = (c', None) ->
  (forall d, JsMap.get (FirestoreCollection._documents c) id = Some d ->
             JsMap.get (FirestoreCollection._documents c') id = Some d)
  /\ (JsMap.get (FirestoreCollection._documents c) id = None ->
      ~ In id (map FirestoreCollection.snapshot_id docs) ->
      JsMap.get (FirestoreCollection._documents c') id = None)
  /\ (In id (map FirestoreCollection.snapshot_id docs) ->
      JsMap.get (FirestoreCollection._documents c') id <> None)
  /\ (JsMap.get (FirestoreCollection._documents c) id = None ->
      forall d, JsMap.get (FirestoreCollection._documents c') id = Some d ->
      exists before doc after,
        docs = (before ++ doc :: after)%list
        /\ ~ In id (map FirestoreCollection.snapshot_id before)
        /\ FirestoreCollection.snapshot_id doc = id
        /\ construct _ctor defaultKey (Some (inl (snapshot_ref doc)))
                     (Some (inr doc)) true = Normal d tt).
Proof.
  revert c. induction docs as [|doc docs IH]; intros c Hrun.
  - injection Hrun as <-.
    split; [auto|]. split; [auto|]. split; [intros []|].
    intros Hnone d Hd. congruence.
  - simpl in Hrun.
    destruct (keep_or_construct doc c) as [c1 [e|]] eqn:Hstep; [discriminate|].
    destruct (@keep_or_construct_get doc c c1 id Hstep)
      as (Hother & Hkept & Hnew & _).
    destruct (IH c1 Hrun) as (IH1 & IH2 & IH3 & IH4).
    split; [intros d Hd; apply IH1; now apply Hkept|].
    split.
    { intros Hnone Hnot. apply IH2.
      - rewrite Hother; [exact Hnone|]. intros E. apply Hnot. now left.
      - intros Hin. apply Hnot. now right. }
    split.
    { intros [E|Hin]; [|now apply IH3].
      destruct (JsMap.get (FirestoreCollection._documents c) id) as [d|] eqn:Hc.
      - rewrite (IH1 d (Hkept d eq_refl)). discriminate.
      - destruct (Hnew E eq_refl) as (d & _ & Hd). rewrite (IH1 d Hd). discriminate. }
    intros Hnone d Hd.
    destruct (String.eqb_spec (FirestoreCollection.snapshot_id doc) id) as [E|E].
    + destruct (Hnew E Hnone) as (d0 & Hmade & Hd0).
      rewrite (IH1 d0 Hd0) in Hd. injection Hd as <-.
      exists [], doc, docs. split; [reflexivity|]. split; [intros []|]. now split.
    + destruct (IH4 ltac:(rewrite (Hother E); exact Hnone) d Hd)
        as (before & doc' & after & -> & Hfirst & Hid & Hmade).
      exists (doc :: before), doc', after.
      split; [reflexivity|]. split; [|now split].
      intros [H|H]; [now apply E | now apply Hfirst].
Qed.

Lemma applyDocs_loop_keys (docs : list DocumentSnapshot) (c c' : coll) :
  FirestoreCollection.applyDocs_loop _ctor defaultKey docs c = (c', None) ->
  NoDup (JsMap.keys (FirestoreCollection._documents c)
         ++ map FirestoreCollection.snapshot_id docs) ->
  JsMap.keys (FirestoreCollection._documents c') =
    (JsMap.keys (FirestoreCollection._documents c)
     ++ map FirestoreCollection.snapshot_id docs)%list.
Proof.
  revert c. induction docs as [|doc docs IH]; intros c Hrun Hnd.
  - injection Hrun as <-. now rewrite app_nil_r.
  - simpl in Hrun.
    destruct (keep_or_construct doc c) as [c1 [e|]] eqn:Hstep; [discriminate|].
    destruct (@keep_or_construct_get doc c c1 (FirestoreCollection.snapshot_id doc) Hstep)
      as (_ & _ & _ & _ & Hkeys).
    assert (Hfresh : JsMap.get (FirestoreCollection._documents c)
                               (FirestoreCollection.snapshot_id doc) = None).
    { destruct (JsMap.get (FirestoreCollection._documents c)
                          (FirestoreCollection.snapshot_id doc)) eqn:Hc; [|reflexivity].
      exfalso. simpl in Hnd. apply NoDup_remove_2 in Hnd. apply Hnd.
      apply in_or_app. left. apply map_get_In. rewrite Hc. discriminate. }
    rewrite Hfresh in Hkeys.
    simpl. rewrite (IH c1 Hrun); rewrite Hkeys, <- app_assoc; [reflexivity | exact Hnd].
Qed.

(** X22: [get()] on a collection that has a query, answered with the
    documents of a result: the collection is loaded and holds exactly the
    ids of the result, whatever it held before; each document is the one
    constructed from the first snapshot of the result with that id, for its
    reference, and it exists and is clean; and when the result names no id
    twice, the documents are in the order of the result. *)
Theorem collection_get_reloads (docs : list DocumentSnapshot) (c c' : coll) :
  FirestoreCollection.query c <> None ->
  FirestoreCollection.get _ctor defaultKey false (inr docs) c = (c', None) ->
  FirestoreCollection.isLoaded c' = true
  /\ (forall id, In id (map FirestoreCollection.snapshot_id docs) <->
                 JsMap.get (FirestoreCollection._documents c') id <> None)
  /\ (forall id d,
         JsMap.get (FirestoreCollection._documents c') id = Some d ->
         exists before doc after,
           docs = (before ++ doc :: after)%list
           /\ ~ In id (map FirestoreCollection.snapshot_id before)
           /\ FirestoreCollection.snapshot_id doc = id
           /\ construct _ctor defaultKey (Some (inl (snapshot_ref doc)))
                        (Some (inr doc)) true = Normal d tt
           /\ _exist d = true /\ isDirty d = false
           /\ reference d = Some (snapshot_ref doc))
  /\ (NoDup (map FirestoreCollection.snapshot_id docs) ->
      map FirestoreCollection.snapshot_id docs =
        JsMap.keys (FirestoreCollection._documents c')).
Proof.
  intros Hq. unfold FirestoreCollection.get. cbn [andb].
  destruct (FirestoreCollection.query c); [clear Hq | now elim Hq].
  unfold FirestoreCollection.applyDocs.
  destruct (FirestoreCollection.applyDocs_loop
              _ctor defaultKey docs (FirestoreCollection.with_documents [] c))
    as [c1 [e|]] eqn:Hloop; [discriminate|].
  intros [= <-]. split; [reflexivity|].
  cbn [FirestoreCollection._documents FirestoreCollection.with_isLoaded].
  split.
  { intros id.
    destruct (@applyDocs_loop_get docs _ c1 id Hloop) as (_ & H2 & H3 & _).
    split; [exact H3|]. intros Hpresent.
    destruct (in_dec string_dec id (map FirestoreCollection.snapshot_id docs))
      as [Hin|Hnot]; [exact Hin|].
    exfalso. apply Hpresent. now apply H2. }
  split.
  { intros id d Hd.
    destruct (@applyDocs_loop_get docs _ c1 id Hloop) as (_ & _ & _ & H4).
    destruct (H4 eq_refl d Hd) as (before & doc & after & Hdocs & Hfirst & Hid & Hmade).
    exists before, doc, after.
    split; [exact Hdocs|]. split; [exact Hfirst|]. split; [exact Hid|].
    split; [exact Hmade|]. now apply construct_existing. }
  intros Hnd. now rewrite (@applyDocs_loop_keys docs _ c1 Hloop Hnd).
Qed.


End CollectionFacts.

Lemma docChanges_by_id_witness :
  exists c',
    FirestoreCollection.applyDocChanges FirestoreDocument None pushed users_with_u1
    = (c', None)
    /\ FirestoreCollection.isLoaded c' = true
    /\ JsMap.get (FirestoreCollection._documents c') "u1" = Some renamed
    /\ JsMap.get (FirestoreCollection._documents c') "u2" = None
    /\ JsMap.get (FirestoreCollection._documents c') "u3" = None.
Proof.
  eexists. split; [reflexivity|].
  destruct (@docChanges_by_id FirestoreDocument None pushed users_with_u1 _ eq_refl)
    as (Hloaded & Hother & Hremoved & Hkept).
  split; [exact Hloaded|]. split; [|split].
  - apply (Hkept "u1" renamed eq_refl).
    intros ch [<-|[<-|[<-|[]]]] E; try discriminate E; discriminate.
  - exact (Hremoved (firstn 2 pushed)
                     {| snapshot_ref := users_u2;
                        snapshot_data := Some [("name", VStr "D")] |}
                     [] eq_refl (fun ch (H : In ch []) => match H with end)).
  - rewrite (Hother "u3"); [reflexivity|].
    intros ch [<-|[<-|[<-|[]]]] E; vm_compute in E; discriminate E.
Defined.

Lemma collection_get_reloads_witness :
  exists c',
    FirestoreCollection.get FirestoreDocument None false (inr query_result) users_with_u1
    = (c', None)
    /\ FirestoreCollection.isLoaded c' = true
    /\ JsMap.keys (FirestoreCollection._documents c') = ["u2"; "u1"]
    /\ JsMap.get (FirestoreCollection._documents c') "u1" <> Some renamed.
Proof.
  eexists. split; [reflexivity|].
  assert (Hq : FirestoreCollection.query users_with_u1 <> None)
    by (vm_compute; discriminate).
  destruct (@collection_get_reloads FirestoreDocument None query_result users_with_u1
              _ Hq eq_refl)
    as (Hloaded & _ & Hmade & Hkeys).
  split; [exact Hloaded|]. split.
  - symmetry. apply Hkeys. repeat constructor; simpl; intuition discriminate.
  - intros Hsame.
    destruct (Hmade "u1" renamed Hsame) as (_ & _ & _ & _ & _ & _ & _ & _ & Hclean & _).
    discriminate Hclean.
Defined.

Lemma collection_watch_has_query_witness :
  let c := fold_left (fun c k => FirestoreCollection.perform "" k c)
                     [FirestoreCollection.Watch 1%nat]
                     (FirestoreCollection.construct_collection
                        "" (Some (FirestoreCollection.OfPath "users")) None) in
  FirestoreCollection.query c <> None
  /\ FirestoreCollection.watch 2%nat c =
       (c, Some (FirestoreDocumentError "watch is already called"))
  /\ FirestoreCollection._unwatch
       (FirestoreCollection.perform "" (FirestoreCollection.SetCondition None) c) = None.
Proof.
  intros c.
  assert (Hw : FirestoreCollection._unwatch c <> None) by (vm_compute; discriminate).
  destruct (@collection_watch_has_query
              "" (Some (FirestoreCollection.OfPath "users")) None
              [FirestoreCollection.Watch 1%nat])
    as (Hquery & Hagain & Hother).
  split; [exact (Hquery Hw)|]. split; [exact (Hagain Hw 2%nat)|].
  apply Hother. intros callback. discriminate.
Defined.
